(** * Zenmius: encrypted vault and git-backed sync engine

    A shallow embedding of [src/main/vault-manager.ts], [src/main/db-manager.ts]
    and [src/main/git-manager.ts].

    - JavaScript values that travel through [JSON.stringify]/[JSON.parse] are
      the inductive type [json]; objects are association lists in insertion
      order.  A read with a fixed name ([payload.nonce], [data.hosts]) is an
      own-property read, no built-in prototype having a member of that name;
      the read and the write with a computed name ([data.hosts[hostId]]) go
      through the prototype chain.
    - The handlers are written in a small state-and-exception monad [M] over
      a [World] that holds the process memory ([masterKey], the database
      handle) and the files the handlers touch.
    - libsodium is the interface [Sodium]; its hexadecimal helpers are
      implemented, its cryptographic primitives are fields of the class.
    - isomorphic-git is an oracle: every call site of one [runSync] attempt
      reads its reply ([GitEnv]); the local effects the sync relies on
      (staging the work tree, snapshotting the index, sending HEAD) are
      written out, and the trace records the callback of credentials each
      network call is given. *)

From Stdlib Require Import ZArith String Ascii List DecimalString DecimalPos Lia.
From Stdlib.Strings Require Import Byte.
From stdpp Require Import base gmap strings list.
Import ListNotations.
Open Scope string_scope.

(** ** Bytes and hexadecimal text (libsodium [to_hex] / [from_hex]) *)

Definition bytes := list byte.

Definition hex_digit (n : N) : ascii :=
  match n with
  | 0%N => "0" | 1%N => "1" | 2%N => "2" | 3%N => "3"
  | 4%N => "4" | 5%N => "5" | 6%N => "6" | 7%N => "7"
  | 8%N => "8" | 9%N => "9" | 10%N => "a" | 11%N => "b"
  | 12%N => "c" | 13%N => "d" | 14%N => "e" | _ => "f"
  end%char.

Definition hex_val (c : ascii) : option N :=
  let n := N_of_ascii c in
  if ((48 <=? n) && (n <=? 57))%N then Some (n - 48)%N
  else if ((97 <=? n) && (n <=? 102))%N then Some (n - 87)%N
  else if ((65 <=? n) && (n <=? 70))%N then Some (n - 55)%N
  else None.

Fixpoint to_hex (b : bytes) : string :=
  match b with
  | [] => ""
  | x :: b' =>
      let n := Byte.to_N x in
      String (hex_digit (n / 16)) (String (hex_digit (n mod 16)) (to_hex b'))
  end.

(** [from_hex] throws on an odd length or a character that is not a
    hexadecimal digit; [None] stands for the exception. *)
Fixpoint from_hex (s : string) : option bytes :=
  match s with
  | "" => Some []
  | String _ "" => None
  | String a (String b rest) =>
      match hex_val a, hex_val b with
      | Some h, Some l =>
          match Byte.of_N (16 * h + l), from_hex rest with
          | Some x, Some tl => Some (x :: tl)
          | _, _ => None
          end
      | _, _ => None
      end
  end.

(** libsodium's [from_string] / [to_string]: a string is its UTF-8 bytes. *)
Definition from_string (s : string) : bytes := list_byte_of_string s.
Definition to_string (b : bytes) : string := string_of_list_byte b.

(** ** JavaScript values *)

#[warnings="-register-all"]
Inductive json : Type :=
| JNull
| JBool (b : bool)
| JNum (n : Z)
| JStr (s : string)
| JArr (items : list json)
| JObj (fields : list (string * json)).

(** An own property of an object; [None] is [undefined]. *)
Fixpoint obj_get (k : string) (fields : list (string * json)) : option json :=
  match fields with
  | [] => None
  | (k', v) :: rest => if String.eqb k k' then Some v else obj_get k rest
  end.

(** [o[k] = v]: an existing key keeps its position. *)
Fixpoint obj_set (k : string) (v : json) (fields : list (string * json))
  : list (string * json) :=
  match fields with
  | [] => [(k, v)]
  | (k', v') :: rest =>
      if String.eqb k k' then (k, v) :: rest else (k', v') :: obj_set k v rest
  end.

(** Truthiness; [undefined] is [None]. *)
Definition truthy (v : json) : bool :=
  match v with
  | JNull => false
  | JBool b => b
  | JNum n => negb (n =? 0)%Z
  | JStr s => negb (String.eqb s "")
  | JArr _ | JObj _ => true
  end.

Definition truthy_opt (v : option json) : bool :=
  match v with Some x => truthy x | None => false end.

(** [typeof v === 'object'] *)
Definition typeof_object (v : json) : bool :=
  match v with JNull | JArr _ | JObj _ => true | _ => false end.

Definition typeof_string (v : json) : bool :=
  match v with JStr _ => true | _ => false end.

Definition Array_isArray (v : json) : bool :=
  match v with JArr _ => true | _ => false end.

(** ** Decimal numerals *)

Definition string_of_Z (n : Z) : string := NilZero.string_of_int (Z.to_int n).

Definition is_digit (c : ascii) : bool :=
  let n := N_of_ascii c in ((48 <=? n) && (n <=? 57))%N.

Fixpoint take_digits (s : string) : string * string :=
  match s with
  | "" => ("", "")
  | String c rest =>
      if is_digit c then
        let '(ds, r) := take_digits rest in (String c ds, r)
      else ("", s)
  end.

Fixpoint Z_of_digits (acc : Z) (ds : string) : Z :=
  match ds with
  | "" => acc
  | String c rest => Z_of_digits (10 * acc + (Z.of_N (N_of_ascii c) - 48))%Z rest
  end.

(** ** [JSON.stringify] *)

Definition dquote : ascii := ascii_of_N 34.

Definition escape_char (c : ascii) : string :=
  let n := N_of_ascii c in
  if (n =? 34)%N then String "\" (String dquote "")
  else if (n =? 92)%N then "\\"
  else if (n =? 8)%N then "\b"
  else if (n =? 12)%N then "\f"
  else if (n =? 10)%N then "\n"
  else if (n =? 13)%N then "\r"
  else if (n =? 9)%N then "\t"
  else if (n <? 32)%N then
    String "\" (String "u" (String "0" (String "0"
      (String (hex_digit (n / 16)) (String (hex_digit (n mod 16)) "")))))
  else String c "".

Fixpoint escape (s : string) : string :=
  match s with
  | "" => ""
  | String c rest => escape_char c ++ escape rest
  end.

Definition quote (s : string) : string :=
  String dquote (escape s ++ String dquote "").

(** [l.join(sep)] *)
Fixpoint join (sep : string) (l : list string) : string :=
  match l with
  | [] => ""
  | x :: l' =>
      match l' with
      | [] => x
      | _ :: _ => x ++ sep ++ join sep l'
      end
  end.

Fixpoint JSON_stringify (j : json) : string :=
  match j with
  | JNull => "null"
  | JBool true => "true"
  | JBool false => "false"
  | JNum n => string_of_Z n
  | JStr s => quote s
  | JArr items => "[" ++ join "," (map JSON_stringify items) ++ "]"
  | JObj fields =>
      "{" ++ join "," (map (λ '(k, v), quote k ++ ":" ++ JSON_stringify v) fields) ++ "}"
  end.

(** ** [JSON.parse]

    A recursive-descent parser for the integer fragment of JSON: numbers with
    a fraction or an exponent and [\u] escapes above U+007F are outside the
    fragment and are rejected.  [None] stands for the [SyntaxError]. *)

Definition is_ws (c : ascii) : bool :=
  let n := N_of_ascii c in
  ((n =? 32) || (n =? 9) || (n =? 10) || (n =? 13))%N.

Fixpoint skip_ws (s : string) : string :=
  match s with
  | "" => ""
  | String c rest => if is_ws c then skip_ws rest else s
  end.

Fixpoint strip_prefix (p s : string) : option string :=
  match p with
  | "" => Some s
  | String a p' =>
      match s with
      | "" => None
      | String b s' => if Ascii.eqb a b then strip_prefix p' s' else None
      end
  end.

Definition unescape (e : ascii) : option ascii :=
  let n := N_of_ascii e in
  if (n =? 34)%N then Some e
  else if (n =? 92)%N then Some e
  else if (n =? 47)%N then Some e
  else if (n =? 98)%N then Some (ascii_of_N 8)
  else if (n =? 102)%N then Some (ascii_of_N 12)
  else if (n =? 110)%N then Some (ascii_of_N 10)
  else if (n =? 114)%N then Some (ascii_of_N 13)
  else if (n =? 116)%N then Some (ascii_of_N 9)
  else None.

Definition unicode_escape (h1 h2 h3 h4 : ascii) : option ascii :=
  match hex_val h1, hex_val h2, hex_val h3, hex_val h4 with
  | Some a, Some b, Some c, Some d =>
      let n := (4096 * a + 256 * b + 16 * c + d)%N in
      if (n <? 128)%N then Some (ascii_of_N n) else None
  | _, _, _, _ => None
  end.

(** The characters of a string literal, after its opening quote. *)
Fixpoint parse_chars (s : string) : option (string * string) :=
  match s with
  | "" => None
  | String c rest =>
      let n := N_of_ascii c in
      if (n =? 34)%N then Some ("", rest)
      else if (n =? 92)%N then
        match rest with
        | "" => None
        | String e rest' =>
            if (N_of_ascii e =? 117)%N then
              match rest' with
              | String h1 (String h2 (String h3 (String h4 r))) =>
                  match unicode_escape h1 h2 h3 h4, parse_chars r with
                  | Some ch, Some (str, r') => Some (String ch str, r')
                  | _, _ => None
                  end
              | _ => None
              end
            else
              match unescape e, parse_chars rest' with
              | Some ch, Some (str, r') => Some (String ch str, r')
              | _, _ => None
              end
        end
      else if (n <? 32)%N then None
      else
        match parse_chars rest with
        | Some (str, r') => Some (String c str, r')
        | None => None
        end
  end.

Definition starts_fraction (s : string) : bool :=
  match s with
  | "" => false
  | String c _ =>
      let n := N_of_ascii c in ((n =? 46) || (n =? 101) || (n =? 69))%N
  end.

Definition parse_number (s : string) : option (json * string) :=
  let '(neg, s1) :=
    match s with
    | "" => (false, s)
    | String c r => if (N_of_ascii c =? 45)%N then (true, r) else (false, s)
    end in
  let '(ds, rest) := take_digits s1 in
  match ds with
  | "" => None
  | String d ds' =>
      if ((N_of_ascii d =? 48)%N && negb (String.eqb ds' "")) then None
      else if starts_fraction rest then None
      else
        let v := Z_of_digits 0 ds in
        Some (JNum (if neg then - v else v)%Z, rest)
  end.

Definition is_char (c : ascii) (n : N) : bool := (N_of_ascii c =? n)%N.

Fixpoint parse_value (fuel : nat) (s : string) : option (json * string) :=
  match fuel with
  | O => None
  | S fuel' =>
      match skip_ws s with
      | "" => None
      | String c rest =>
          if is_char c 110 then r ← strip_prefix "ull" rest; Some (JNull, r)
          else if is_char c 116 then r ← strip_prefix "rue" rest; Some (JBool true, r)
          else if is_char c 102 then r ← strip_prefix "alse" rest; Some (JBool false, r)
          else if is_char c 34 then
            '(str, r) ← parse_chars rest; Some (JStr str, r)
          else if is_char c 91 then
            match skip_ws rest with
            | "" => None
            | String c' r =>
                if is_char c' 93 then Some (JArr [], r)
                else '(l, r') ← parse_elements fuel' rest; Some (JArr l, r')
            end
          else if is_char c 123 then
            match skip_ws rest with
            | "" => None
            | String c' r =>
                if is_char c' 125 then Some (JObj [], r)
                else
                  '(l, r') ← parse_members fuel' rest;
                  Some (JObj (fold_left (λ acc kv, obj_set kv.1 kv.2 acc) l []), r')
            end
          else parse_number (String c rest)
      end
  end
with parse_elements (fuel : nat) (s : string) : option (list json * string) :=
  match fuel with
  | O => None
  | S fuel' =>
      '(v, r) ← parse_value fuel' s;
      match skip_ws r with
      | "" => None
      | String c r' =>
          if is_char c 44 then
            '(l, r'') ← parse_elements fuel' r'; Some (v :: l, r'')
          else if is_char c 93 then Some ([v], r')
          else None
      end
  end
with parse_members (fuel : nat) (s : string)
  : option (list (string * json) * string) :=
  match fuel with
  | O => None
  | S fuel' =>
      match skip_ws s with
      | "" => None
      | String q r0 =>
          if is_char q 34 then
            '(k, r1) ← parse_chars r0;
            match skip_ws r1 with
            | "" => None
            | String c r2 =>
                if is_char c 58 then
                  '(v, r) ← parse_value fuel' r2;
                  match skip_ws r with
                  | "" => None
                  | String c' r' =>
                      if is_char c' 44 then
                        '(l, r'') ← parse_members fuel' r'; Some ((k, v) :: l, r'')
                      else if is_char c' 125 then Some ([(k, v)], r')
                      else None
                  end
                else None
            end
          else None
      end
  end.

Definition JSON_parse (s : string) : option json :=
  match parse_value (2 * String.length s + 2) s with
  | Some (j, r) => if String.eqb (skip_ws r) "" then Some j else None
  | None => None
  end.

(** ** Documents that JSON represents

    An object has each key once. *)
Fixpoint distinct (keys : list string) : bool :=
  match keys with
  | [] => true
  | k :: rest => negb (existsb (String.eqb k) rest) && distinct rest
  end.

Fixpoint json_wf (j : json) : bool :=
  match j with
  | JArr items => forallb json_wf items
  | JObj fields =>
      distinct (map fst fields) && forallb (λ '(_, v), json_wf v) fields
  | _ => true
  end.

(** The fuel [parse_value] needs for the text of a document. *)
Fixpoint json_size (j : json) : nat :=
  match j with
  | JArr items => S (list_sum (map (λ x, S (json_size x)) items))
  | JObj fields => S (list_sum (map (λ '(_, v), S (json_size v)) fields))
  | _ => 1
  end.

(** What may follow a value: the end of the text, a comma or a closing
    bracket. *)
Definition terminated (rest : string) : bool :=
  match rest with
  | "" => true
  | String c _ => is_char c 44 || is_char c 93 || is_char c 125
  end.

(** The text of one member of an object. *)
Definition member (kv : string * json) : string :=
  quote kv.1 ++ ":" ++ JSON_stringify kv.2.

(** *** [String.prototype.trim]

    The white space of ECMAScript, in the bytes of UTF-8. *)

(** White space of one byte: tab, line feed, vertical tab, form feed,
    carriage return and space. *)
Definition is_space1 (c : ascii) : bool :=
  let n := N_of_ascii c in ((9 <=? n) && (n <=? 13) || (n =? 32))%N.

(** U+00A0 in UTF-8. *)
Definition is_space2 (c1 c2 : ascii) : bool :=
  ((N_of_ascii c1 =? 194) && (N_of_ascii c2 =? 160))%N.

(** White space of three bytes in UTF-8: U+1680, U+2000 to U+200A, U+2028,
    U+2029, U+202F, U+205F, U+3000 and U+FEFF. *)
Definition is_space3 (c1 c2 c3 : ascii) : bool :=
  let '(a, b, c) := (N_of_ascii c1, N_of_ascii c2, N_of_ascii c3) in
  ((a =? 225) && (b =? 154) && (c =? 128)
   || (a =? 226) && (b =? 128)
      && ((128 <=? c) && (c <=? 138) || (c =? 168) || (c =? 169) || (c =? 175))
   || (a =? 226) && (b =? 129) && (c =? 159)
   || (a =? 227) && (b =? 128) && (c =? 128)
   || (a =? 239) && (b =? 187) && (c =? 191))%N.

(** [s.trimStart()], on the UTF-8 text of [s]. *)
Fixpoint trim_start (s : string) : string :=
  match s with
  | "" => ""
  | String c1 r1 =>
      if is_space1 c1 then trim_start r1
      else if (N_of_ascii c1 <? 194)%N then s
      else
        match r1 with
        | "" => s
        | String c2 r2 =>
            if is_space2 c1 c2 then trim_start r2
            else
              match r2 with
              | "" => s
              | String c3 r3 => if is_space3 c1 c2 c3 then trim_start r3 else s
              end
        end
  end.

(** [s.trimEnd()]: what is left of [s] without its longest suffix of white
    space. *)
Fixpoint trim_end (s : string) : string :=
  match s with
  | "" => ""
  | String c rest =>
      if String.eqb (trim_start s) "" then "" else String c (trim_end rest)
  end.

(** [s.trim()] *)
Definition trim (s : string) : string := trim_start (trim_end s).

(** [raw.trim() === ''] (also true of the empty string). *)
Definition is_blank (s : string) : bool := String.eqb (trim s) "".

(** [includes]: substring test. *)
Fixpoint includes (s sub : string) : bool :=
  if String.prefix sub s then true
  else match s with
       | "" => false
       | String _ rest => includes rest sub
       end.

(** ** Errors and results *)

Record JsError := mkError { code : string; message : string }.

Definition Error (msg : string) : JsError := mkError "" msg.

Inductive Outcome (A : Type) : Type :=
| Ret (a : A)
| Throw (e : JsError).
Arguments Ret {A} a.
Arguments Throw {A} e.

(** The objects [{ success: true, ... }] and [{ success: false, error }]. *)
Inductive Result (A : Type) : Type :=
| Success (a : A)
| Failure (error : string).
Arguments Success {A} a.
Arguments Failure {A} error.

Definition success {A} (r : Result A) : bool :=
  match r with Success _ => true | Failure _ => false end.

(** ** The record store (better-sqlite3) *)

Inductive sqlval := SNull | SInt (n : Z) | SText (s : string).

Inductive affinity := TEXT | INTEGER | NUMERIC.

Record column := mkColumn
  { col_name : string; col_affinity : affinity; col_notnull : bool }.

(** A row gives every column of its table a value, in column order. *)
Definition Row := list (string * sqlval).

Record Database := mkDatabase
  { hosts : list Row;
    snippets : list Row;
    settings : gmap string string;
    remote_connections : list Row }.

(** ** The sync directory and the local repository *)

Definition Files := gmap string string.

Record GitRepo := mkGitRepo
  { HEAD : string;              (* content of .git/HEAD *)
    remotes : gmap string string;
    index : Files;              (* staged files *)
    tip : option Files }.       (* tree of the commit refs/heads/main points to *)

Record SyncDir := mkSyncDir
  { worktree : Files;           (* every file of SYNC_DIR outside .git *)
    dotgit : option GitRepo }.

Inductive Path :=
| VAULT_PATH
| METADATA_PATH
| SYNC_FILE (name : string).

Definition ENC_DB_FILE : Path := SYNC_FILE "zenmius_db.enc".
Definition CREDENTIALS_CACHE : Path := SYNC_FILE ".git-credentials-cache.json".

(** The call sites of isomorphic-git. *)
Inductive GitOp :=
| OpClone | OpInit | OpAddRemote | OpDeleteRemote | OpReAddRemote
| OpListServerRefs | OpPull | OpAdd | OpResolveRef | OpCommit
| OpInitialCommit | OpWriteRef | OpPush.

(** What the library answers at a call site: an exception, or the data the
    call returns (the refs of the remote, the files a pull or a clone checks
    out, an object id). *)
Record Reply := mkReply
  { r_error : option JsError;
    r_refs : list string;
    r_files : Files;
    r_oid : string }.

Definition GitEnv := GitOp → Reply.

Inductive Event :=
| ELog (msg : string)                   (* [log(msg)] of runSync *)
| EGit (op : GitOp)                     (* a call at this site *)
| EStaged (files : Files)               (* git.add staged these files *)
| ECommitted (msg : string) (tree : Files)
| EOnAuth (token : string) (username : option string)
                                        (* a network call is given this callback *)
| EPush (force : bool)                  (* git.push was called with this flag *)
| EReceived (tree : option Files)       (* the push succeeded: the remote holds this tree *)
| EImported (data : json)               (* the transaction of importData(data) committed *)
| EWiped.                               (* rmSync(SYNC_DIR) *)

(** ** The world the handlers run in *)

Record World := mkWorld
  { masterKey : option bytes;           (* VaultManager.masterKey *)
    vault_file : option string;         (* VAULT_PATH *)
    meta_file : option string;          (* METADATA_PATH *)
    db : option Database;               (* DatabaseManager.db *)
    sync_dir : option SyncDir;          (* SYNC_DIR *)
    unwritable : Path → bool;           (* files whose write fails *)
    torn : Path → option nat;           (* how it fails: see [writeFileSync] *)
    entropy : nat → byte;               (* the bytes randombytes_buf will draw *)
    cursor : nat;
    now : string;                       (* new Date().toISOString() *)
    trace : list Event }.

Definition set_masterKey (k : option bytes) (w : World) : World :=
  mkWorld k (vault_file w) (meta_file w) (db w) (sync_dir w) (unwritable w)
          (torn w) (entropy w) (cursor w) (now w) (trace w).
Definition set_vault_file (f : option string) (w : World) : World :=
  mkWorld (masterKey w) f (meta_file w) (db w) (sync_dir w) (unwritable w)
          (torn w) (entropy w) (cursor w) (now w) (trace w).
Definition set_meta_file (f : option string) (w : World) : World :=
  mkWorld (masterKey w) (vault_file w) f (db w) (sync_dir w) (unwritable w)
          (torn w) (entropy w) (cursor w) (now w) (trace w).
Definition set_db (d : option Database) (w : World) : World :=
  mkWorld (masterKey w) (vault_file w) (meta_file w) d (sync_dir w) (unwritable w)
          (torn w) (entropy w) (cursor w) (now w) (trace w).
Definition set_sync_dir (d : option SyncDir) (w : World) : World :=
  mkWorld (masterKey w) (vault_file w) (meta_file w) (db w) d (unwritable w)
          (torn w) (entropy w) (cursor w) (now w) (trace w).
Definition set_cursor (c : nat) (w : World) : World :=
  mkWorld (masterKey w) (vault_file w) (meta_file w) (db w) (sync_dir w) (unwritable w)
          (torn w) (entropy w) c (now w) (trace w).
Definition emit (e : Event) (w : World) : World :=
  mkWorld (masterKey w) (vault_file w) (meta_file w) (db w) (sync_dir w) (unwritable w)
          (torn w) (entropy w) (cursor w) (now w) (trace w ++ [e]).

(** ** The monad of the handlers: state and exceptions *)

Definition M (A : Type) : Type := World → Outcome A * World.

Definition ret {A} (a : A) : M A := λ w, (Ret a, w).
Definition throw {A} (e : JsError) : M A := λ w, (Throw e, w).
Definition bind {A B} (m : M A) (k : A → M B) : M B :=
  λ w, match m w with
       | (Ret a, w') => k a w'
       | (Throw e, w') => (Throw e, w')
       end.
(** [try { m } catch (e) { h e }] *)
Definition try_catch {A} (m : M A) (h : JsError → M A) : M A :=
  λ w, match m w with
       | (Ret a, w') => (Ret a, w')
       | (Throw e, w') => h e w'
       end.
Definition get {A} (f : World → A) : M A := λ w, (Ret (f w), w).
Definition modify (f : World → World) : M unit := λ w, (Ret tt, f w).
Definition lift {A} (o : Outcome A) : M A := λ w, (o, w).
Definition or_throw {A} (o : option A) (e : JsError) : M A :=
  match o with Some a => ret a | None => throw e end.

#[global] Instance M_ret : MRet M := @ret.
#[global] Instance M_bind : MBind M := λ A B k m, bind m k.

(** ** File system *)

Definition EACCES : JsError := mkError "EACCES" "EACCES: permission denied".
Definition ENOENT : JsError := mkError "ENOENT" "ENOENT: no such file or directory".
Definition ENOSPC : JsError := mkError "ENOSPC" "ENOSPC: no space left on device, write".

Definition existsSync (p : Path) : M bool :=
  λ w, (Ret match p with
            | VAULT_PATH => bool_decide (is_Some (vault_file w))
            | METADATA_PATH => bool_decide (is_Some (meta_file w))
            | SYNC_FILE name =>
                match sync_dir w with
                | Some d => bool_decide (is_Some (worktree d !! name))
                | None => false
                end
            end, w).

Definition readFileSync (p : Path) : M string :=
  λ w, match p with
       | VAULT_PATH => or_throw (vault_file w) ENOENT w
       | METADATA_PATH => or_throw (meta_file w) ENOENT w
       | SYNC_FILE name =>
           match sync_dir w with
           | Some d => or_throw (worktree d !! name) ENOENT w
           | None => (Throw ENOENT, w)
           end
       end.

(** A write that fails.  [fs.writeFileSync] opens the file with the flag
    [w], which truncates it, and then writes.  When the open is refused
    ([torn w p = None]) the file is as it was; when the write fails after the
    open ([torn w p = Some n]) the file holds the first [n] bytes of the new
    content and nothing of the old one. *)
Definition write_error (p : Path) (w : World) : JsError :=
  match torn w p with
  | None => EACCES
  | Some _ =>
      match p, sync_dir w with
      | SYNC_FILE _, None => ENOENT
      | _, _ => ENOSPC
      end
  end.

Definition failed_write (p : Path) (content : string) (w : World) : World :=
  match torn w p with
  | None => w
  | Some n =>
      let partial := substring 0 n content in
      match p with
      | VAULT_PATH => set_vault_file (Some partial) w
      | METADATA_PATH => set_meta_file (Some partial) w
      | SYNC_FILE name =>
          match sync_dir w with
          | Some d =>
              set_sync_dir
                (Some (mkSyncDir (<[name := partial]> (worktree d)) (dotgit d))) w
          | None => w
          end
      end
  end.

Definition writeFileSync (p : Path) (content : string) : M unit :=
  λ w, if unwritable w p then (Throw (write_error p w), failed_write p content w)
       else match p with
            | VAULT_PATH => (Ret tt, set_vault_file (Some content) w)
            | METADATA_PATH => (Ret tt, set_meta_file (Some content) w)
            | SYNC_FILE name =>
                match sync_dir w with
                | Some d =>
                    (Ret tt, set_sync_dir
                       (Some (mkSyncDir (<[name := content]> (worktree d)) (dotgit d))) w)
                | None => (Throw ENOENT, w)
                end
            end.

(** ** libsodium *)

(** [crypto_secretbox_KEYBYTES] *)
Definition KEYBYTES : nat := 32.

Class Sodium := mkSodium
  { (* crypto_pwhash(KEYBYTES, password, salt, OPSLIMIT, MEMLIMIT, ALG) *)
    crypto_pwhash : string → bytes → Outcome bytes;
    (* crypto_secretbox_easy(message, nonce, key) *)
    crypto_secretbox_easy : bytes → bytes → bytes → Outcome bytes;
    (* crypto_secretbox_open_easy(ciphertext, nonce, key): the plaintext, an
       exception, or a falsy value ([None]) *)
    crypto_secretbox_open_easy : bytes → bytes → bytes → Outcome (option bytes);
    (* the key [crypto_pwhash] returns has the length it is asked for *)
    crypto_pwhash_KEYBYTES : ∀ password salt key,
      crypto_pwhash password salt = Ret key → length key = KEYBYTES }.

Definition NONCE_BYTES : nat := 24.
Definition SALT_BYTES : nat := 16.

Definition randombytes_buf (n : nat) : M bytes :=
  λ w, (Ret (map (entropy w) (seq (cursor w) n)), set_cursor (cursor w + n) w).

(** [from_hex] applied to a JavaScript value: only strings are accepted. *)
Definition sodium_from_hex (v : option json) : M bytes :=
  match v with
  | Some (JStr s) => or_throw (from_hex s) (Error "invalid input")
  | _ => throw (mkError "" "unsupported input type for input")
  end.

(** [v.k] for a property name that no primitive wrapper defines: reading a
    property of [null] throws a TypeError. *)
Definition js_get (v : json) (k : string) : M (option json) :=
  match v with
  | JNull => throw (Error ("Cannot read properties of null (reading '" ++ k ++ "')"))
  | JObj fields => ret (obj_get k fields)
  | _ => ret None
  end.

Definition JSON_parse_M (s : string) : M json :=
  or_throw (JSON_parse s) (mkError "" "Unexpected token in JSON").

(** ** vault-manager.ts *)

Record Envelope := mkEnvelope { nonce : string; ciphertext : string }.

Definition json_of_envelope (p : Envelope) : json :=
  JObj [("nonce", JStr (nonce p)); ("ciphertext", JStr (ciphertext p))].

(** An array index: a canonical numeral below 2^32 - 1. *)
Definition array_index (k : string) : option nat :=
  let '(ds, rest) := take_digits k in
  match ds, rest with
  | String d ds', "" =>
      if (N_of_ascii d =? 48)%N && negb (String.eqb ds' "") then None
      else if (Z_of_digits 0 ds <? 4294967295)%Z then Some (Z.to_nat (Z_of_digits 0 ds))
      else None
  | _, _ => None
  end.

(** The own properties of a value: the fields of an object, the elements and
    the [length] of an array, the characters and the [length] of a string. *)
Definition js_index (v : json) (k : string) : option json :=
  match v with
  | JObj fields => obj_get k fields
  | JArr items =>
      if String.eqb k "length" then Some (JNum (Z.of_nat (length items)))
      else match array_index k with
           | Some i => items !! i
           | None => None
           end
  | JStr s =>
      if String.eqb k "length" then Some (JNum (Z.of_nat (String.length s)))
      else match array_index k with
           | Some i =>
               match String.get i s with
               | Some c => Some (JStr (String c ""))
               | None => None
               end
           | None => None
           end
  | _ => None
  end.

(** [a[i] = v] on an array: an index past the end pads with holes, which
    JSON prints as [null]. *)
Definition array_set (i : nat) (v : json) (items : list json) : list json :=
  if (i <? length items)%nat then <[i := v]> items
  else items ++ replicate (i - length items) JNull ++ [v].

(** *** The prototype chain

    What a value does not own it inherits.  Every value but [null] inherits
    the members of [Object.prototype], which the language fixes. *)
Definition Object_prototype : list string :=
  [ "constructor"; "__defineGetter__"; "__defineSetter__"; "hasOwnProperty";
    "__lookupGetter__"; "__lookupSetter__"; "isPrototypeOf"; "propertyIsEnumerable";
    "toString"; "valueOf"; "__proto__"; "toLocaleString" ].

(** Arrays, strings, numbers and booleans inherit from a prototype of their
    own first ([Array.prototype] and the like), whose members vary with the
    version of the engine: they are a parameter of the model. *)
Inductive wrapper := WArray | WString | WNumber | WBoolean.

Class Runtime := mkRuntime { prototype_has : wrapper → string → bool }.

Inductive proto := PObject | PWrapper (x : wrapper).

Definition proto_of (v : json) : option proto :=
  match v with
  | JNull => None
  | JBool _ => Some (PWrapper WBoolean)
  | JNum _ => Some (PWrapper WNumber)
  | JStr _ => Some (PWrapper WString)
  | JArr _ => Some (PWrapper WArray)
  | JObj _ => Some PObject
  end.

(** What a read gives: a JSON value, or a member a value with the prototype
    [p] inherits under the name [name].  An inherited member is a function
    or, for [__proto__], the prototype itself: it is truthy and it is no
    JSON value. *)
Inductive jsval :=
| JsonVal (j : json)
| Builtin (p : proto) (name : string).

Coercion JsonVal : json >-> jsval.

Definition truthy_val (x : jsval) : bool :=
  match x with JsonVal j => truthy j | Builtin _ _ => true end.

Definition inherits `{Runtime} (p : proto) (k : string) : bool :=
  match p with
  | PObject => false
  | PWrapper x => prototype_has x k
  end || bool_decide (k ∈ Object_prototype).

(** [v[k]] for [v] other than [null] and [undefined]; [None] is [undefined]. *)
Definition js_read `{Runtime} (v : json) (k : string) : option jsval :=
  match js_index v k with
  | Some x => Some (JsonVal x)
  | None =>
      match proto_of v with
      | Some p => if inherits p k then Some (Builtin p k) else None
      | None => None
      end
  end.

Definition TypeError (msg : string) : JsError := mkError "" msg.
Definition RangeError (msg : string) : JsError := mkError "" msg.

(** [o[k] = v] on an object.  An own property is replaced.  A new name
    becomes an own property, except [__proto__]: the assignment then calls
    the setter of [Object.prototype], which changes the prototype of [o] and
    adds no property. *)
Definition obj_assign (k : string) (v : json) (fields : list (string * json))
  : list (string * json) :=
  if String.eqb k "__proto__" && negb (bool_decide (is_Some (obj_get k fields)))
  then fields
  else obj_set k v fields.

(** [target[k] = v] in strict code (the body of a class), for a truthy
    [target] and an object [v]; the result is [target] as [JSON.stringify]
    prints it afterwards.  An array takes elements, refuses an object as its
    [length], and keeps every other property out of its JSON text.  A string,
    a number or a boolean takes no property: the assignment throws, except
    for [__proto__], whose setter returns without doing anything. *)
Definition js_assign (target : json) (k : string) (v : json) : Outcome json :=
  match target with
  | JObj fields => Ret (JObj (obj_assign k v fields))
  | JArr items =>
      if String.eqb k "length" then Throw (RangeError "Invalid array length")
      else match array_index k with
           | Some i => Ret (JArr (array_set i v items))
           | None => Ret target
           end
  | JNull => Throw (TypeError ("Cannot set properties of null (setting '" ++ k ++ "')"))
  | _ =>
      if String.eqb k "__proto__" then Ret target
      else
        let shown :=
          match target with
          | JStr s => "string '" ++ s ++ "'"
          | JNum n => "number '" ++ string_of_Z n ++ "'"
          | JBool true => "boolean 'true'"
          | _ => "boolean 'false'"
          end in
        if bool_decide (is_Some (js_index target k))
        then Throw (TypeError ("Cannot assign to read only property '" ++ k
                                 ++ "' of " ++ shown))
        else Throw (TypeError ("Cannot create property '" ++ k ++ "' on " ++ shown))
  end.

Section VaultManager.
Context `{Sodium} `{Runtime}.

Definition status : M bool := get (λ w, bool_decide (masterKey w = None)).

(** The body shared by [encryptData], [saveDirect], [vault:save],
    [vault:save-credential] and [vault:change-password]: a fresh nonce and
    the secretbox of [JSON.stringify(data)]. *)
Definition seal (data : json) (key : bytes) : M Envelope :=
  nonce ← randombytes_buf NONCE_BYTES;
  encrypted ← lift (crypto_secretbox_easy (from_string (JSON_stringify data)) nonce key);
  ret (mkEnvelope (to_hex nonce) (to_hex encrypted)).

Definition encryptData (data : json) : M (Result Envelope) :=
  k ← get masterKey;
  match k with
  | None => ret (Failure "Vault Locked")
  | Some key =>
      try_catch
        (payload ← seal data key; ret (Success payload))
        (λ e, ret (Failure (message e)))
  end.

Definition decryptData (payload : json) : M (Result json) :=
  k ← get masterKey;
  match k with
  | None => ret (Failure "Vault Locked")
  | Some key =>
      try_catch
        (n ← js_get payload "nonce";
         nonce ← sodium_from_hex n;
         c ← js_get payload "ciphertext";
         ciphertext ← sodium_from_hex c;
         decrypted ← lift (crypto_secretbox_open_easy ciphertext nonce key);
         match decrypted with
         | None => throw (Error "Decryption Failed")
         | Some d =>
             data ← JSON_parse_M (to_string d);
             ret (Success data)
         end)
        (λ e, ret (Failure (message e)))
  end.

Definition decryptVault : M (Result json) :=
  k ← get masterKey;
  match k with
  | None => ret (Failure "Vault locked")
  | Some _ =>
      present ← existsSync VAULT_PATH;
      if negb present then ret (Success (JArr []))
      else
        try_catch
          (raw ← readFileSync VAULT_PATH;
           if is_blank raw then ret (Success (JArr []))
           else
             match JSON_parse raw with
             | None => ret (Failure "Vault JSON corrupted")
             | Some payload =>
                 n ← (if truthy payload then js_get payload "nonce" else ret None);
                 c ← (if truthy payload then js_get payload "ciphertext" else ret None);
                 if negb (truthy payload)
                    || negb (truthy_opt n) || negb (from_option typeof_string false n)
                    || negb (truthy_opt c) || negb (from_option typeof_string false c)
                 then throw (Error "Invalid vault format or corruption")
                 else
                   nonce ← sodium_from_hex n;
                   ciphertext ← sodium_from_hex c;
                   k' ← get masterKey;
                   match k' with
                   | None => throw (Error "Master key lost during decryption")
                   | Some key =>
                       decrypted ← lift (crypto_secretbox_open_easy ciphertext nonce key);
                       match decrypted with
                       | None => throw (Error "Decryption returned null (Wrong Password?)")
                       | Some d =>
                           data ← JSON_parse_M (to_string d);
                           ret (Success data)
                       end
                   end
             end)
          (λ _, ret (Failure "Master Password verification failed or vault corrupted."))
  end.

Definition loadDirect : M (Result json) := decryptVault.

Definition saveDirect (data : json) : M (Result unit) :=
  k ← get masterKey;
  match k with
  | None => ret (Failure "Vault Locked")
  | Some key =>
      try_catch
        (payload ← seal data key;
         writeFileSync VAULT_PATH (JSON_stringify (json_of_envelope payload));;
         ret (Success tt))
        (λ e, ret (Failure ("Failed to save vault: " ++ message e)))
  end.

(** [getSalt]: the persisted salt, or a fresh one when the metadata file is
    missing, blank, unparsable or has no usable [salt]. *)
Definition getSalt : M bytes :=
  stored ← try_catch
    (present ← existsSync METADATA_PATH;
     if (present : bool) then
       raw ← readFileSync METADATA_PATH;
       if negb (is_blank raw) then
         meta ← JSON_parse_M raw;
         s ← (if truthy meta then js_get meta "salt" else ret None);
         if truthy meta && truthy_opt s && from_option typeof_string false s
         then salt ← sodium_from_hex s; ret (Some salt)
         else ret None
       else ret None
     else ret None)
    (λ _, ret None);
  match stored with
  | Some salt => ret salt
  | None =>
      salt ← randombytes_buf SALT_BYTES;
      try_catch
        (writeFileSync METADATA_PATH (JSON_stringify (JObj [("salt", JStr (to_hex salt))])))
        (λ _, ret tt);;
      ret salt
  end.

(** [vault:save-credential] *)
Definition vault_save_credential (hostId password username : string)
  : M (Result unit) :=
  k ← get masterKey;
  match k with
  | None => ret (Failure "Vault locked")
  | Some key =>
      try_catch
        (current ← decryptVault;
         let data :=
           match current with
           | Success (JObj fields) => fields
           | _ => [("hosts", JObj [])]
           end in
         let data :=
           if truthy_opt (obj_get "hosts" data) then data
           else obj_set "hosts" (JObj []) data in
         t ← get now;
         let entry := JObj [("password", JStr password); ("username", JStr username);
                            ("updatedAt", JStr t)] in
         hosts ← lift (js_assign (default JNull (obj_get "hosts" data)) hostId entry);
         let data := obj_set "hosts" hosts data in
         payload ← seal (JObj data) key;
         writeFileSync VAULT_PATH (JSON_stringify (json_of_envelope payload));;
         ret (Success tt))
        (λ e, ret (Failure (message e)))
  end.

(** [vault:get-credential] *)
Definition vault_get_credential (hostId : string) : M (Result jsval) :=
  k ← get masterKey;
  match k with
  | None => ret (Failure "Vault locked")
  | Some _ =>
      current ← decryptVault;
      match current with
      | Failure e => ret (Failure e)
      | Success d =>
          let data :=
            if truthy d && typeof_object d && negb (Array_isArray d) then d
            else JObj [("hosts", JObj [])] in
          let hosts := match data with JObj fields => obj_get "hosts" fields | _ => None end in
          let cred :=
            match hosts with
            | None | Some JNull => None
            | Some h => js_read h hostId
            end in
          ret (Success match cred with
                       | Some x => if truthy_val x then x else JsonVal JNull
                       | None => JsonVal JNull
                       end)
      end
  end.

(** [vault:init] *)
Definition vault_init (password : string) : M (Result unit) :=
  try_catch
    (salt ← getSalt;
     key ← lift (crypto_pwhash password salt);
     modify (set_masterKey (Some key));;
     present ← existsSync VAULT_PATH;
     if (present : bool) then
       k ← get masterKey;
       match k with
       | None => throw (Error "Master Key generation failed")
       | Some _ =>
           loadResult ← decryptVault;
           if negb (success loadResult) then
             modify (set_masterKey None);;
             ret (Failure "Invalid Master Password (or corrupted vault)")
           else ret (Success tt)
       end
     else ret (Success tt))
    (λ e, ret (Failure (if String.eqb (message e) "" then "Unknown Vault Error"
                        else message e))).

(** [vault:change-password] *)
Definition vault_change_password (newPassword : string) : M (Result unit) :=
  k ← get masterKey;
  match k with
  | None => ret (Failure "Vault must be unlocked first")
  | Some _ =>
      try_catch
        (currentData ← decryptVault;
         match currentData with
         | Failure _ => throw (Error "Failed to decrypt current vault")
         | Success data =>
             newSalt ← randombytes_buf SALT_BYTES;
             newMasterKey ← lift (crypto_pwhash newPassword newSalt);
             payload ← seal data newMasterKey;
             writeFileSync VAULT_PATH (JSON_stringify (json_of_envelope payload));;
             writeFileSync METADATA_PATH
               (JSON_stringify (JObj [("salt", JStr (to_hex newSalt))]));;
             modify (set_masterKey (Some newMasterKey));;
             ret (Success tt)
         end)
        (λ e, ret (Failure (message e)))
  end.

(** [vault:save] *)
Definition vault_save (data : json) : M (Result unit) :=
  k ← get masterKey;
  match k with
  | None => ret (Failure "Vault locked")
  | Some key =>
      try_catch
        (payload ← seal data key;
         writeFileSync VAULT_PATH (JSON_stringify (json_of_envelope payload));;
         ret (Success tt))
        (λ e, ret (Failure ("Failed to save vault: " ++ message e)))
  end.

(** [vault:load], [vault:lock], [vault:status] *)
Definition vault_load : M (Result json) := decryptVault.
Definition vault_lock : M (Result unit) :=
  modify (set_masterKey None);; ret (Success tt).
Definition vault_status : M bool := get (λ w, bool_decide (masterKey w = None)).

End VaultManager.

(** ** db-manager.ts *)

#[global] Instance Outcome_ret : MRet Outcome := @Ret.
#[global] Instance Outcome_bind : MBind Outcome :=
  λ A B k o, match o with Ret a => k a | Throw e => Throw e end.

Definition hosts_schema : list column :=
  [ mkColumn "id" TEXT false; mkColumn "name" TEXT true; mkColumn "host" TEXT true;
    mkColumn "port" INTEGER true; mkColumn "username" TEXT true;
    mkColumn "folder" TEXT false; mkColumn "tags" TEXT false;
    mkColumn "created_at" NUMERIC false ].

Definition snippets_schema : list column :=
  [ mkColumn "id" TEXT false; mkColumn "name" TEXT true; mkColumn "command" TEXT true;
    mkColumn "tags" TEXT false; mkColumn "created_at" NUMERIC false ].

Definition remote_connections_schema : list column :=
  [ mkColumn "id" TEXT false; mkColumn "name" TEXT true; mkColumn "protocol" TEXT true;
    mkColumn "host" TEXT true; mkColumn "port" INTEGER true;
    mkColumn "username" TEXT false; mkColumn "password" TEXT false;
    mkColumn "resolution" TEXT false; mkColumn "created_at" NUMERIC false ].

Definition sqlval_eqb (a b : sqlval) : bool :=
  match a, b with
  | SNull, SNull => true
  | SInt x, SInt y => (x =? y)%Z
  | SText x, SText y => String.eqb x y
  | _, _ => false
  end.

Fixpoint row_get (c : string) (r : Row) : sqlval :=
  match r with
  | [] => SNull
  | (c', v) :: rest => if String.eqb c c' then v else row_get c rest
  end.

(** The primary key of the three tables is the column [id]. *)
Definition pk (r : Row) : sqlval := row_get "id" r.

Definition missing_parameter : JsError := mkError "" "Missing named parameter".

(** better-sqlite3 binds numbers (as reals), strings and [null]; a named
    parameter the object does not own and any other value throw.  A property
    whose value is [undefined] binds as NULL: a parameter object holds it as
    [JNull]. *)
Definition bind_value (name : string) (v : option json) : Outcome sqlval :=
  match v with
  | None => Throw missing_parameter
  | Some JNull => Ret SNull
  | Some (JNum n) => Ret (SInt n)
  | Some (JStr s) => Ret (SText s)
  | Some _ =>
      Throw (mkError "" "SQLite3 can only bind numbers, strings, bigints, buffers, and null")
  end.

Definition integer_literal (s : string) : option Z :=
  let '(neg, s1) :=
    match s with
    | "" => (false, s)
    | String c r => if (N_of_ascii c =? 45)%N then (true, r) else (false, s)
    end in
  match take_digits s1 with
  | (String d ds, "") =>
      let v := Z_of_digits 0 (String d ds) in Some (if neg then - v else v)%Z
  | _ => None
  end.

Fixpoint strip_zeros (s : string) : string :=
  match s with
  | "" => ""
  | String c rest =>
      let r := strip_zeros rest in
      if (N_of_ascii c =? 48)%N && String.eqb r "" then "" else String c r
  end.

(** The text SQLite gives the real number [n] (its [%!.15g]): the digits and
    [.0] below 10^15; from there on fifteen significant digits, rounded half
    up, with the zeros at the end dropped, and an exponent. *)
Definition real_text (n : Z) : string :=
  let a := Z.abs n in
  let sign := if (n <? 0)%Z then "-" else "" in
  if (a <? 10 ^ 15)%Z then sign ++ string_of_Z a ++ ".0"
  else
    let e := (Z.of_nat (String.length (string_of_Z a)) - 1)%Z in
    let m := ((a + 5 * 10 ^ (e - 15)) / 10 ^ (e - 14))%Z in
    let '(m, e) := if (m <? 10 ^ 15)%Z then (m, e) else ((m / 10)%Z, (e + 1)%Z) in
    match string_of_Z m with
    | String d ds =>
        let frac := strip_zeros ds in
        sign ++ String d ("." ++ (if String.eqb frac "" then "0" else frac))
             ++ "e+" ++ string_of_Z e
    | "" => ""
    end.

(** Column affinity.  A bound number is a real: a TEXT column stores it as
    the text of that real, an INTEGER or NUMERIC column as the integer it
    is.  An INTEGER or NUMERIC column stores a text that is an integer
    literal as that integer. *)
Definition apply_affinity (a : affinity) (v : sqlval) : sqlval :=
  match a, v with
  | TEXT, SInt n => SText (real_text n)
  | (INTEGER | NUMERIC), SText s =>
      match integer_literal s with Some n => SInt n | None => SText s end
  | _, _ => v
  end.

Definition bind_column (table : string) (params : list (string * json)) (c : column)
  : Outcome (string * sqlval) :=
  v ← bind_value (col_name c) (obj_get (col_name c) params);
  let v' := apply_affinity (col_affinity c) v in
  if col_notnull c && sqlval_eqb v' SNull then
    Throw (mkError "SQLITE_CONSTRAINT_NOTNULL"
             ("NOT NULL constraint failed: " ++ table ++ "." ++ col_name c))
  else Ret (col_name c, v').

Fixpoint bind_row (table : string) (params : list (string * json)) (schema : list column)
  : Outcome Row :=
  match schema with
  | [] => Ret []
  | c :: rest =>
      cell ← bind_column table params c;
      cells ← bind_row table params rest;
      Ret (cell :: cells)
  end.

(** Two rows conflict on the primary key when their ids are equal and not
    NULL. *)
Definition pk_conflict (new old : Row) : bool :=
  negb (sqlval_eqb (pk new) SNull) && sqlval_eqb (pk old) (pk new).

(** [INSERT OR REPLACE]: the conflicting row is deleted, the new row is
    appended. *)
Definition insert_or_replace (new : Row) (table : list Row) : list Row :=
  filter (λ old, negb (pk_conflict new old)) table ++ [new].

(** [stmt.run(params)] for [INSERT OR REPLACE INTO table (...) VALUES (...)]. *)
Definition run_insert (table : string) (schema : list column)
    (params : list (string * json)) (rows : list Row) : Outcome (list Row) :=
  row ← bind_row table params schema;
  Ret (insert_or_replace row rows).

(** [{ ...v }] *)
Definition indexed (items : list json) : list (string * json) :=
  imap (λ i x, (string_of_Z (Z.of_nat i), x)) items.

Fixpoint chars (s : string) : list json :=
  match s with
  | "" => []
  | String c rest => JStr (String c "") :: chars rest
  end.

Definition js_spread (v : json) : list (string * json) :=
  match v with
  | JObj fields => fields
  | JArr items => indexed items
  | JStr s => indexed (chars s)
  | _ => []
  end.

Definition null_property (k : string) : JsError :=
  Error ("Cannot read properties of null (reading '" ++ k ++ "')").

(** [x.created_at || new Date().toISOString()] *)
Definition created_at_or (t : string) (fields : list (string * json)) : json :=
  match obj_get "created_at" fields with
  | Some v => if truthy v then v else JStr t
  | None => JStr t
  end.

(** The parameter object of the hosts and snippets loops:
    [{ ...x, tags: JSON.stringify(x.tags), created_at: x.created_at || now }].
    [JSON.stringify(undefined)] is [undefined]: [@tags] is then bound to
    NULL.  Reading [x.tags] throws when [x] is [null]; the spread of any
    other value that is not an object has index keys only, so that [@id] is
    unbound and [stmt.run] throws. *)
Definition tagged_params (t : string) (x : json) : Outcome (list (string * json)) :=
  match x with
  | JNull => Throw (null_property "tags")
  | JObj fields =>
      let with_tags :=
        match obj_get "tags" fields with
        | Some tags => obj_set "tags" (JStr (JSON_stringify tags)) fields
        | None => obj_set "tags" JNull fields
        end in
      Ret (obj_set "created_at" (created_at_or t fields) with_tags)
  | _ => Throw missing_parameter
  end.

(** [{ ...rc, created_at: rc.created_at || now }] *)
Definition dated_params (t : string) (x : json) : Outcome (list (string * json)) :=
  match x with
  | JNull => Throw (null_property "created_at")
  | JObj fields => Ret (obj_set "created_at" (created_at_or t fields) fields)
  | _ => Throw missing_parameter
  end.

(** [for (const x of items) stmt.run(params x)] *)
Fixpoint insert_all (table : string) (schema : list column)
    (params : json → Outcome (list (string * json)))
    (items : list json) (rows : list Row) : Outcome (list Row) :=
  match items with
  | [] => Ret rows
  | x :: rest =>
      p ← params x;
      rows' ← run_insert table schema p rows;
      insert_all table schema params rest rows'
  end.

(** [data.k] when [data] is truthy. *)
Definition prop (data : json) (k : string) : option json :=
  match data with JObj fields => obj_get k fields | _ => None end.

Definition parse_or_throw (s : string) : Outcome json :=
  match JSON_parse s with
  | Some j => Ret j
  | None => Throw (mkError "" "Unexpected token in JSON")
  end.

Definition import_settings (incoming : json) (d : Database) : Outcome Database :=
  currentSettings ←
    match settings d !! "app_settings" with
    | Some value => parse_or_throw value
    | None => Ret (JObj [])
    end;
  gitConfig ←
    match currentSettings with
    | JNull => Throw (null_property "gitConfig")
    | _ => Ret (prop currentSettings "gitConfig")
    end;
  let newSettings := js_spread incoming in
  let newSettings :=
    match gitConfig with
    | Some g =>
        if truthy g && truthy_opt (prop g "token")
        then obj_set "gitConfig" g newSettings
        else newSettings
    | None => newSettings
    end in
  Ret (mkDatabase (hosts d) (snippets d)
         (<["app_settings" := JSON_stringify (JObj newSettings)]> (settings d))
         (remote_connections d)).

(** The function passed to [this.db.transaction]. *)
Definition importTx (t : string) (data : json) (d : Database) : Outcome Database :=
  hs ← match prop data "hosts" with
       | Some (JArr items) => insert_all "hosts" hosts_schema (tagged_params t) items (hosts d)
       | _ => Ret (hosts d)
       end;
  ss ← match prop data "snippets" with
       | Some (JArr items) =>
           insert_all "snippets" snippets_schema (tagged_params t) items (snippets d)
       | _ => Ret (snippets d)
       end;
  let d1 := mkDatabase hs ss (settings d) (remote_connections d) in
  d2 ← match prop data "settings" with
       | Some s => if truthy s then import_settings s d1 else Ret d1
       | None => Ret d1
       end;
  rcs ← match prop data "remoteConnections" with
        | Some (JArr items) =>
            insert_all "remote_connections" remote_connections_schema (dated_params t)
              items (remote_connections d2)
        | _ => Ret (remote_connections d2)
        end;
  Ret (mkDatabase (hosts d2) (snippets d2) (settings d2) rcs).

(** [importData]: the transaction commits the whole import or, when a
    statement throws, rolls back and rethrows.  A commit is recorded in the
    trace. *)
Definition importData (data : json) : M unit :=
  λ w, match db w with
       | None => (Ret tt, w)
       | Some d =>
           if negb (truthy data) then (Ret tt, w)
           else match importTx (now w) data d with
                | Ret d' => (Ret tt, emit (EImported data) (set_db (Some d') w))
                | Throw e => (Throw e, w)
                end
       end.

Definition json_of_sqlval (v : sqlval) : json :=
  match v with
  | SNull => JNull
  | SInt n => JNum n
  | SText s => JStr s
  end.

Definition json_of_row (r : Row) : list (string * json) :=
  map (λ cv, (cv.1, json_of_sqlval cv.2)) r.

(** [{ ...h, tags: JSON.parse(h.tags || '[]') }] *)
Definition export_tagged (r : Row) : Outcome json :=
  let text :=
    match row_get "tags" r with
    | SNull => "[]"
    | SInt n => if (n =? 0)%Z then "[]" else string_of_Z n
    | SText s => if String.eqb s "" then "[]" else s
    end in
  tags ← parse_or_throw text;
  Ret (JObj (obj_set "tags" tags (json_of_row r))).

Fixpoint export_rows (rows : list Row) : Outcome (list json) :=
  match rows with
  | [] => Ret []
  | r :: rest =>
      x ← export_tagged r;
      xs ← export_rows rest;
      Ret (x :: xs)
  end.

Definition exportData : M json :=
  λ w, match db w with
       | None => (Ret (JObj [("hosts", JArr []); ("settings", JNull); ("snippets", JArr [])]), w)
       | Some d =>
           (hs ← export_rows (hosts d);
            ss ← export_rows (snippets d);
            st ← match settings d !! "app_settings" with
                 | Some value => parse_or_throw value
                 | None => Ret JNull
                 end;
            Ret (JObj [("hosts", JArr hs); ("snippets", JArr ss); ("settings", st);
                       ("remoteConnections",
                        JArr (map (λ r, JObj (json_of_row r)) (remote_connections d)))]),
            w)
       end.

(** ** git-manager.ts *)

Definition log (msg : string) : M unit := modify (emit (ELog msg)).

Definition sync_dir_exists : M bool :=
  get (λ w, bool_decide (is_Some (sync_dir w))).

Definition dotGit_exists : M bool :=
  get (λ w, match sync_dir w with
            | Some d => bool_decide (is_Some (dotgit d))
            | None => false
            end).

(** [fs.rmSync(SYNC_DIR, { recursive: true, force: true })] *)
Definition rmSync_SYNC_DIR : M unit :=
  modify (λ w, emit EWiped (set_sync_dir None w)).

(** [fs.mkdirSync(SYNC_DIR, { recursive: true })] *)
Definition mkdirSync_SYNC_DIR : M unit :=
  modify (λ w, match sync_dir w with
               | Some _ => w
               | None => set_sync_dir (Some (mkSyncDir ∅ None)) w
               end).

Definition update_repo (f : Files → GitRepo → Files * GitRepo) : M unit :=
  modify (λ w, match sync_dir w with
               | Some (mkSyncDir wt (Some r)) =>
                   let '(wt', r') := f wt r in
                   set_sync_dir (Some (mkSyncDir wt' (Some r'))) w
               | _ => w
               end).

(** A call at site [op]: the reply of the library, or its exception. *)
Definition git_call (env : GitEnv) (op : GitOp) : M Reply :=
  modify (emit (EGit op));;
  match r_error (env op) with
  | Some e => throw e
  | None => ret (env op)
  end.

(** The [token] and the [username] a network call site passes to
    [getOnAuth]: values of the request or of the credentials cache; [None] is
    [undefined]. *)
Record Login := mkLogin { login_token : option json; login_username : option json }.

(** [this.getOnAuth(token, username)] up to the callback it returns: the
    trimmed token and the trimmed user name of its closure, or the exception
    of a [trim] that is not there.  The callback only tests whether the
    trimmed user name is truthy: it is [None] here when it is not. *)
Definition getOnAuth_closure (lg : Login) : Outcome (string * option string) :=
  match login_token lg with
  | Some (JStr token) =>
      match login_username lg with
      | None | Some JNull => Ret (trim token, None)
      | Some (JStr u) =>
          Ret (trim token, if String.eqb (trim u) "" then None else Some (trim u))
      | Some _ => Throw (TypeError "explicitUsername?.trim is not a function")
      end
  | None => Throw (TypeError "Cannot read properties of undefined (reading 'trim')")
  | Some JNull => Throw (TypeError "Cannot read properties of null (reading 'trim')")
  | Some _ => Throw (TypeError "token.trim is not a function")
  end.

(** The argument [onAuth: this.getOnAuth(token, username)] of a network
    call, evaluated before the call is made. *)
Definition onAuth (lg : Login) : M unit :=
  c ← lift (getOnAuth_closure lg);
  modify (emit (EOnAuth c.1 c.2)).

Definition fullBranchRef : string := "refs/heads/main".

Definition git_init (env : GitEnv) : M unit :=
  git_call env OpInit;;
  modify (λ w, match sync_dir w with
               | Some d =>
                   set_sync_dir
                     (Some (mkSyncDir (worktree d)
                              (Some (mkGitRepo ("ref: " ++ fullBranchRef) ∅ ∅ None)))) w
               | None => w
               end).

Definition write_HEAD (content : string) : M unit :=
  update_repo (λ wt r, (wt, mkGitRepo content (remotes r) (index r) (tip r))).

Definition AlreadyExistsError : JsError :=
  mkError "AlreadyExistsError" "Failed to create remote at origin because it already exists.".

Definition git_addRemote (env : GitEnv) (op : GitOp) (url : string) : M unit :=
  git_call env op;;
  present ← get (λ w, match sync_dir w with
                      | Some (mkSyncDir _ (Some r)) => bool_decide (is_Some (remotes r !! "origin"))
                      | _ => false
                      end);
  if (present : bool) then throw AlreadyExistsError
  else update_repo (λ wt r,
         (wt, mkGitRepo (HEAD r) (<["origin" := url]> (remotes r)) (index r) (tip r))).

Definition git_deleteRemote (env : GitEnv) : M unit :=
  git_call env OpDeleteRemote;;
  update_repo (λ wt r, (wt, mkGitRepo (HEAD r) (delete "origin" (remotes r)) (index r) (tip r))).

Definition git_listServerRefs (env : GitEnv) (lg : Login) : M (list string) :=
  onAuth lg;;
  r ← git_call env OpListServerRefs; ret (r_refs r).

(** A successful pull checks the fetched files out. *)
Definition git_pull (env : GitEnv) (lg : Login) : M unit :=
  onAuth lg;;
  r ← git_call env OpPull;
  update_repo (λ wt repo,
    (r_files r ∪ wt,
     mkGitRepo (HEAD repo) (remotes repo) (r_files r ∪ index repo)
       (Some (r_files r ∪ default ∅ (tip repo))))).

(** [git.add({ filepath: '.' })] stages every file of the work tree. *)
Definition git_add (env : GitEnv) : M unit :=
  git_call env OpAdd;;
  wt ← get (λ w, match sync_dir w with Some d => worktree d | None => ∅ end);
  modify (emit (EStaged wt));;
  update_repo (λ wt repo,
    (wt, mkGitRepo (HEAD repo) (remotes repo) (wt ∪ index repo) (tip repo))).

Definition git_resolveRef (env : GitEnv) : M string :=
  r ← git_call env OpResolveRef; ret (r_oid r).

(** A commit snapshots the index. *)
Definition git_commit (env : GitEnv) (op : GitOp) (msg : string) : M string :=
  r ← git_call env op;
  staged ← get (λ w, match sync_dir w with
                     | Some (mkSyncDir _ (Some repo)) => index repo
                     | _ => ∅
                     end);
  modify (emit (ECommitted msg staged));;
  update_repo (λ wt repo,
    (wt, mkGitRepo (HEAD repo) (remotes repo) (index repo) (Some (index repo))));;
  ret (r_oid r).

Definition git_writeRef (env : GitEnv) : M unit :=
  git_call env OpWriteRef;;
  write_HEAD ("ref: " ++ fullBranchRef).

(** A successful push leaves the tree of the pushed commit on the remote. *)
Definition git_push (env : GitEnv) (lg : Login) (force : bool) : M unit :=
  onAuth lg;;
  modify (emit (EPush force));;
  git_call env OpPush;;
  sent ← get (λ w, match sync_dir w with
                   | Some (mkSyncDir _ (Some repo)) => tip repo
                   | _ => None
                   end);
  modify (emit (EReceived sent)).

(** The corruption signature of the self-heal. *)
Definition corruption_signature (error : JsError) : bool :=
  String.eqb (code error) "NotFoundError"
  || includes (message error) "HEAD"
  || includes (message error) "resolve".

Definition self_heal_message : string :=
  "Self-Healing: Wiping sync cache and retrying once...".

Section GitManager.
Context `{Sodium}.

(** [git:clone] *)
Definition git_clone (env : GitEnv) (url token : string) (username : option string)
  : M (Result unit) :=
  try_catch
    (let safeUrl := trim url in
     present ← sync_dir_exists;
     (if (present : bool) then rmSync_SYNC_DIR else ret tt);;
     mkdirSync_SYNC_DIR;;
     onAuth (mkLogin (Some (JStr token)) (JStr <$> username));;
     r ← git_call env OpClone;
     modify (set_sync_dir
               (Some (mkSyncDir (r_files r)
                        (Some (mkGitRepo ("ref: " ++ fullBranchRef)
                                 {["origin" := safeUrl]} (r_files r) (Some (r_files r)))))));;
     writeFileSync CREDENTIALS_CACHE
       (JSON_stringify
          (JObj ([("url", JStr safeUrl); ("token", JStr token)]
                 ++ match username with Some u => [("username", JStr u)] | None => [] end)));;
     ret (Success tt))
    (λ e, ret (Failure (message e))).

(** 1. REPO INIT *)
Definition repo_init (env : GitEnv) : M unit :=
  has_git ← dotGit_exists;
  if negb has_git then
    log "Initializing fresh repository...";;
    present ← sync_dir_exists;
    (if (present : bool) then rmSync_SYNC_DIR else ret tt);;
    mkdirSync_SYNC_DIR;;
    git_init env;;
    write_HEAD ("ref: " ++ fullBranchRef ++ String (ascii_of_N 10) "")
  else ret tt.

(** 2. REMOTE CONFIG *)
Definition remote_config (env : GitEnv) (safeUrl : string) : M unit :=
  try_catch (git_addRemote env OpAddRemote safeUrl)
    (λ _, try_catch (git_deleteRemote env;; git_addRemote env OpReAddRemote safeUrl)
            (λ _, ret tt)).

(** 3. REMOTE CHECK: the value of [remoteHasData] *)
Definition remote_check (env : GitEnv) (lg : Login) : M bool :=
  try_catch
    (refs ← git_listServerRefs env lg;
     let remoteHasData := (0 <? length refs)%nat in
     log ("Remote status: " ++ (if remoteHasData then "Contains data" else "Empty"));;
     ret remoteHasData)
    (λ e, log ("Remote check failed: " ++ message e);; ret false).

(** 4. PULL *)
Definition pull_step (env : GitEnv) (lg : Login) (mode : string) (remoteHasData : bool)
  : M unit :=
  if remoteHasData && negb (String.eqb mode "push") then
    try_catch (log "Pulling latest changes...";; git_pull env lg)
      (λ e, log ("Pull encountered an issue: " ++ message e))
  else ret tt.

(** 5. DATA IMPORT *)
Definition data_import (mode : string) : M unit :=
  present ← existsSync ENC_DB_FILE;
  if present && negb (String.eqb mode "push") then
    try_catch
      (raw ← readFileSync ENC_DB_FILE;
       encData ← JSON_parse_M raw;
       decrypted ← decryptData encData;
       match decrypted with
       | Success data =>
           dbPart ← js_get data "db";
           vaultPart ← (if truthy_opt dbPart then js_get data "vault" else ret None);
           match dbPart, vaultPart with
           | Some d, Some v =>
               if truthy d && truthy v then
                 importData d;;
                 saveResult ← saveDirect v;
                 match saveResult with
                 | Failure e => log ("Vault import warning: " ++ e)
                 | Success _ => log "Vault data merged from sync."
                 end
               else importData data
           | _, _ => importData data
           end;;
           log "Data imported from sync file."
       | Failure _ => ret tt
       end)
      (λ e, log ("Import failed: " ++ message e))
  else ret tt.

(** 6. COMMIT & PUSH *)
Definition commit_and_push (env : GitEnv) (lg : Login) (mode commitMessage : string)
    (remoteHasData : bool) : M unit :=
  if String.eqb mode "push" || String.eqb mode "merge" then
    log ("Preparing " ++ mode ++ " operation...");;
    dbData ← exportData;
    vaultRes ← loadDirect;
    let vaultData := match vaultRes with Success d => d | Failure _ => JObj [] end in
    let combinedPayload := JObj [("db", dbData); ("vault", vaultData)] in
    encResult ← encryptData combinedPayload;
    match encResult with
    | Failure e => throw (Error e)
    | Success payload =>
        writeFileSync ENC_DB_FILE (JSON_stringify (json_of_envelope payload));;
        log "Git Add...";;
        git_add env;;
        log "Git Commit...";;
        headOid ← try_catch (git_resolveRef env) (λ _, ret "");
        t ← get now;
        try_catch
          (newCommitOid ← git_commit env OpCommit
             (if String.eqb commitMessage "" then "Sync Update: " ++ t else commitMessage);
           log ("Commit created: " ++ newCommitOid))
          (λ e, if String.eqb (code e) "NothingToCommitError" then
                  log "Nothing to commit.";;
                  if String.eqb headOid "" then
                    log "Repository is empty - forcing initial commit";;
                    git_commit env OpInitialCommit "Initialize Sync Branch";;
                    ret tt
                  else ret tt
                else throw e);;
        git_writeRef env;;
        log "Git Push...";;
        git_push env lg (String.eqb mode "push" || negb remoteHasData);;
        log "Push successful."
    end
  else ret tt.

(** The [try] block of [runSync]. *)
Definition runSyncBody (env : GitEnv) (lg : Login) (safeUrl mode commitMessage : string)
  : M unit :=
  repo_init env;;
  remote_config env safeUrl;;
  remoteHasData ← remote_check env lg;
  pull_step env lg mode remoteHasData;;
  data_import mode;;
  commit_and_push env lg mode commitMessage remoteHasData.

(** [runSync(retry)].  The recursion of the source is bounded here by
    [fuel]; [None] is returned when the fuel runs out.  [env retry] is the
    behaviour of the git library during the attempt made with this flag. *)
Fixpoint runSync (fuel : nat) (env : bool → GitEnv) (lg : Login)
    (safeUrl mode commitMessage : string) (retry : bool) : M (option (Result unit)) :=
  match fuel with
  | O => ret None
  | S fuel' =>
      try_catch
        (runSyncBody (env retry) lg safeUrl mode commitMessage;;
         ret (Some (Success tt)))
        (λ error,
           log ("CRITICAL: " ++ message error);;
           if retry && corruption_signature error then
             log self_heal_message;;
             present ← sync_dir_exists;
             (if (present : bool) then rmSync_SYNC_DIR else ret tt);;
             runSync fuel' env lg safeUrl mode commitMessage false
           else ret (Some (Failure (message error))))
  end.

(** [url || cache.url] and the like: an absent argument is the empty string. *)
Definition or_cached (arg : string) (cached : option json) : option json :=
  if String.eqb arg "" then cached else Some (JStr arg).

(** The [token], the [url] and the [username] of [git:sync] once the cache
    has been consulted. *)
Record SyncArgs := mkSyncArgs
  { sync_login : Login;
    sync_url : option json }.

(** The arguments of a request that needs no cache. *)
Definition given_args (token url username : string) : SyncArgs :=
  mkSyncArgs (mkLogin (Some (JStr token))
                (if String.eqb username "" then None else Some (JStr username)))
    (Some (JStr url)).

(** [git:sync].  [mode] and [commitMessage] are the strings of the request
    ([mode] defaults to ["merge"] at the caller). *)
Definition git_sync (fuel : nat) (env : bool → GitEnv)
    (token url username mode commitMessage : string) : M (option (Result unit)) :=
  args ← (if String.eqb url "" || String.eqb token ""
          then
            @try_catch (option SyncArgs)
              (raw ← readFileSync CREDENTIALS_CACHE;
               cache ← JSON_parse_M raw;
               t ← js_get cache "token";
               u ← js_get cache "url";
               n ← js_get cache "username";
               ret (Some (mkSyncArgs (mkLogin (or_cached token t) (or_cached username n))
                            (or_cached url u))))
              (λ _, ret None)
          else ret (Some (given_args token url username)));
  match args with
  | None => ret (Some (Failure "Missing Credentials"))
  | Some a =>
      safeUrl ← match sync_url a with
                | Some (JStr s) => ret (trim s)
                | _ => throw (Error "Cannot read properties of undefined (reading 'trim')")
                end;
      locked ← status;
      if (locked : bool) then ret (Some (Failure "Vault is LOCKED"))
      else runSync fuel env (sync_login a) safeUrl mode commitMessage true
  end.

End GitManager.

(** ** Running a handler *)

Definition run {A} (m : M A) (w : World) : Outcome A := (m w).1.
Definition exec {A} (m : M A) (w : World) : World := (m w).2.

(** The events a handler appended to the trace. *)
Definition new_events (w w' : World) : list Event := drop (length (trace w)) (trace w').

Definition is_self_heal (e : Event) : bool :=
  match e with
  | ELog msg => String.eqb msg self_heal_message
  | _ => false
  end.

Definition hosts_of (w : World) : list Row :=
  match db w with Some d => hosts d | None => [] end.

Definition snippets_of (w : World) : list Row :=
  match db w with Some d => snippets d | None => [] end.

(** The ids the rows of an imported array are stored under: the bound [id]
    with the TEXT affinity of the column. *)
Definition payload_id (x : json) : option sqlval :=
  match x with
  | JObj fields =>
      match bind_value "id" (obj_get "id" fields) with
      | Ret v => Some (apply_affinity TEXT v)
      | Throw _ => None
      end
  | _ => None
  end.

Definition payload_ids (data : json) (table : string) : list sqlval :=
  match prop data table with
  | Some (JArr items) => omap payload_id items
  | _ => []
  end.

Definition is_push (e : Event) : bool :=
  match e with EPush _ => true | _ => false end.

Definition is_imported (e : Event) : bool :=
  match e with EImported _ => true | _ => false end.

Definition pks (rows : list Row) : list sqlval := map pk rows.

(** The trees the remote received. *)
Definition received (w : World) : list Files :=
  omap (λ e, match e with EReceived (Some t) => Some t | _ => None end) (trace w).

(** What an import keeps of a table: every row stays unless a committed
    import carried its id, no id is lost, and the ids of every committed
    import are present. *)
Definition kept (evs : list Event) (table : string) (rows rows' : list Row) : Prop :=
  (∀ row, row ∈ rows →
     row ∈ rows' ∨ ∃ data, EImported data ∈ evs ∧ pk row ∈ payload_ids data table) ∧
  (∀ v, v ∈ pks rows → v ∈ pks rows') ∧
  (∀ data v, EImported data ∈ evs → v ∈ payload_ids data table → v ∈ pks rows').

Definition merge_rel (w w' : World) : Prop :=
  ∃ evs, trace w' = (trace w ++ evs)%list ∧
    kept evs "hosts" (hosts_of w) (hosts_of w') ∧
    kept evs "snippets" (snippets_of w) (snippets_of w').

(** [w'] extends the trace of [w] by events that satisfy [P]. *)
Definition emits (P : Event → Prop) (w w' : World) : Prop :=
  ∃ evs, trace w' = (trace w ++ evs)%list ∧ Forall P evs.

(** ** A reference instance of the libsodium interface

    Used to run the handlers on concrete worlds: the key is the first
    sixteen bytes of the password followed by the salt (each padded with
    zeros), a box is the message behind a header that spells the key out,
    and opening a box checks the header. *)

Fixpoint strip_bytes (p c : bytes) : option bytes :=
  match p with
  | [] => Some c
  | x :: p' =>
      match c with
      | [] => None
      | y :: c' => if Byte.eqb x y then strip_bytes p' c' else None
      end
  end.

Definition box_header (key : bytes) : bytes :=
  (repeat "001"%byte (length key) ++ "000"%byte :: key)%list.

Definition ref_key (password : string) (salt : bytes) : bytes :=
  (take 16 (from_string password ++ repeat "000"%byte 16)
   ++ take 16 (salt ++ repeat "000"%byte 16))%list.

Definition ref_pwhash (password : string) (salt : bytes) : Outcome bytes :=
  Ret (ref_key password salt).

Definition ref_secretbox_easy (message nonce key : bytes) : Outcome bytes :=
  Ret (box_header key ++ message)%list.

Definition ref_secretbox_open_easy (c nonce key : bytes) : Outcome (option bytes) :=
  match strip_bytes (box_header key) c with
  | Some m => Ret (Some m)
  | None => Throw (Error "wrong secret key for the given ciphertext")
  end.

Definition ref_sodium : Sodium.
Proof.
  refine (mkSodium ref_pwhash ref_secretbox_easy ref_secretbox_open_easy _).
  intros password salt key [= <-]. unfold ref_key.
  rewrite length_app, !length_take, !length_app, !repeat_length. unfold KEYBYTES. lia.
Defined.

(** ** A reference runtime

    The members ECMAScript 5.1 gives the prototypes of the wrappers, beyond
    those of [Object.prototype]. *)
Definition ref_runtime : Runtime :=
  mkRuntime (λ x k,
    bool_decide (k ∈
      match x with
      | WArray =>
          [ "concat"; "every"; "filter"; "forEach"; "indexOf"; "join"; "lastIndexOf";
            "map"; "pop"; "push"; "reduce"; "reduceRight"; "reverse"; "shift"; "slice";
            "some"; "sort"; "splice"; "unshift" ]
      | WString =>
          [ "charAt"; "charCodeAt"; "concat"; "indexOf"; "lastIndexOf"; "localeCompare";
            "match"; "replace"; "search"; "slice"; "split"; "substring"; "toLowerCase";
            "toLocaleLowerCase"; "toUpperCase"; "toLocaleUpperCase"; "trim" ]
      | WNumber => [ "toFixed"; "toExponential"; "toPrecision" ]
      | WBoolean => []
      end)).

(** ** Sample worlds and replies *)

Definition empty_db : Database := mkDatabase [] [] ∅ [].

Definition world0 : World :=
  mkWorld None None None (Some empty_db) None (λ _, false) (λ _, None)
    (λ i, default "000"%byte (Byte.of_N (N.of_nat i mod 256))) 0
    "2024-01-01T00:00:00.000Z" [].

Definition ok_reply : Reply := mkReply None [] ∅ "".
Definition all_ok : GitEnv := λ _, ok_reply.

Definition set_unwritable (f : Path → bool) (w : World) : World :=
  mkWorld (masterKey w) (vault_file w) (meta_file w) (db w) (sync_dir w) f
          (torn w) (entropy w) (cursor w) (now w) (trace w).

(** The writes that fail do so after the file was opened, with [n] bytes
    written. *)
Definition set_torn (n : nat) (w : World) : World :=
  mkWorld (masterKey w) (vault_file w) (meta_file w) (db w) (sync_dir w) (unwritable w)
          (λ _, Some n) (entropy w) (cursor w) (now w) (trace w).

Definition path_eqb (p q : Path) : bool :=
  match p, q with
  | VAULT_PATH, VAULT_PATH => true
  | METADATA_PATH, METADATA_PATH => true
  | SYNC_FILE a, SYNC_FILE b => String.eqb a b
  | _, _ => false
  end.

(** What opening a box contributes to [decryptData] and [decryptVault]: the
    parsed plaintext, or the exception the [catch] turns into a failure. *)
Definition opened (o : Outcome (option bytes)) (null_message : string)
  : Outcome (Result json) :=
  match o with
  | Ret (Some d) =>
      match JSON_parse (to_string d) with
      | Some v => Ret (Success v)
      | None => Throw (mkError "" "Unexpected token in JSON")
      end
  | Ret None => Throw (Error null_message)
  | Throw e => Throw e
  end.

(** The nonce the next encryption draws. *)
Definition next_nonce (w : World) : bytes :=
  map (entropy w) (seq (cursor w) NONCE_BYTES).

(** Two-state invariants: whatever [m] does to the world stays within [R]. *)
Definition steps {A} (R : relation World) (m : M A) : Prop :=
  ∀ w, R w (exec m w).

(** [m] returns; it never throws. *)
Definition total {A} (m : M A) : Prop := ∀ w, ∃ a, run m w = Ret a.

(** What [getSalt] and a failed [vault:init] may change: the metadata file
    and the position in the random stream. *)
Definition salt_frame (w w' : World) : Prop :=
  masterKey w' = masterKey w ∧ vault_file w' = vault_file w ∧ db w' = db w ∧
  sync_dir w' = sync_dir w ∧ trace w' = trace w.

(** A vault saved under the password "right", then locked. *)
Definition sample_document : json :=
  JObj [("hosts", JObj [("hostA", JObj [("username", JStr "root"); ("password", JStr "x")])])].

Definition world_unlocked : World := exec (@vault_init ref_sodium "right") world0.
Definition world_saved : World := exec (@vault_save ref_sodium sample_document) world_unlocked.
Definition world_locked : World := exec vault_lock world_saved.

Definition sample_salt : bytes := map (entropy world0) (seq 0 SALT_BYTES).
Definition right_key : bytes := ref_key "right" sample_salt.
Definition wrong_key : bytes := ref_key "wrong" sample_salt.
Definition sample_nonce : bytes := next_nonce world_unlocked.
Definition sample_box : bytes :=
  (box_header right_key ++ from_string (JSON_stringify sample_document))%list.

(** The saved vault with the key of the password "wrong" in memory. *)
Definition world_wrong_key : World := set_masterKey (Some wrong_key) world_locked.


(** What the [catch] of [runSync] does before it retries: it logs the
    failure, announces the self-heal and wipes the sync directory. *)
Definition self_heal (error : JsError) : M unit :=
  log ("CRITICAL: " ++ message error);;
  log self_heal_message;;
  present ← sync_dir_exists;
  if (present : bool) then rmSync_SYNC_DIR else ret tt.

(** The number of self-heal cycles a handler went through. *)
Definition self_heals (w w' : World) : nat :=
  length (filter (λ e, is_self_heal e = true) (new_events w w')).

Definition quiet (e : Event) : Prop := is_self_heal e = false.

(** No pull, and no push without [force]. *)
Definition forced (e : Event) : Prop :=
  e ≠ EGit OpPull ∧ e ≠ EPush false.

(** [m], when it returns, has taken the world through [Q]. *)
Definition ensures {A} (Q : relation World) (m : M A) : Prop :=
  ∀ w a w', m w = (Ret a, w') → Q w w'.

(** A forced push was called between [w] and [w']. *)
Definition pushed (w w' : World) : Prop :=
  ∃ evs, trace w' = (trace w ++ evs)%list ∧ EPush true ∈ evs.

Definition any_event (e : Event) : Prop := True.

(** ** Sample machines for the sync *)

Definition host_row (id name : string) : Row :=
  [("id", SText id); ("name", SText name); ("host", SText "10.0.0.1");
   ("port", SInt 22); ("username", SText "root"); ("folder", SNull);
   ("tags", SText "[]"); ("created_at", SText "2024-01-01 00:00:00")].

Definition sample_url : string := "https://git.example.com/me/vault.git".

(** The remote answers every call; it has no ref yet. *)
Definition env_empty_remote : GitEnv := all_ok.

(** The remote answers every call and has a branch. *)
Definition env_remote_has_data : GitEnv :=
  λ _, mkReply None ["refs/heads/main"] ∅ "0a1b2c3".

(** Listing the refs of the remote fails; every other call succeeds. *)
Definition probe_error : JsError := mkError "HttpError" "HTTP Error: 401 Unauthorized".
Definition env_probe_fails : GitEnv :=
  λ op, match op with
        | OpListServerRefs => mkReply (Some probe_error) [] ∅ ""
        | _ => ok_reply
        end.

(** The commit cannot resolve HEAD, in the first attempt and in the retry. *)
Definition head_error : JsError :=
  mkError "NotFoundError" "Could not find HEAD.".
Definition env_corrupt : GitEnv :=
  λ op, match op with
        | OpCommit => mkReply (Some head_error) [] ∅ ""
        | _ => ok_reply
        end.

(** Machine A: the sample vault, unlocked, and one host in the record store. *)
Definition machine_a : World :=
  set_db (Some (mkDatabase [host_row "remote-1" "build server"] [] ∅ [])) world_saved.

(** Machine A after [git:sync] in push mode against an empty remote. *)
Definition machine_a_pushed : World :=
  exec (@git_sync ref_sodium 2 (λ _, env_empty_remote) "tok123" sample_url "alice"
          "push" "") machine_a.

(** Machine B: the same master key, its own host, no vault file yet, and the
    sync directory as machine A pushed it. *)
Definition machine_b : World :=
  set_vault_file None
    (set_db (Some (mkDatabase [host_row "local-1" "laptop"] [] ∅ [])) machine_a_pushed).

(** Machine B with a vault file that cannot be written. *)
Definition machine_b_readonly : World :=
  set_unwritable (path_eqb VAULT_PATH) machine_b.

(** The payload machine B finds in its sync directory. *)
Definition incoming_raw : string :=
  default "" (match sync_dir machine_b with
              | Some d => worktree d !! "zenmius_db.enc"
              | None => None
              end).
Definition incoming_envelope : json := default JNull (JSON_parse incoming_raw).
Definition incoming_fields : list (string * json) :=
  match run (@decryptData ref_sodium incoming_envelope) machine_b with
  | Ret (Success (JObj fields)) => fields
  | _ => []
  end.
Definition incoming_db : json := default JNull (obj_get "db" incoming_fields).
Definition incoming_vault : json := default JNull (obj_get "vault" incoming_fields).

(** The sample vault after [git:clone]. *)
Definition machine_cloned : World :=
  exec (git_clone env_remote_has_data sample_url "tok123" (Some "alice")) world_saved.

Definition credentials_json : string :=
  JSON_stringify
    (JObj [("url", JStr sample_url); ("token", JStr "tok123"); ("username", JStr "alice")]).

(** The sample vault with a metadata file, or a vault file, that cannot be
    written. *)
Definition world_metadata_readonly : World :=
  set_unwritable (path_eqb METADATA_PATH) world_saved.
Definition world_vault_readonly : World :=
  set_unwritable (path_eqb VAULT_PATH) world_saved.

(** The same vault on a disk that fills up ten bytes into a write. *)
Definition world_vault_torn : World := set_torn 10 world_vault_readonly.

Definition incoming_dir : SyncDir := default (mkSyncDir ∅ None) (sync_dir machine_b).
Definition machine_b_db : Database := default empty_db (db machine_b).

(** Machine A against a repository whose HEAD cannot be resolved: the
    world after the first attempt, and after the retry. *)
Definition sample_login : Login := mkLogin (Some (JStr "tok123")) (Some (JStr "alice")).

Definition corrupt_attempt1 : World :=
  exec (@runSyncBody ref_sodium env_corrupt sample_login sample_url "merge" "") machine_a.
Definition corrupt_attempt2 : World :=
  exec (@runSyncBody ref_sodium env_corrupt sample_login sample_url "merge" "")
    (exec (self_heal head_error) corrupt_attempt1).

(** A parameter builder keeps the [id] of the item it is given. *)
Definition keeps_id (params : json → Outcome (list (string * json))) : Prop :=
  ∀ x p, params x = Ret p →
    ∃ fields, x = JObj fields ∧ obj_get "id" p = obj_get "id" fields.

(** What one committed import keeps of a table. *)
Definition table_kept (table : string) (data : json) (rows rows' : list Row) : Prop :=
  (∀ row, row ∈ rows → pk row ∉ payload_ids data table → row ∈ rows') ∧
  (∀ v, v ∈ pks rows → v ∈ pks rows') ∧
  (∀ v, v ∈ payload_ids data table → v ∈ pks rows').

#[global] Instance sqlval_eq_dec : EqDecision sqlval.
Proof. solve_decision. Defined.

(** ** db-manager.ts: the handlers of the record store

    The handlers that run one statement: the statement is prepared outside
    the [try] (a missing database makes the handler throw), run inside it,
    and an exception of the run is returned as [{ success: false, error }].
    The [SELECT ... ORDER BY] handlers are not modelled. *)

Definition no_database : JsError :=
  Error "Cannot read properties of null (reading 'prepare')".

Definition set_hosts (rows : list Row) (d : Database) : Database :=
  mkDatabase rows (snippets d) (settings d) (remote_connections d).
Definition set_snippets (rows : list Row) (d : Database) : Database :=
  mkDatabase (hosts d) rows (settings d) (remote_connections d).
Definition set_settings (s : gmap string string) (d : Database) : Database :=
  mkDatabase (hosts d) (snippets d) s (remote_connections d).
Definition set_remote_connections (rows : list Row) (d : Database) : Database :=
  mkDatabase (hosts d) (snippets d) (settings d) rows.

(** [const stmt = this.db!.prepare(...); try { stmt.run(...); return
    { success: true } } catch (e) { return { success: false, error:
    e.message } }] *)
Definition db_handler (stmt : Database → Outcome Database) : M (Result unit) :=
  λ w, match db w with
       | None => (Throw no_database, w)
       | Some d =>
           match stmt d with
           | Ret d' => (Ret (Success tt), set_db (Some d') w)
           | Throw e => (Ret (Failure (message e)), w)
           end
       end.

(** SQLite's [CURRENT_TIMESTAMP], read off the clock [new Date()] reads:
    the date and the time of day of the ISO text, in UTC. *)
Definition CURRENT_TIMESTAMP (iso : string) : string :=
  substring 0 10 iso ++ " " ++ substring 11 8 iso.

(** [x.tags || []] *)
Definition tags_or_empty (x : json) : Outcome json :=
  match x with
  | JNull => Throw (null_property "tags")
  | _ =>
      Ret match prop x "tags" with
          | Some t => if truthy t then t else JArr []
          | None => JArr []
          end
  end.

(** [{ ...x, tags: JSON.stringify(x.tags || []) }] *)
Definition with_tags (x : json) : Outcome (list (string * json)) :=
  tags ← tags_or_empty x;
  Ret (obj_set "tags" (JStr (JSON_stringify tags)) (js_spread x)).

Definition unique_violation (table : string) : JsError :=
  mkError "SQLITE_CONSTRAINT_PRIMARYKEY" ("UNIQUE constraint failed: " ++ table ++ ".id").

(** [INSERT INTO table (...) VALUES (...)]: a row whose id is taken is
    refused. *)
Definition insert_row (table : string) (row : Row) (rows : list Row)
  : Outcome (list Row) :=
  if existsb (pk_conflict row) rows then Throw (unique_violation table)
  else Ret (rows ++ [row])%list.

(** The columns [db:add-host] names: [created_at] takes its default. *)
Definition hosts_insert_columns : list column :=
  [ mkColumn "id" TEXT false; mkColumn "name" TEXT true; mkColumn "host" TEXT true;
    mkColumn "port" INTEGER true; mkColumn "username" TEXT true;
    mkColumn "folder" TEXT false; mkColumn "tags" TEXT false ].

(** [db:add-host] *)
Definition add_host_stmt (t : string) (host : json) (d : Database) : Outcome Database :=
  params ← with_tags host;
  cells ← bind_row "hosts" params hosts_insert_columns;
  rows ← insert_row "hosts"
            (cells ++ [("created_at", SText (CURRENT_TIMESTAMP t))])%list (hosts d);
  Ret (set_hosts rows d).

Definition db_add_host (host : json) : M (Result unit) :=
  λ w, db_handler (add_host_stmt (now w) host) w.

(** [DELETE FROM table WHERE id = ?], run with the id the renderer passes, a
    string. *)
Definition delete_by_id (id : string) (rows : list Row) : list Row :=
  filter (λ r, negb (sqlval_eqb (pk r) (SText id))) rows.

(** [db:remove-host] *)
Definition db_remove_host (id : string) : M (Result unit) :=
  db_handler (λ d, Ret (set_hosts (delete_by_id id (hosts d)) d)).

(** [db:delete-snippet] *)
Definition db_delete_snippet (id : string) : M (Result unit) :=
  db_handler (λ d, Ret (set_snippets (delete_by_id id (snippets d)) d)).

(** [db:delete-remote-connection] *)
Definition db_delete_remote_connection (id : string) : M (Result unit) :=
  db_handler (λ d, Ret (set_remote_connections (delete_by_id id (remote_connections d)) d)).

(** Binds the named parameters of a statement, in the order they occur. *)
Fixpoint bind_all (params : list (string * json)) (names : list string) : Outcome Row :=
  match names with
  | [] => Ret []
  | n :: rest =>
      v ← bind_value n (obj_get n params);
      vs ← bind_all params rest;
      Ret ((n, v) :: vs)
  end.

(** [r] with the value of column [c] replaced. *)
Fixpoint row_set (c : string) (v : sqlval) (r : Row) : Row :=
  match r with
  | [] => []
  | (c', v') :: rest =>
      if String.eqb c c' then (c, v) :: rest else (c', v') :: row_set c v rest
  end.

(** [SET c = @c] on one row. *)
Definition set_column (table : string) (bound : Row) (c : column) (r : Row)
  : Outcome Row :=
  let v := apply_affinity (col_affinity c) (row_get (col_name c) bound) in
  if col_notnull c && sqlval_eqb v SNull then
    Throw (mkError "SQLITE_CONSTRAINT_NOTNULL"
             ("NOT NULL constraint failed: " ++ table ++ "." ++ col_name c))
  else Ret (row_set (col_name c) v r).

Fixpoint set_columns (table : string) (bound : Row) (cols : list column) (r : Row)
  : Outcome Row :=
  match cols with
  | [] => Ret r
  | c :: rest => r' ← set_column table bound c r; set_columns table bound rest r'
  end.

(** [UPDATE ... WHERE id = @id]: the rows whose id is the bound one are
    rewritten; a constraint that fails on one of them aborts the statement. *)
Fixpoint update_where (idv : sqlval) (upd : Row → Outcome Row) (rows : list Row)
  : Outcome (list Row) :=
  match rows with
  | [] => Ret []
  | r :: rest =>
      r' ← (if negb (sqlval_eqb idv SNull) && sqlval_eqb (pk r) idv then upd r else Ret r);
      rest' ← update_where idv upd rest;
      Ret (r' :: rest')
  end.

Definition hosts_update_columns : list column :=
  [ mkColumn "name" TEXT true; mkColumn "host" TEXT true; mkColumn "port" INTEGER true;
    mkColumn "username" TEXT true; mkColumn "folder" TEXT false;
    mkColumn "tags" TEXT false ].

(** [db:update-host] *)
Definition update_host_stmt (host : json) (d : Database) : Outcome Database :=
  params ← with_tags host;
  bound ← bind_all params ["name"; "host"; "port"; "username"; "folder"; "tags"; "id"];
  rows ← update_where (apply_affinity TEXT (row_get "id" bound))
            (set_columns "hosts" bound hosts_update_columns) (hosts d);
  Ret (set_hosts rows d).

Definition db_update_host (host : json) : M (Result unit) :=
  db_handler (update_host_stmt host).

(** [(SELECT created_at FROM table WHERE id = @id)]: the value of the first
    row with this id, [NULL] when there is none. *)
Definition created_at_of (idv : sqlval) (rows : list Row) : sqlval :=
  match find (λ r, negb (sqlval_eqb idv SNull) && sqlval_eqb (pk r) idv) rows with
  | Some r => row_get "created_at" r
  | None => SNull
  end.

(** [INSERT OR REPLACE INTO table (..., created_at) VALUES (...,
    COALESCE((SELECT created_at FROM table WHERE id = @id), @created_at))]:
    [cols] are the columns before [created_at]. *)
Definition save_row (table : string) (cols : list column) (t : string)
    (params : list (string * json)) (rows : list Row) : Outcome (list Row) :=
  cells ← bind_row table params cols;
  let created :=
    match created_at_of (pk cells) rows with
    | SNull => apply_affinity NUMERIC (SText t)
    | v => v
    end in
  Ret (insert_or_replace (cells ++ [("created_at", created)])%list rows).

Definition snippets_insert_columns : list column :=
  [ mkColumn "id" TEXT false; mkColumn "name" TEXT true; mkColumn "command" TEXT true;
    mkColumn "tags" TEXT false ].

(** [db:save-snippet] *)
Definition save_snippet_stmt (t : string) (snippet : json) (d : Database)
  : Outcome Database :=
  params ← with_tags snippet;
  rows ← save_row "snippets" snippets_insert_columns t
            (obj_set "created_at" (JStr t) params) (snippets d);
  Ret (set_snippets rows d).

Definition db_save_snippet (snippet : json) : M (Result unit) :=
  λ w, db_handler (save_snippet_stmt (now w) snippet) w.

Definition remote_connections_insert_columns : list column :=
  [ mkColumn "id" TEXT false; mkColumn "name" TEXT true; mkColumn "protocol" TEXT true;
    mkColumn "host" TEXT true; mkColumn "port" INTEGER true;
    mkColumn "username" TEXT false; mkColumn "password" TEXT false;
    mkColumn "resolution" TEXT false ].

(** [x.k || fallback] *)
Definition prop_or (x : json) (k : string) (fallback : json) : Outcome json :=
  match x with
  | JNull => Throw (null_property k)
  | _ =>
      Ret match prop x k with
          | Some v => if truthy v then v else fallback
          | None => fallback
          end
  end.

(** [db:save-remote-connection] *)
Definition save_remote_connection_stmt (t : string) (conn : json) (d : Database)
  : Outcome Database :=
  password ← prop_or conn "password" (JStr "");
  resolution ← prop_or conn "resolution" (JStr "smart");
  let params :=
    obj_set "created_at" (JStr t)
      (obj_set "resolution" resolution (obj_set "password" password (js_spread conn))) in
  rows ← save_row "remote_connections" remote_connections_insert_columns t params
            (remote_connections d);
  Ret (set_remote_connections rows d).

Definition db_save_remote_connection (conn : json) : M (Result unit) :=
  λ w, db_handler (save_remote_connection_stmt (now w) conn) w.

(** [db:get-settings] *)
Definition db_get_settings : M json :=
  λ w, match db w with
       | None => (Throw no_database, w)
       | Some d =>
           match settings d !! "app_settings" with
           | Some value => (parse_or_throw value, w)
           | None => (Ret JNull, w)
           end
       end.

(** [db:update-settings] *)
Definition db_update_settings (s : json) : M (Result unit) :=
  db_handler (λ d, Ret (set_settings (<["app_settings" := JSON_stringify s]> (settings d)) d)).

(** The snippets [seedDefaultSnippets] inserts into an empty table. *)
Definition default_snippets : list json :=
  [ JObj [("id", JStr "1"); ("name", JStr "Update & Clean");
          ("command", JStr "sudo apt update && sudo apt upgrade -y && sudo apt autoremove");
          ("tags", JArr [JStr "ubuntu"; JStr "ops"])];
    JObj [("id", JStr "2"); ("name", JStr "Docker Cleanup");
          ("command", JStr "docker system prune -a --volumes -f");
          ("tags", JArr [JStr "docker"; JStr "dev"])];
    JObj [("id", JStr "3"); ("name", JStr "K8s Logs Tail");
          ("command", JStr "kubectl logs -f -l app=$APP --all-containers");
          ("tags", JArr [JStr "k8s"; JStr "logs"])];
    JObj [("id", JStr "4"); ("name", JStr "Nginx Restart");
          ("command", JStr "sudo systemctl restart nginx && sudo nginx -t");
          ("tags", JArr [JStr "nginx"; JStr "web"])];
    JObj [("id", JStr "5"); ("name", JStr "Disk Usage");
          ("command", JStr "du -sh * | sort -hr | head -n 10");
          ("tags", JArr [JStr "sys"; JStr "debug"])] ].

(** [{ ...s, tags: JSON.stringify(s.tags), created_at: now }]; a snippet
    without tags binds [@tags] to NULL. *)
Definition seed_params (t : string) (s : json) : list (string * json) :=
  let fields := js_spread s in
  obj_set "created_at" (JStr t)
    match prop s "tags" with
    | Some tags => obj_set "tags" (JStr (JSON_stringify tags)) fields
    | None => obj_set "tags" JNull fields
    end.

(** [stmt.run(...)] of the seeding loop: a plain [INSERT], outside any
    transaction; [t] is the time read before the loop. *)
Definition seed_snippet (t : string) (s : json) : M unit :=
  λ w, match db w with
       | None => (Throw no_database, w)
       | Some d =>
           match
             (row ← bind_row "snippets" (seed_params t s) snippets_schema;
              insert_row "snippets" row (snippets d))
           with
           | Ret rows => (Ret tt, set_db (Some (set_snippets rows d)) w)
           | Throw e => (Throw e, w)
           end
       end.

Fixpoint seed_all (t : string) (defaults : list json) : M unit :=
  match defaults with
  | [] => ret tt
  | s :: rest => seed_snippet t s;; seed_all t rest
  end.

(** [seedDefaultSnippets] *)
Definition seedDefaultSnippets : M unit :=
  d ← get db;
  match d with
  | None => ret tt
  | Some d =>
      if (length (snippets d) =? 0)%nat
      then t ← get now; seed_all t default_snippets
      else ret tt
  end.

(** ** git-manager.ts: the credentials offered to the remote *)

Definition lower (c : ascii) : ascii :=
  let n := N_of_ascii c in
  if ((65 <=? n) && (n <=? 90))%N then ascii_of_N (n + 32) else c.

Fixpoint toLowerCase (s : string) : string :=
  match s with
  | "" => ""
  | String c rest => String (lower c) (toLowerCase rest)
  end.

Record Credentials := mkCredentials { auth_username : string; auth_password : string }.

(** The callback [getOnAuth(token, explicitUsername)] returns, with the
    counter [attempts] of its closure passed in and out: the credentials of
    this call and the counter after it. *)
Definition getOnAuth (token : string) (explicitUsername : option string)
    (attempts : nat) (url : string) : Credentials * nat :=
  let trimmedToken := trim token in
  let trimmedUser := trim <$> explicitUsername in
  let attempts := S attempts in
  let isGitLab := includes (toLowerCase url) "gitlab" in
  let hasUser :=
    match trimmedUser with
    | Some u => negb (String.eqb u "")
    | None => false
    end in
  (if hasUser && (attempts =? 1)%nat then mkCredentials (default "" trimmedUser) trimmedToken
   else if isGitLab then
     if (attempts =? 1)%nat || hasUser && (attempts =? 2)%nat
     then mkCredentials "oauth2" trimmedToken
     else if (attempts =? 2)%nat || hasUser && (attempts =? 3)%nat
     then mkCredentials "gitlab-token" trimmedToken
     else mkCredentials "git" trimmedToken
   else
     if (attempts =? 1)%nat || hasUser && (attempts =? 2)%nat
     then mkCredentials trimmedToken ""
     else mkCredentials "token" trimmedToken,
   attempts).

(** The credentials of the first [n] calls of one callback for [url]. *)
Fixpoint offers (token : string) (explicitUsername : option string) (url : string)
    (attempts n : nat) : list Credentials :=
  match n with
  | O => []
  | S n' =>
      let '(c, attempts') := getOnAuth token explicitUsername attempts url in
      c :: offers token explicitUsername url attempts' n'
  end.

(** [git:check-status]: [isEmpty] or the failure. *)
Definition git_check_status (env : GitEnv) (url token username : string)
  : M (Result bool) :=
  try_catch
    (let safeUrl := trim url in
     refs ← git_listServerRefs env
              (mkLogin (Some (JStr token))
                 (if String.eqb username "" then None else Some (JStr username)));
     ret (Success (length refs =? 0)%nat))
    (λ e, ret (Failure (message e))).

(** The callbacks handed to the network calls of a trace. *)
Definition callbacks (evs : list Event) : list (string * option string) :=
  omap (λ e, match e with EOnAuth t u => Some (t, u) | _ => None end) evs.

(** ** What a sync leaves alone *)

(** The key in memory, the vault file, the metadata file and the record
    store are as they were. *)
Definition local_frame (w w' : World) : Prop :=
  masterKey w' = masterKey w ∧ vault_file w' = vault_file w ∧
  meta_file w' = meta_file w ∧ db w' = db w.

(** Nothing is staged, committed or pushed. *)
Definition unpublished (e : Event) : Prop :=
  match e with
  | EStaged _ | ECommitted _ _ | EPush _ | EReceived _
  | EGit OpAdd | EGit OpCommit | EGit OpInitialCommit | EGit OpPush => False
  | _ => True
  end.

(** Nothing is pulled, nothing is imported, and no push goes without
    [force]. *)
Definition one_way (e : Event) : Prop :=
  match e with
  | EGit OpPull | EPush false | EImported _ => False
  | _ => True
  end.

(** No push is forced. *)
Definition unforced (e : Event) : Prop := e ≠ EPush true.

(** ** Sample records *)

Definition sample_host (id : string) : list (string * json) :=
  [("id", JStr id); ("name", JStr "web"); ("host", JStr "10.0.0.2"); ("port", JNum 22);
   ("username", JStr "root"); ("folder", JNull); ("tags", JArr [JStr "prod"])].

(** A host of an imported payload with a number as its id and no tags. *)
Definition untagged_host : list (string * json) :=
  [("id", JNum 7); ("name", JStr "web"); ("host", JStr "10.0.0.2"); ("port", JNum 22);
   ("username", JStr "root"); ("folder", JNull)].

Definition sample_snippet (id : string) : list (string * json) :=
  [("id", JStr id); ("name", JStr "List"); ("command", JStr "ls -la");
   ("tags", JArr [JStr "sys"])].

Definition snippet_row (id created : string) : Row :=
  [("id", SText id); ("name", SText "Old"); ("command", SText "ls");
   ("tags", SText "[]"); ("created_at", SText created)].

(** A record store with one snippet, created in 2023. *)
Definition world_snippet : World :=
  set_db (Some (mkDatabase [] [snippet_row "s1" "2023-05-05T00:00:00.000Z"] ∅ [])) world0.

(** Local settings with a git token, and a payload that brings settings of
    another machine. *)
Definition local_git_config : json := JObj [("token", JStr "mine")].
Definition db_with_token : Database :=
  mkDatabase [] [] {["app_settings" := JSON_stringify (JObj [("gitConfig", local_git_config)])]} [].
Definition incoming_settings : list (string * json) :=
  [("activeThemeName", JStr "Cyberpunk"); ("gitConfig", JObj [("token", JStr "theirs")])].

(** The clone fails; every other call succeeds. *)
Definition env_clone_fails : GitEnv :=
  λ op, match op with
        | OpClone => mkReply (Some probe_error) [] ∅ ""
        | _ => ok_reply
        end.


Definition remote_connections_of (w : World) : list Row :=
  match db w with Some d => remote_connections d | None => [] end.

Definition sample_connection (id : string) : list (string * json) :=
  [("id", JStr id); ("name", JStr "desk"); ("protocol", JStr "vnc");
   ("host", JStr "10.0.0.5"); ("port", JNum 5900); ("username", JStr "root");
   ("password", JStr "")].

(** * Properties *)

(** Splits the conjunctions of a goal, and nothing else. *)
Ltac conjs := intros; repeat match goal with |- _ ∧ _ => split end.

(** ** Hexadecimal text *)

Lemma hex_byte_roundtrip (x : byte) :
  hex_val (hex_digit (Byte.to_N x / 16)) = Some (Byte.to_N x / 16)%N ∧
  hex_val (hex_digit (Byte.to_N x mod 16)) = Some (Byte.to_N x mod 16)%N ∧
  Byte.of_N (16 * (Byte.to_N x / 16) + Byte.to_N x mod 16) = Some x.
Proof. destruct x; repeat split; reflexivity. Qed.

Lemma from_hex_to_hex (b : bytes) : from_hex (to_hex b) = Some b.
Proof.
  induction b as [|x b IH]; [reflexivity|].
  destruct (hex_byte_roundtrip x) as (Hh & Hl & Hx).
  cbn [to_hex from_hex]. rewrite Hh, Hl, Hx, IH. reflexivity.
Qed.

Lemma to_string_from_string (s : string) : to_string (from_string s) = s.
Proof. apply string_of_list_byte_of_string. Qed.

(** ** JSON text

    [JSON.parse] reads back what [JSON.stringify] writes. *)

Lemma append_cons (x : ascii) (a b : string) : String x a ++ b = String x (a ++ b).
Proof. reflexivity. Qed.

Lemma append_nil_l (a : string) : "" ++ a = a.
Proof. reflexivity. Qed.

Lemma append_assoc (a b c : string) : (a ++ b) ++ c = a ++ (b ++ c).
Proof.
  induction a as [|x a IH]; [reflexivity|]. rewrite !append_cons. by rewrite IH.
Qed.

Lemma append_nil_r (a : string) : a ++ "" = a.
Proof. induction a as [|x a IH]; [reflexivity|]. rewrite append_cons. by rewrite IH. Qed.

Lemma length_append (a b : string) :
  String.length (a ++ b) = (String.length a + String.length b)%nat.
Proof.
  induction a as [|x a IH]; [reflexivity|]. rewrite append_cons. simpl. by rewrite IH.
Qed.

(** *** String literals *)

Lemma parse_chars_escape_char (c : ascii) (tail : string) :
  parse_chars (escape_char c ++ tail) =
  match parse_chars tail with
  | Some (str, r) => Some (String c str, r)
  | None => None
  end.
Proof.
  destruct c as [[] [] [] [] [] [] [] []]; vm_compute escape_char;
    rewrite ?append_cons, ?append_nil_l; cbn; destruct (parse_chars tail) as [[]|]; reflexivity.
Qed.

Lemma parse_chars_escape (s rest : string) :
  parse_chars (escape s ++ String dquote rest) = Some (s, rest).
Proof.
  induction s as [|c s IH]; [reflexivity|].
  cbn [escape]. rewrite append_assoc, parse_chars_escape_char, IH. reflexivity.
Qed.

Lemma parse_quote (s rest : string) :
  ∃ tail, quote s ++ rest = String dquote tail ∧ parse_chars tail = Some (s, rest).
Proof.
  exists (escape s ++ String dquote rest). split.
  - unfold quote. by rewrite append_cons, append_assoc, append_cons, append_nil_l.
  - apply parse_chars_escape.
Qed.

(** *** Numerals *)

Lemma terminated_number_end (rest : string) :
  terminated rest = true →
  take_digits rest = ("", rest) ∧ starts_fraction rest = false.
Proof.
  destruct rest as [|c rest]; [done|].
  destruct c as [[] [] [] [] [] [] [] []]; try discriminate; done.
Qed.

Lemma take_digits_cons (c : ascii) (rest : string) :
  is_digit c = true →
  take_digits (String c rest) = (String c (take_digits rest).1, (take_digits rest).2).
Proof. intros Hc. cbn [take_digits]. rewrite Hc. by destruct (take_digits rest). Qed.

Lemma take_digits_uint (d : Decimal.uint) (rest : string) :
  take_digits rest = ("", rest) →
  take_digits (NilEmpty.string_of_uint d ++ rest) = (NilEmpty.string_of_uint d, rest).
Proof.
  intros Hrest.
  induction d as [|d IH|d IH|d IH|d IH|d IH|d IH|d IH|d IH|d IH|d IH];
    [exact Hrest|..];
    cbn [NilEmpty.string_of_uint]; rewrite append_cons;
    rewrite take_digits_cons by reflexivity; by rewrite IH.
Qed.

Lemma Z_of_digits_acc (d : Decimal.uint) (acc : positive) :
  Z_of_digits (Z.pos acc) (NilEmpty.string_of_uint d) = Z.pos (Pos.of_uint_acc d acc).
Proof.
  revert acc.
  induction d as [|d IH|d IH|d IH|d IH|d IH|d IH|d IH|d IH|d IH|d IH];
    intros acc; [reflexivity|..];
    cbn [NilEmpty.string_of_uint Z_of_digits Pos.of_uint_acc];
    rewrite <- IH; f_equal; vm_compute (Z.of_N (N_of_ascii _)); lia.
Qed.

Lemma Z_of_digits_uint (d : Decimal.uint) :
  Z_of_digits 0 (NilEmpty.string_of_uint d) = Z.of_N (Pos.of_uint d).
Proof.
  induction d as [|d IH|d IH|d IH|d IH|d IH|d IH|d IH|d IH|d IH|d IH];
    [reflexivity|exact IH|..];
    cbn [NilEmpty.string_of_uint Z_of_digits Pos.of_uint Z.of_N];
    rewrite <- Z_of_digits_acc; reflexivity.
Qed.

Lemma nzhead_leading (d : Decimal.uint) :
  match Decimal.nzhead d with Decimal.D0 _ => False | _ => True end.
Proof. induction d; simpl; done. Qed.

Lemma to_uint_leading (p : positive) :
  match Pos.to_uint p with Decimal.Nil | Decimal.D0 _ => False | _ => True end.
Proof.
  pose proof (DecimalPos.Unsigned.to_of (Pos.to_uint p)) as Hn.
  rewrite DecimalPos.Unsigned.of_to in Hn. simpl in Hn.
  pose proof (DecimalPos.Unsigned.to_uint_nonzero p) as Hz.
  rewrite Hn in *. unfold Decimal.unorm in *.
  pose proof (nzhead_leading (Pos.to_uint p)).
  destruct (Decimal.nzhead (Pos.to_uint p)); done.
Qed.

(** The digits of a positive number are read back as the number. *)
Lemma parse_number_pos (p : positive) (rest : string) :
  terminated rest = true →
  parse_number (NilEmpty.string_of_uint (Pos.to_uint p) ++ rest) = Some (JNum (Z.pos p), rest) ∧
  parse_number (String "-" (NilEmpty.string_of_uint (Pos.to_uint p) ++ rest)) =
    Some (JNum (Z.neg p), rest).
Proof.
  intros [Hd Hf]%terminated_number_end.
  pose proof (to_uint_leading p) as Hl.
  pose proof (Z_of_digits_uint (Pos.to_uint p)) as Hv.
  rewrite DecimalPos.Unsigned.of_to in Hv.
  pose proof (take_digits_uint (Pos.to_uint p) rest Hd) as Ht.
  destruct (Pos.to_uint p) as [|d|d|d|d|d|d|d|d|d|d]; try done;
    cbn [NilEmpty.string_of_uint] in *; rewrite append_cons in *;
    unfold parse_number;
    (split; [change (N_of_ascii _ =? 45)%N with false|change (N_of_ascii "-" =? 45)%N with true]);
    cbv iota beta; rewrite Ht; cbv iota beta;
    change (N_of_ascii _ =? 48)%N with false; cbv iota beta; rewrite Hf, Hv; reflexivity.
Qed.

Lemma parse_number_string_of_Z (n : Z) (rest : string) :
  terminated rest = true →
  parse_number (string_of_Z n ++ rest) = Some (JNum n, rest).
Proof.
  intros Hr. destruct n as [|p|p].
  - apply terminated_number_end in Hr as [Hd Hf].
    change (string_of_Z 0) with "0". rewrite append_cons, append_nil_l.
    unfold parse_number. change (N_of_ascii "0" =? 45)%N with false. cbv iota beta.
    rewrite take_digits_cons, Hd by reflexivity. cbn [fst snd]. cbv iota beta. rewrite Hf. reflexivity.
  - pose proof (to_uint_leading p) as Hl.
    replace (string_of_Z (Z.pos p)) with (NilEmpty.string_of_uint (Pos.to_uint p))
      by (unfold string_of_Z; simpl; destruct (Pos.to_uint p); done).
    by apply parse_number_pos.
  - pose proof (to_uint_leading p) as Hl.
    replace (string_of_Z (Z.neg p)) with (String "-" (NilEmpty.string_of_uint (Pos.to_uint p)))
      by (unfold string_of_Z; simpl; destruct (Pos.to_uint p); done).
    rewrite append_cons. by apply parse_number_pos.
Qed.

(** *** One step of the parser *)

Lemma parse_value_string (fuel : nat) (tail : string) :
  parse_value (S fuel) (String dquote tail) =
  '(str, r) ← parse_chars tail; Some (JStr str, r).
Proof. reflexivity. Qed.

Lemma parse_value_number (fuel : nat) (c : ascii) (tail : string) :
  is_digit c || is_char c 45 = true →
  parse_value (S fuel) (String c tail) = parse_number (String c tail).
Proof. destruct c as [[] [] [] [] [] [] [] []]; try discriminate; reflexivity. Qed.

Lemma parse_value_array (fuel : nat) (c : ascii) (tail : string) :
  is_ws c = false → is_char c 93 = false →
  parse_value (S fuel) (String "[" (String c tail)) =
  '(l, r) ← parse_elements fuel (String c tail); Some (JArr l, r).
Proof.
  intros Hw Hc.
  change (parse_value (S fuel) (String "[" (String c tail))) with
    (match skip_ws (String c tail) with
     | "" => None
     | String c' r =>
         if is_char c' 93 then Some (JArr [], r)
         else '(l, r') ← parse_elements fuel (String c tail); Some (JArr l, r')
     end).
  cbn [skip_ws]. by rewrite Hw, Hc.
Qed.

Lemma parse_value_object (fuel : nat) (tail : string) :
  parse_value (S fuel) (String "{" (String dquote tail)) =
  '(l, r) ← parse_members fuel (String dquote tail);
  Some (JObj (fold_left (λ acc kv, obj_set kv.1 kv.2 acc) l []), r).
Proof. reflexivity. Qed.

Lemma parse_elements_step (fuel : nat) (s : string) :
  parse_elements (S fuel) s =
  '(v, r) ← parse_value fuel s;
  match skip_ws r with
  | "" => None
  | String c r' =>
      if is_char c 44 then '(l, r'') ← parse_elements fuel r'; Some (v :: l, r'')
      else if is_char c 93 then Some ([v], r')
      else None
  end.
Proof. reflexivity. Qed.

Lemma parse_members_step (fuel : nat) (tail : string) :
  parse_members (S fuel) (String dquote tail) =
  '(k, r1) ← parse_chars tail;
  match skip_ws r1 with
  | "" => None
  | String c r2 =>
      if is_char c 58 then
        '(v, r) ← parse_value fuel r2;
        match skip_ws r with
        | "" => None
        | String c' r' =>
            if is_char c' 44 then
              '(l, r'') ← parse_members fuel r'; Some ((k, v) :: l, r'')
            else if is_char c' 125 then Some ([(k, v)], r')
            else None
        end
      else None
  end.
Proof. reflexivity. Qed.

(** *** The first character of a document's text *)

Lemma string_of_Z_head (n : Z) :
  ∃ c tail, string_of_Z n = String c tail ∧ is_digit c || is_char c 45 = true.
Proof.
  destruct n as [|p|p]; [by exists "0"%char, ""|..];
    pose proof (to_uint_leading p) as Hl; unfold string_of_Z; simpl;
    destruct (Pos.to_uint p); try done; simpl; eauto.
Qed.

Lemma JSON_stringify_head (j : json) :
  ∃ c tail, JSON_stringify j = String c tail ∧
            is_ws c = false ∧ is_char c 93 = false.
Proof.
  destruct j as [|[]|n|s|items|fields]; try (do 2 eexists; split; [reflexivity|done]).
  destruct (string_of_Z_head n) as (c & tail & Hs & Hc).
  exists c, tail. split; [exact Hs|].
  clear Hs. destruct c as [[] [] [] [] [] [] [] []]; try discriminate; done.
Qed.

Lemma join_cons (sep x : string) (l : list string) :
  join sep (x :: l) = match l with [] => x | _ :: _ => x ++ sep ++ join sep l end.
Proof. reflexivity. Qed.

(** *** Objects with distinct keys *)

Lemma distinct_NoDup (keys : list string) : distinct keys = true → NoDup keys.
Proof.
  induction keys as [|k keys IH]; [constructor|].
  cbn [distinct]. intros [Hk Hd]%andb_prop. constructor; [|by apply IH].
  intros Hin. apply negb_true_iff in Hk.
  assert (existsb (String.eqb k) keys = true) as Hex; [|congruence].
  apply existsb_exists. exists k. split; [by apply list_elem_of_In|apply String.eqb_refl].
Qed.

Lemma obj_set_fresh (k : string) (v : json) (fields : list (string * json)) :
  k ∉ map fst fields → obj_set k v fields = (fields ++ [(k, v)])%list.
Proof.
  induction fields as [|[k' v'] fields IH]; [reflexivity|].
  cbn [map fst obj_set]. intros [Hne Hk]%not_elem_of_cons.
  destruct (String.eqb_spec k k') as [->|_]; [done|].
  by rewrite IH.
Qed.

Lemma fold_obj_set (l acc : list (string * json)) :
  NoDup (map fst (acc ++ l)%list) →
  fold_left (λ acc kv, obj_set kv.1 kv.2 acc) l acc = (acc ++ l)%list.
Proof.
  revert acc. induction l as [|[k v] l IH]; intros acc Hnd.
  - by rewrite app_nil_r.
  - cbn [fold_left fst snd]. rewrite obj_set_fresh.
    + rewrite IH, <- app_assoc; [reflexivity|]. by rewrite <- app_assoc.
    + rewrite map_app in Hnd. apply NoDup_app in Hnd as (_ & Hd & _).
      intros Hin. apply (Hd k Hin). cbn [map fst]. apply elem_of_cons. by left.
Qed.

(** *** Fuel *)

Lemma join_one (sep x : string) : join sep [x] = x.
Proof. reflexivity. Qed.

Lemma join_more (sep x y : string) (l : list string) :
  join sep (x :: y :: l) = x ++ sep ++ join sep (y :: l).
Proof. reflexivity. Qed.

Ltac norm_append :=
  repeat (rewrite append_assoc || rewrite append_cons || rewrite append_nil_l).


Lemma json_size_pos (j : json) : (1 ≤ json_size j)%nat.
Proof. destruct j; simpl; lia. Qed.

Lemma map_member (fields : list (string * json)) :
  map (λ '(k, v), quote k ++ ":" ++ JSON_stringify v) fields = map member fields.
Proof. apply map_ext. by intros []. Qed.

(** With fuel for its size, the parser reads the text of a document back,
    and stops where the text ends. *)
Lemma parse_stringify (fuel : nat) :
  (∀ j rest, json_wf j = true → (json_size j ≤ fuel)%nat → terminated rest = true →
     parse_value fuel (JSON_stringify j ++ rest) = Some (j, rest)) ∧
  (∀ x l rest, forallb json_wf (x :: l) = true →
     (list_sum (map (λ x, S (json_size x)) (x :: l)) ≤ fuel)%nat →
     parse_elements fuel (join "," (map JSON_stringify (x :: l)) ++ String "]" rest) =
       Some (x :: l, rest)) ∧
  (∀ kv l rest, forallb (λ '(_, v), json_wf v) (kv :: l) = true →
     (list_sum (map (λ '(_, v), S (json_size v)) (kv :: l)) ≤ fuel)%nat →
     parse_members fuel (join "," (map member (kv :: l)) ++ String "}" rest) =
       Some (kv :: l, rest)).
Proof.
  induction fuel as [|fuel (IHv & IHe & IHm)].
  { split; [|split].
    - intros j ? _ Hs. pose proof (json_size_pos j). lia.
    - intros x l ? _ Hs. simpl in Hs. lia.
    - intros [k v] l ? _ Hs. simpl in Hs. lia. }
  split; [|split].
  - intros j rest Hwf Hsize Hrest.
    destruct j as [|[]|n|s|[|x l]|[|kv l]]; try reflexivity.
    + destruct (string_of_Z_head n) as (c & tail & Hs & Hc).
      cbn [JSON_stringify].
      assert (parse_value (S fuel) (string_of_Z n ++ rest) =
              parse_number (string_of_Z n ++ rest)) as ->.
      { rewrite Hs, append_cons. by apply parse_value_number. }
      by apply parse_number_string_of_Z.
    + cbn [JSON_stringify].
      destruct (parse_quote s rest) as (tail & -> & Hp).
      by rewrite parse_value_string, Hp.
    + cbn [JSON_stringify json_wf json_size] in *.
      norm_append.
      assert (∃ c tail, join "," (map JSON_stringify (x :: l)) ++ String "]" rest
                        = String c tail ∧ is_ws c = false ∧ is_char c 93 = false)
        as (c & tail & Hj & Hw & Hc).
      { destruct (JSON_stringify_head x) as (c & tail & Hx & Hw & Hc).
        cbn [map]. rewrite join_cons, Hx.
        destruct (map JSON_stringify l); rewrite !append_cons; eauto. }
      rewrite Hj, parse_value_array, <- Hj by assumption.
      rewrite IHe; [reflexivity|exact Hwf|lia].
    + cbn [JSON_stringify json_wf json_size] in *.
      apply andb_prop in Hwf as [Hd Hwf].
      rewrite map_member.
      norm_append.
      assert (∃ tail, join "," (map member (kv :: l)) ++ String "}" rest
                      = String dquote tail) as (tail & Hj).
      { cbn [map]. rewrite join_cons.
        destruct (map member l); unfold member, quote; rewrite !append_cons; eauto. }
      rewrite Hj, parse_value_object, <- Hj.
      rewrite IHm; [|exact Hwf|lia].
      cbn [mbind option_bind]. rewrite fold_obj_set; [reflexivity|].
      by apply distinct_NoDup.
  - intros x l rest Hwf Hsize.
    simpl in Hwf, Hsize. apply andb_prop in Hwf as [Hx Hl].
    rewrite parse_elements_step.
    destruct l as [|y l]; cbn [map].
    + rewrite join_one, IHv; [reflexivity|exact Hx|lia|reflexivity].
    + rewrite join_more. norm_append.
      rewrite IHv; [|exact Hx|lia|reflexivity].
      cbn [mbind option_bind skip_ws].
      change (is_ws ",") with false. change (is_char "," 44) with true.
      cbv iota. change (?a :: map JSON_stringify l) with (map JSON_stringify (y :: l)).
      rewrite IHe; [reflexivity|exact Hl|].
      simpl in Hsize |- *. lia.
  - intros [k v] l rest Hwf Hsize.
    simpl in Hwf, Hsize. apply andb_prop in Hwf as [Hx Hl].
    assert (∀ tail', parse_members (S fuel) (member (k, v) ++ tail') =
            '(v', r) ← parse_value fuel (JSON_stringify v ++ tail');
            match skip_ws r with
            | "" => None
            | String c' r' =>
                if is_char c' 44 then
                  '(l, r'') ← parse_members fuel r'; Some ((k, v') :: l, r'')
                else if is_char c' 125 then Some ([(k, v')], r')
                else None
            end) as Hstep.
    { intros tail'. unfold member. cbn [fst snd]. norm_append.
      destruct (parse_quote k (String ":" (JSON_stringify v ++ tail')))
        as (tail & -> & Hp).
      by rewrite parse_members_step, Hp. }
    destruct l as [|y l]; cbn [map].
    + rewrite join_one, Hstep, IHv; [reflexivity|exact Hx|lia|reflexivity].
    + rewrite join_more, append_assoc, Hstep. norm_append.
      rewrite IHv; [|exact Hx|lia|reflexivity].
      cbn [mbind option_bind skip_ws].
      change (is_ws ",") with false. change (is_char "," 44) with true.
      cbv iota. change (?a :: map member l) with (map member (y :: l)).
      rewrite IHm; [reflexivity|exact Hl|].
      simpl in Hsize |- *. lia.
Qed.

Lemma length_join (l : list string) :
  (list_sum (map (λ s, S (String.length s)) l) ≤ S (String.length (join "," l)))%nat.
Proof.
  induction l as [|x [|y l] IH]; [simpl; lia|simpl; lia|].
  rewrite join_more, !length_append.
  change (map ?f (x :: ?l')) with (f x :: map f l').
  change (list_sum (?a :: ?l')) with (a + list_sum l')%nat.
  change (String.length ",") with 1%nat. cbv beta. lia.
Qed.

Lemma list_sum_le {A} (f g : A → nat) (n : nat) (l : list A) :
  (∀ x, f x ≤ n → f x ≤ g x)%nat →
  (list_sum (map (λ x, S (f x)) l) ≤ n)%nat →
  (list_sum (map (λ x, S (f x)) l) ≤ list_sum (map (λ x, S (g x)) l))%nat.
Proof.
  intros Hfg. induction l as [|x l IH]; simpl; [lia|].
  intros Hs. specialize (Hfg x). lia.
Qed.

(** The text of a document is at least as long as the fuel it needs. *)
Lemma json_size_length (n : nat) (j : json) :
  (json_size j ≤ n → json_size j ≤ String.length (JSON_stringify j))%nat.
Proof.
  revert j. induction n as [|n IH]; intros j Hn.
  { pose proof (json_size_pos j). lia. }
  destruct j as [|[]|z|s|items|fields]; try (simpl; lia).
  - destruct (string_of_Z_head z) as (c & tail & Hs & _).
    cbn [JSON_stringify json_size]. rewrite Hs. simpl. lia.
  - cbn [JSON_stringify json_size] in *.
    rewrite !length_append.
    change (String.length "[") with 1%nat. change (String.length "]") with 1%nat.
    pose proof (length_join (map JSON_stringify items)) as Hj.
    rewrite map_map in Hj.
    pose proof (list_sum_le json_size (λ x, String.length (JSON_stringify x)) n items IH).
    lia.
  - cbn [JSON_stringify json_size] in *.
    rewrite map_member, !length_append.
    change (String.length "{") with 1%nat. change (String.length "}") with 1%nat.
    pose proof (length_join (map member fields)) as Hj.
    rewrite map_map in Hj.
    assert (map (λ '(_, v), S (json_size v)) fields =
            map (λ kv, S (json_size kv.2)) fields) as Heq
      by (apply map_ext; by intros []).
    rewrite Heq in *.
    pose proof (list_sum_le (λ kv, json_size kv.2) (λ kv, String.length (member kv))
                  n fields) as Hle.
    lapply Hle; [intros Hle'; lia|].
    intros [k v] Hv. unfold member. cbn [fst snd] in *.
    rewrite !length_append. specialize (IH v Hv). lia.
Qed.

(** [JSON.parse(JSON.stringify(D))] is [D] for every document whose objects
    have each key once. *)
Lemma JSON_parse_stringify (j : json) :
  json_wf j = true → JSON_parse (JSON_stringify j) = Some j.
Proof.
  intros Hwf. unfold JSON_parse.
  pose proof (json_size_length _ j (Nat.le_refl _)) as Hlen.
  destruct (parse_stringify (2 * String.length (JSON_stringify j) + 2)) as (Hv & _).
  specialize (Hv j "" Hwf). rewrite append_nil_r in Hv.
  rewrite Hv; [reflexivity|lia|reflexivity].
Qed.

(** ** The monad *)

Lemma bind_unfold {A B} (m : M A) (k : A → M B) (w : World) :
  (m ≫= k) w = match m w with
               | (Ret a, w') => k a w'
               | (Throw e, w') => (Throw e, w')
               end.
Proof. reflexivity. Qed.

Lemma bind_ret_l {A B} (m : M A) (k : A → M B) (w w' : World) (a : A) :
  m w = (Ret a, w') → (m ≫= k) w = k a w'.
Proof. intros Hm. rewrite bind_unfold, Hm. reflexivity. Qed.

Lemma bind_throw_l {A B} (m : M A) (k : A → M B) (w w' : World) (e : JsError) :
  m w = (Throw e, w') → (m ≫= k) w = (Throw e, w').
Proof. intros Hm. rewrite bind_unfold, Hm. reflexivity. Qed.

Lemma try_catch_ret {A} (m : M A) (h : JsError → M A) (w w' : World) (a : A) :
  m w = (Ret a, w') → try_catch m h w = (Ret a, w').
Proof. intros Hm. unfold try_catch. rewrite Hm. reflexivity. Qed.

Lemma try_catch_throw {A} (m : M A) (h : JsError → M A) (w w' : World) (e : JsError) :
  m w = (Throw e, w') → try_catch m h w = h e w'.
Proof. intros Hm. unfold try_catch. rewrite Hm. reflexivity. Qed.

(** ** Two-state invariants of handlers *)

Section Steps.
Context (R : relation World) `{!PreOrder R}.

Lemma steps_ret {A} (a : A) : steps R (ret a).
Proof. intros w. reflexivity. Qed.

Lemma steps_throw {A} (e : JsError) : steps R (@throw A e).
Proof. intros w. reflexivity. Qed.

Lemma steps_get {A} (f : World → A) : steps R (get f).
Proof. intros w. reflexivity. Qed.

Lemma steps_lift {A} (o : Outcome A) : steps R (lift o).
Proof. intros w. reflexivity. Qed.

Lemma steps_or_throw {A} (o : option A) (e : JsError) : steps R (or_throw o e).
Proof. intros w. destruct o; reflexivity. Qed.

Lemma steps_modify (f : World → World) : (∀ w, R w (f w)) → steps R (modify f).
Proof. intros Hf w. apply Hf. Qed.

Lemma steps_bind {A B} (m : M A) (k : A → M B) :
  steps R m → (∀ a, steps R (k a)) → steps R (m ≫= k).
Proof.
  intros Hm Hk w. specialize (Hm w). unfold exec in *.
  rewrite bind_unfold. destruct (m w) as [[a|e] w']; simpl in *; [|done].
  etrans; [exact Hm|apply Hk].
Qed.

Lemma steps_try_catch {A} (m : M A) (h : JsError → M A) :
  steps R m → (∀ e, steps R (h e)) → steps R (try_catch m h).
Proof.
  intros Hm Hh w. specialize (Hm w). unfold exec, try_catch in *.
  destruct (m w) as [[a|e] w']; simpl in *; [done|].
  etrans; [exact Hm|apply Hh].
Qed.

Lemma steps_of_eq {A} (m : M A) : steps eq m → steps R m.
Proof. intros Hm w. rewrite <- (Hm w). reflexivity. Qed.

End Steps.

Lemma total_ret {A} (a : A) : total (ret a).
Proof. intros w. eexists. reflexivity. Qed.

Lemma total_get {A} (f : World → A) : total (get f).
Proof. intros w. eexists. reflexivity. Qed.

Lemma total_modify (f : World → World) : total (modify f).
Proof. intros w. eexists. reflexivity. Qed.

Lemma total_bind {A B} (m : M A) (k : A → M B) :
  total m → (∀ a, total (k a)) → total (m ≫= k).
Proof.
  intros Hm Hk w. destruct (Hm w) as [a Ha]. unfold run in *.
  rewrite bind_unfold. destruct (m w) as [o w']; simpl in *; subst o. apply Hk.
Qed.

Lemma total_try_catch {A} (m : M A) (h : JsError → M A) :
  (∀ e, total (h e)) → total (try_catch m h).
Proof.
  intros Hh w. unfold run, try_catch.
  destruct (m w) as [[a|e] w']; simpl; [eauto|apply Hh].
Qed.

(** Decomposition of a handler along its syntax; [leaf] closes the goals
    [R w w'] left by the updates of the world. *)
Ltac head_of t := lazymatch t with ?f _ => head_of f | _ => t end.

Ltac prim_step leaf :=
  let w := fresh "w" in
  intros w; unfold exec; cbv beta delta [existsSync readFileSync writeFileSync
    failed_write randombytes_buf importData exportData or_throw ret throw];
  repeat case_match; cbn [fst snd]; leaf.

Create HintDb steps_db.

Ltac steps_go leaf :=
  repeat first
  [ assumption
  | solve [auto 1 with steps_db nocore]
  | lazymatch goal with
    | |- steps ?R (_ ≫= _) => refine (steps_bind R _ _ _ _); [|intros ?]
    | |- steps ?R (try_catch _ _) => refine (steps_try_catch R _ _ _ _); [|intros ?]
    | |- steps ?R (ret _) => refine (steps_ret R _)
    | |- steps ?R (throw _) => refine (steps_throw R _)
    | |- steps ?R (get _) => refine (steps_get R _)
    | |- steps ?R (lift _) => refine (steps_lift R _)
    | |- steps ?R (or_throw _ _) => refine (steps_or_throw R _ _)
    | |- steps ?R (modify _) => refine (steps_modify R _ _); intros ?; cbn beta; leaf
    | |- steps _ (existsSync _) => prim_step leaf
    | |- steps _ (readFileSync _) => prim_step leaf
    | |- steps _ (writeFileSync _ _) => prim_step leaf
    | |- steps _ (randombytes_buf _) => prim_step leaf
    | |- steps _ (importData _) => prim_step leaf
    | |- steps _ exportData => prim_step leaf
    | |- steps _ (match ?x with _ => _ end) => destruct x
    | |- steps _ ?m => let h := head_of m in progress unfold h
    end ].

Ltac total_go :=
  repeat lazymatch goal with
  | |- total (_ ≫= _) => refine (total_bind _ _ _ _); [|intros ?]
  | |- total (try_catch _ _) => refine (total_try_catch _ _ _); intros ?
  | |- total (ret _) => refine (total_ret _)
  | |- total (get _) => refine (total_get _)
  | |- total (modify _) => refine (total_modify _)
  | |- total (existsSync _) => intros ?; eexists; reflexivity
  | |- total (randombytes_buf _) => intros ?; eexists; reflexivity
  | |- total (match ?x with _ => _ end) => destruct x
  | |- total ?m => let h := head_of m in progress unfold h
  end.

(** ** The vault *)

Ltac munfold :=
  repeat progress
    unfold try_catch, mbind, M_bind, bind, ret, throw, get, modify, lift, or_throw,
      JSON_parse_M, sodium_from_hex, js_get, existsSync, readFileSync.

#[local] Instance salt_frame_preorder : PreOrder salt_frame.
Proof.
  split.
  - intros w. repeat split.
  - intros a b c (?&?&?&?&?) (?&?&?&?&?). repeat split; congruence.
Qed.

Section VaultFacts.
Context `{Sodium} `{Runtime}.

Lemma decryptData_envelope (w : World) (key n c : bytes) :
  masterKey w = Some key →
  decryptData (json_of_envelope (mkEnvelope (to_hex n) (to_hex c))) w =
  (Ret match opened (crypto_secretbox_open_easy c n key) "Decryption Failed" with
       | Ret r => r
       | Throw e => Failure (message e)
       end, w).
Proof.
  intros Hk. unfold decryptData, json_of_envelope, opened. munfold.
  rewrite Hk. cbn [obj_get String.eqb Ascii.eqb Bool.eqb nonce ciphertext].
  rewrite !from_hex_to_hex.
  destruct (crypto_secretbox_open_easy c n key) as [[d|]|e]; try reflexivity.
  destruct (JSON_parse (to_string d)); reflexivity.
Qed.

Lemma decryptVault_steps : steps eq decryptVault.
Proof. steps_go ltac:(idtac; reflexivity). Qed.

Lemma decryptVault_total : total decryptVault.
Proof. total_go. Qed.

(** [decryptVault] never throws and leaves the world as it is. *)
Lemma decryptVault_pure (w : World) : ∃ r, decryptVault w = (Ret r, w).
Proof.
  destruct (decryptVault_total w) as [r Hr]. pose proof (decryptVault_steps w) as Hw.
  unfold run, exec in *. destruct (decryptVault w) as [o w']; simpl in *.
  subst. eauto.
Qed.

Lemma decryptVault_locked (w : World) :
  masterKey w = None → decryptVault w = (Ret (Failure "Vault locked"), w).
Proof. intros Hk. unfold decryptVault. munfold. rewrite Hk. reflexivity. Qed.



(** What [decryptVault] answers when the vault file holds an envelope. *)
Lemma decryptVault_envelope (w : World) (key n c : bytes) (raw : string) :
  masterKey w = Some key →
  vault_file w = Some raw →
  is_blank raw = false →
  JSON_parse raw = Some (json_of_envelope (mkEnvelope (to_hex n) (to_hex c))) →
  n ≠ [] → c ≠ [] →
  decryptVault w =
  (Ret match opened (crypto_secretbox_open_easy c n key)
               "Decryption returned null (Wrong Password?)" with
       | Ret r => r
       | Throw _ => Failure "Master Password verification failed or vault corrupted."
       end, w).
Proof.
  intros Hk Hv Hb Hp Hn Hc. unfold decryptVault, json_of_envelope, opened in *. munfold.
  rewrite Hk, Hv. rewrite bool_decide_eq_true_2 by eauto.
  cbn [negb]. rewrite Hv. cbn beta iota. rewrite Hb, Hp.
  cbn [obj_get String.eqb Ascii.eqb Bool.eqb nonce ciphertext truthy truthy_opt
       from_option typeof_string negb orb].
  assert (String.eqb (to_hex n) "" = false) as -> by (destruct n; [done|reflexivity]).
  assert (String.eqb (to_hex c) "" = false) as -> by (destruct c; [done|reflexivity]).
  cbn [negb orb]. rewrite !from_hex_to_hex, Hk.
  destruct (crypto_secretbox_open_easy c n key) as [[d|]|e]; try reflexivity.
  destruct (JSON_parse (to_string d)); reflexivity.
Qed.


Lemma getSalt_steps : steps salt_frame getSalt.
Proof. steps_go ltac:(idtac; repeat split). Qed.


(** C6.  When an envelope exists on disk and the key derived from the
    password fails to decrypt it, [vault:init] answers with the
    authentication error, drops the derived key and leaves the vault locked:
    the status reports locked, the credential handlers fail as locked, the
    vault file is untouched, and a vault that was locked before is in the
    same state after. *)
Theorem failed_unlock_stays_locked (w w1 : World) (password raw err : string)
    (salt key : bytes) :
  vault_file w = Some raw →
  getSalt w = (Ret salt, w1) →
  crypto_pwhash password salt = Ret key →
  run decryptVault (set_masterKey (Some key) w1) = Ret (Failure err) →
  let w' := exec (vault_init password) w in
  run (vault_init password) w = Ret (Failure "Invalid Master Password (or corrupted vault)") ∧
  masterKey w' = None ∧
  run status w' = Ret true ∧
  vault_file w' = vault_file w ∧
  (masterKey w = None → salt_frame w w') ∧
  (∀ hostId, vault_get_credential hostId w' = (Ret (Failure "Vault locked"), w')) ∧
  (∀ hostId p u, vault_save_credential hostId p u w' = (Ret (Failure "Vault locked"), w')).
Proof.
  intros Hv Hsalt Hkey Hfail.
  pose proof (getSalt_steps w) as Hframe. unfold exec in Hframe.
  rewrite Hsalt in Hframe. simpl in Hframe.
  pose proof Hframe as (Hk1 & Hv1 & Hd1 & Hs1 & Ht1).
  set (w2 := set_masterKey (Some key) w1) in *.
  destruct (decryptVault_pure w2) as [r Hr].
  unfold run in Hfail. rewrite Hr in Hfail. simpl in Hfail. injection Hfail as ->.
  assert (vault_init password w =
          (Ret (Failure "Invalid Master Password (or corrupted vault)"),
           set_masterKey None w2)) as Hinit.
  { unfold vault_init. apply try_catch_ret.
    rewrite (bind_ret_l _ _ _ _ _ Hsalt).
    rewrite bind_unfold. unfold lift at 1. rewrite Hkey.
    rewrite bind_unfold. unfold modify at 1. fold w2.
    rewrite bind_unfold. unfold existsSync at 1.
    assert (vault_file w2 = Some raw) as Hv2 by (unfold w2; simpl; congruence).
    rewrite Hv2, bool_decide_eq_true_2 by eauto.
    rewrite bind_unfold. unfold get at 1.
    change (masterKey w2) with (Some key). cbn beta iota.
    rewrite (bind_ret_l _ _ _ _ _ Hr). reflexivity. }
  unfold run, exec. rewrite Hinit. simpl.
  repeat split; done.
Qed.

End VaultFacts.

(** *** Keys are shorter than passwords *)

#[local] Instance byte_eq_dec : EqDecision byte := Byte.byte_eq_dec.

#[local] Instance of_bits_inj : Inj (=) (=) Byte.of_bits.
Proof.
  intros a b Hab. rewrite <- (Byte.to_bits_of_bits a), <- (Byte.to_bits_of_bits b).
  by rewrite Hab.
Qed.

#[local] Instance of_bits_surj : Surj (=) Byte.of_bits.
Proof. intros b. exists (Byte.to_bits b). apply Byte.of_bits_to_bits. Qed.

#[local] Instance byte_finite : stdpp.finite.Finite byte :=
  stdpp.finite.bijective_finite Byte.of_bits.




(** *** Encryption round trip and wrong passwords

    The two theorems below rest on one clause of the contract of libsodium's
    secretbox, stated as a hypothesis on the interface. *)

Section Codec.
Context `{Sodium}.

(** Opening a box with the key and nonce it was sealed with gives the
    message back. *)
Hypothesis secretbox_correct : ∀ m n k c,
  crypto_secretbox_easy m n k = Ret c →
  crypto_secretbox_open_easy c n k = Ret (Some m).

(** C7.  For every document [D] that JSON represents (each object has each
    of its keys once), every password and salt: with the key derived from
    them in memory, [encryptData D] produces an envelope (whenever the
    secretbox primitive returns one) and [decryptData] of that envelope, under
    the same key, succeeds with exactly [D]. *)
Theorem encrypt_decrypt_round_trip (w : World) (D : json) (P : string)
    (salt key c : bytes) :
  crypto_pwhash P salt = Ret key →
  masterKey w = Some key →
  json_wf D = true →
  crypto_secretbox_easy (from_string (JSON_stringify D)) (next_nonce w) key = Ret c →
  let E := mkEnvelope (to_hex (next_nonce w)) (to_hex c) in
  let w' := exec (encryptData D) w in
  run (encryptData D) w = Ret (Success E) ∧
  decryptData (json_of_envelope E) w' = (Ret (Success D), w').
Proof.
  intros _ Hk HD Hc E w'.
  assert (encryptData D w = (Ret (Success E), set_cursor (cursor w + NONCE_BYTES) w)) as Henc.
  { unfold encryptData, seal, randombytes_buf. munfold. rewrite Hk.
    fold (next_nonce w). rewrite Hc. reflexivity. }
  unfold w', run, exec. rewrite Henc. simpl. split; [reflexivity|].
  unfold E. rewrite (decryptData_envelope _ key) by exact Hk.
  rewrite (secretbox_correct _ _ _ _ Hc). unfold opened.
  rewrite to_string_from_string, (JSON_parse_stringify _ HD). reflexivity.
Qed.


End Codec.

(** The reference instance meets the contract. *)

Lemma strip_bytes_app (p m : bytes) : strip_bytes p (p ++ m)%list = Some m.
Proof.
  induction p as [|x p IH]; [reflexivity|].
  simpl. rewrite (byte_dec_lb (eq_refl x)). exact IH.
Qed.

Lemma ref_secretbox_correct (m n k c : bytes) :
  ref_secretbox_easy m n k = Ret c →
  ref_secretbox_open_easy c n k = Ret (Some m).
Proof.
  intros [= <-]. unfold ref_secretbox_open_easy. rewrite strip_bytes_app. reflexivity.
Qed.

(** *** Witnesses on the sample vault *)



Lemma failed_unlock_stays_locked_witness :
  let w' := exec (@vault_init ref_sodium "wrong") world_locked in
  run (@vault_init ref_sodium "wrong") world_locked
    = Ret (Failure "Invalid Master Password (or corrupted vault)") ∧
  masterKey w' = None ∧
  run status w' = Ret true ∧
  vault_file w' = vault_file world_locked ∧
  (masterKey world_locked = None → salt_frame world_locked w') ∧
  (∀ hostId, @vault_get_credential ref_sodium ref_runtime hostId w'
             = (Ret (Failure "Vault locked"), w')) ∧
  (∀ hostId p u, @vault_save_credential ref_sodium hostId p u w'
                 = (Ret (Failure "Vault locked"), w')).
Proof.
  apply (@failed_unlock_stays_locked ref_sodium ref_runtime world_locked world_locked "wrong"
           (default "" (vault_file world_locked))
           "Master Password verification failed or vault corrupted."
           sample_salt wrong_key); vm_compute; reflexivity.
Defined.

Lemma encrypt_decrypt_round_trip_witness :
  let E := mkEnvelope (to_hex sample_nonce) (to_hex sample_box) in
  let w' := exec (@encryptData ref_sodium sample_document) world_unlocked in
  run (@encryptData ref_sodium sample_document) world_unlocked = Ret (Success E) ∧
  @decryptData ref_sodium (json_of_envelope E) w' = (Ret (Success sample_document), w').
Proof.
  apply (@encrypt_decrypt_round_trip ref_sodium ref_secretbox_correct
           world_unlocked sample_document "right" sample_salt right_key sample_box);
    vm_compute; reflexivity.
Defined.


(** ** Password change *)

Section ChangePassword.
Context `{Sodium}.

(** C2 (as the code has it).  With the vault unlocked and the current
    document readable, [vault:change-password] writes the new envelope first
    and the new salt second, then replaces the key in memory.  An envelope
    write that is refused when the file is opened leaves both files and the
    key as they were; one that fails after the file was opened leaves a
    prefix of the new envelope in place of the old one, beside the old salt
    and with the old key in memory.  A failed salt write leaves the new
    envelope beside the old salt (or beside a prefix of the new one, when
    the write fails after the open), with the old key in memory.  When both
    writes succeed the disk holds the new envelope and the new salt and the
    key in memory is the new one. *)
Theorem change_password_envelope_then_salt (w : World) (newPassword : string)
    (key newKey c : bytes) (data : json) :
  let newSalt := map (entropy w) (seq (cursor w) SALT_BYTES) in
  let nonce := map (entropy w) (seq (cursor w + SALT_BYTES) NONCE_BYTES) in
  let envelope := JSON_stringify (json_of_envelope (mkEnvelope (to_hex nonce) (to_hex c))) in
  let metadata := JSON_stringify (JObj [("salt", JStr (to_hex newSalt))]) in
  let w' := exec (vault_change_password newPassword) w in
  let r := run (vault_change_password newPassword) w in
  masterKey w = Some key →
  decryptVault w = (Ret (Success data), w) →
  crypto_pwhash newPassword newSalt = Ret newKey →
  crypto_secretbox_easy (from_string (JSON_stringify data)) nonce newKey = Ret c →
  (unwritable w VAULT_PATH = true →
     r = Ret (Failure (message (write_error VAULT_PATH w))) ∧
     meta_file w' = meta_file w ∧ masterKey w' = Some key ∧
     (torn w VAULT_PATH = None → vault_file w' = vault_file w) ∧
     (∀ n, torn w VAULT_PATH = Some n → vault_file w' = Some (substring 0 n envelope))) ∧
  (unwritable w VAULT_PATH = false → unwritable w METADATA_PATH = true →
     r = Ret (Failure (message (write_error METADATA_PATH w))) ∧
     vault_file w' = Some envelope ∧ masterKey w' = Some key ∧
     (torn w METADATA_PATH = None → meta_file w' = meta_file w) ∧
     (∀ n, torn w METADATA_PATH = Some n → meta_file w' = Some (substring 0 n metadata))) ∧
  (unwritable w VAULT_PATH = false → unwritable w METADATA_PATH = false →
     r = Ret (Success tt) ∧
     vault_file w' = Some envelope ∧ meta_file w' = Some metadata ∧
     masterKey w' = Some newKey).
Proof.
  intros newSalt nonce envelope metadata w' r Hk Hdec Hpw Hbox.
  set (w1 := set_cursor (cursor w + SALT_BYTES + NONCE_BYTES)
               (set_cursor (cursor w + SALT_BYTES) w)).
  assert (vault_change_password newPassword w =
          if unwritable w VAULT_PATH
          then (Ret (Failure (message (write_error VAULT_PATH w))),
                failed_write VAULT_PATH envelope w1)
          else if unwritable w METADATA_PATH
               then (Ret (Failure (message (write_error METADATA_PATH w))),
                     failed_write METADATA_PATH metadata
                       (set_vault_file (Some envelope) w1))
               else (Ret (Success tt),
                     set_masterKey (Some newKey)
                       (set_meta_file (Some metadata)
                          (set_vault_file (Some envelope) w1)))) as Hrun.
  { unfold vault_change_password.
    rewrite bind_unfold. unfold get at 1. rewrite Hk.
    unfold try_catch. rewrite (bind_ret_l _ _ _ _ _ Hdec).
    unfold seal, randombytes_buf, writeFileSync. munfold.
    fold newSalt. rewrite Hpw. cbn [cursor set_cursor entropy]. fold nonce.
    rewrite Hbox. cbn [unwritable set_cursor set_vault_file].
    destruct (unwritable w VAULT_PATH); [reflexivity|].
    lazymatch goal with
    | |- context [unwritable (set_vault_file ?f ?x) ?p] =>
        change (unwritable (set_vault_file f x) p) with (unwritable w p)
    end.
    destruct (unwritable w METADATA_PATH); reflexivity. }
  unfold r, w', run, exec. rewrite Hrun. unfold failed_write.
  change (torn w1 VAULT_PATH) with (torn w VAULT_PATH).
  change (torn (set_vault_file (Some envelope) w1) METADATA_PATH)
    with (torn w METADATA_PATH).
  repeat split; intros;
    repeat match goal with
           | Hu : unwritable _ _ = _ |- _ => rewrite Hu; clear Hu
           | Ht : torn _ _ = _ |- _ => rewrite Ht; clear Ht
           end;
    repeat case_match; simpl; done.
Qed.

End ChangePassword.

Lemma change_password_envelope_then_salt_witness :
  let w := world_saved in
  let newSalt := map (entropy w) (seq (cursor w) SALT_BYTES) in
  let nonce := map (entropy w) (seq (cursor w + SALT_BYTES) NONCE_BYTES) in
  let newKey := ref_key "new" newSalt in
  let c := (box_header newKey ++ from_string (JSON_stringify sample_document))%list in
  let envelope := JSON_stringify (json_of_envelope (mkEnvelope (to_hex nonce) (to_hex c))) in
  let metadata := JSON_stringify (JObj [("salt", JStr (to_hex newSalt))]) in
  let w' := exec (@vault_change_password ref_sodium "new") w in
  let r := run (@vault_change_password ref_sodium "new") w in
  (unwritable w VAULT_PATH = false ∧ unwritable w METADATA_PATH = false) ∧
  r = Ret (Success tt) ∧
  vault_file w' = Some envelope ∧ meta_file w' = Some metadata ∧
  masterKey w' = Some newKey.
Proof.
  split; [split; reflexivity|].
  refine (proj2 (proj2 (@change_password_envelope_then_salt ref_sodium world_saved "new"
    right_key _ _ sample_document _ _ _ _)) _ _); vm_compute; reflexivity.
Defined.

(** ** The record store import *)

Lemma sqlval_eqb_eq (a b : sqlval) : sqlval_eqb a b = true ↔ a = b.
Proof.
  destruct a, b; simpl; split; try congruence; try done.
  - intros Hz. apply Z.eqb_eq in Hz. congruence.
  - intros [= ->]. apply Z.eqb_refl.
  - intros Hs. apply String.eqb_eq in Hs. congruence.
  - intros [= ->]. apply String.eqb_refl.
Qed.

Lemma insert_or_replace_keeps (new row : Row) (rows : list Row) :
  row ∈ rows → pk row ≠ pk new → row ∈ insert_or_replace new rows.
Proof.
  intros Hin Hne. unfold insert_or_replace. apply elem_of_app. left.
  apply list_elem_of_filter. split; [|done].
  unfold pk_conflict. destruct (sqlval_eqb (pk row) (pk new)) eqn:Heq.
  - apply sqlval_eqb_eq in Heq. done.
  - rewrite andb_false_r. done.
Qed.

Lemma insert_or_replace_new (new : Row) (rows : list Row) :
  new ∈ insert_or_replace new rows.
Proof. unfold insert_or_replace. apply elem_of_app. right. apply list_elem_of_singleton. done. Qed.

Lemma insert_or_replace_pks (new : Row) (rows : list Row) (v : sqlval) :
  v ∈ pks rows → v ∈ pks (insert_or_replace new rows).
Proof.
  unfold pks. intros (row & -> & Hin)%list_elem_of_fmap.
  destruct (sqlval_eqb (pk row) (pk new)) eqn:Heq.
  - apply sqlval_eqb_eq in Heq. rewrite Heq.
    apply list_elem_of_fmap. eauto using insert_or_replace_new.
  - apply list_elem_of_fmap. eexists. split; [done|].
    apply insert_or_replace_keeps; [done|].
    intros Hpk. apply sqlval_eqb_eq in Hpk. congruence.
Qed.

Lemma obj_get_obj_set_ne (k k' : string) (v : json) (fields : list (string * json)) :
  k ≠ k' → obj_get k (obj_set k' v fields) = obj_get k fields.
Proof.
  intros Hne. induction fields as [|[k0 v0] fields IH]; simpl.
  - destruct (String.eqb_spec k k'); done.
  - destruct (String.eqb_spec k' k0) as [->|Hk0]; simpl.
    + destruct (String.eqb_spec k k0); done.
    + destruct (String.eqb_spec k k0); done.
Qed.

Lemma tagged_params_id (t : string) : keeps_id (tagged_params t).
Proof.
  intros x p Hp. destruct x; try discriminate. injection Hp as <-.
  eexists. split; [done|]. rewrite obj_get_obj_set_ne by done.
  destruct (obj_get "tags" fields); by rewrite obj_get_obj_set_ne.
Qed.

Lemma dated_params_id (t : string) : keeps_id (dated_params t).
Proof.
  intros x p Hp. destruct x; try discriminate. injection Hp as <-.
  eexists. split; [done|]. by rewrite obj_get_obj_set_ne.
Qed.

(** The row a statement inserts is stored under the id of its item. *)
Lemma run_insert_pk (table : string) (rest : list column)
    (params : json → Outcome (list (string * json))) (x : json)
    (p : list (string * json)) (rows rows' : list Row) :
  keeps_id params →
  params x = Ret p →
  run_insert table (mkColumn "id" TEXT false :: rest) p rows = Ret rows' →
  ∃ row, rows' = insert_or_replace row rows ∧ payload_id x = Some (pk row).
Proof.
  intros Hid Hp Hrun. destruct (Hid _ _ Hp) as (fields & -> & Hget).
  unfold run_insert in Hrun. cbn [bind_row] in Hrun.
  unfold bind_column in Hrun. cbn [col_name col_affinity col_notnull andb] in Hrun.
  unfold payload_id. rewrite <- Hget.
  destruct (bind_value "id" (obj_get "id" p)) as [v|e]; [|discriminate].
  cbn in Hrun. destruct (bind_row table p rest) as [cells|e]; [|discriminate].
  cbn in Hrun. injection Hrun as <-. eexists. split; [done|]. reflexivity.
Qed.

Lemma insert_all_kept (table : string) (rest : list column)
    (params : json → Outcome (list (string * json)))
    (items : list json) (rows rows' : list Row) :
  keeps_id params →
  insert_all table (mkColumn "id" TEXT false :: rest) params items rows = Ret rows' →
  (∀ row, row ∈ rows → pk row ∉ omap payload_id items → row ∈ rows') ∧
  (∀ v, v ∈ pks rows → v ∈ pks rows') ∧
  (∀ v, v ∈ omap payload_id items → v ∈ pks rows').
Proof.
  intros Hid. revert rows. induction items as [|x items IH]; intros rows Hall.
  - injection Hall as <-. split; [done|]. split; [done|]. intros v Hv. inversion Hv.
  - cbn [insert_all] in Hall.
    destruct (params x) as [p|e] eqn:Hp; [|discriminate].
    cbn [mbind Outcome_bind] in Hall.
    destruct (run_insert table _ p rows) as [rows1|e] eqn:Hrun; [|discriminate].
    cbn [mbind Outcome_bind] in Hall. destruct (IH _ Hall) as (Hkeep & Hpks & Hnew).
    destruct (run_insert_pk _ _ _ _ _ _ _ Hid Hp Hrun) as (row1 & -> & Hpid).
    cbn [omap list_omap]. rewrite Hpid. repeat split.
    + intros row Hin Hnot. apply Hkeep.
      * apply insert_or_replace_keeps; [done|]. intros Heq. apply Hnot. rewrite Heq. left.
      * intros Hin'. apply Hnot. by right.
    + intros v Hv. apply Hpks. by apply insert_or_replace_pks.
    + intros v Hv. apply elem_of_cons in Hv as [->|Hv]; [|by apply Hnew].
      apply Hpks. apply list_elem_of_fmap. eauto using insert_or_replace_new.
Qed.


Lemma import_settings_tables (s : json) (d d' : Database) :
  import_settings s d = Ret d' → hosts d' = hosts d ∧ snippets d' = snippets d.
Proof.
  unfold import_settings. intros Himp.
  destruct (match settings d !! "app_settings" with
            | Some value => parse_or_throw value | None => Ret (JObj []) end)
    as [cur|e]; [|discriminate].
  cbn [mbind Outcome_bind] in Himp.
  destruct (match cur with JNull => Throw (null_property "gitConfig")
            | _ => Ret (prop cur "gitConfig") end) as [g|e]; [|discriminate].
  cbn [mbind Outcome_bind] in Himp. injection Himp as <-. done.
Qed.

Lemma table_kept_loop (table : string) (rest : list column)
    (params : json → Outcome (list (string * json))) (data : json)
    (rows rows' : list Row) :
  keeps_id params →
  match prop data table with
  | Some (JArr items) =>
      insert_all table (mkColumn "id" TEXT false :: rest) params items rows
  | _ => Ret rows
  end = Ret rows' →
  table_kept table data rows rows'.
Proof.
  intros Hid Hloop. unfold table_kept, payload_ids.
  destruct (prop data table) as [[]|];
    try (injection Hloop as <-; repeat split; [done..|intros v Hv; inversion Hv]).
  eapply insert_all_kept; eauto.
Qed.

(** A committed import keeps every row whose id the payload does not carry,
    loses no id, and holds the ids of the payload. *)
Lemma importTx_kept (t : string) (data : json) (d d' : Database) :
  importTx t data d = Ret d' →
  table_kept "hosts" data (hosts d) (hosts d') ∧
  table_kept "snippets" data (snippets d) (snippets d').
Proof.
  unfold importTx. intros Htx.
  destruct (match prop data "hosts" with
            | Some (JArr items) => insert_all "hosts" hosts_schema (tagged_params t) items (hosts d)
            | _ => Ret (hosts d) end) as [hs|e] eqn:Hhs; [|discriminate].
  cbn [mbind Outcome_bind] in Htx.
  destruct (match prop data "snippets" with
            | Some (JArr items) =>
                insert_all "snippets" snippets_schema (tagged_params t) items (snippets d)
            | _ => Ret (snippets d) end) as [ss|e] eqn:Hss; [|discriminate].
  cbn [mbind Outcome_bind] in Htx.
  apply table_kept_loop in Hhs; [|apply tagged_params_id].
  apply table_kept_loop in Hss; [|apply tagged_params_id].
  set (d1 := mkDatabase hs ss (settings d) (remote_connections d)) in *.
  destruct (match prop data "settings" with
            | Some s => if truthy s then import_settings s d1 else Ret d1
            | None => Ret d1 end) as [d2|e] eqn:Hd2; [|discriminate].
  cbn [mbind Outcome_bind] in Htx.
  assert (hosts d2 = hs ∧ snippets d2 = ss) as [Hh2 Hs2].
  { destruct (prop data "settings") as [s|]; [|by injection Hd2 as <-].
    destruct (truthy s); [|by injection Hd2 as <-].
    by apply import_settings_tables in Hd2. }
  destruct (match prop data "remoteConnections" with
            | Some (JArr items) =>
                insert_all "remote_connections" remote_connections_schema (dated_params t)
                  items (remote_connections d2)
            | _ => Ret (remote_connections d2) end) as [rcs|e]; [|discriminate].
  cbn [mbind Outcome_bind] in Htx. injection Htx as <-. simpl.
  rewrite Hh2, Hs2. done.
Qed.

(** *** What a merge keeps *)

Lemma kept_refl (table : string) (rows : list Row) : kept [] table rows rows.
Proof. repeat split; [by left|done|]. intros data v Hin. inversion Hin. Qed.

Lemma kept_trans (table : string) (evs1 evs2 : list Event) (r0 r1 r2 : list Row) :
  kept evs1 table r0 r1 → kept evs2 table r1 r2 → kept (evs1 ++ evs2) table r0 r2.
Proof.
  intros (Hk1 & Hp1 & Hi1) (Hk2 & Hp2 & Hi2). repeat split.
  - intros row Hin. destruct (Hk1 row Hin) as [Hin1|(data & He & Hpk)].
    + destruct (Hk2 row Hin1) as [Hin2|(data & He & Hpk)]; [by left|].
      right. exists data. split; [|done]. apply elem_of_app. by right.
    + right. exists data. split; [|done]. apply elem_of_app. by left.
  - auto.
  - intros data v [He|He]%elem_of_app Hv; eauto.
Qed.

#[local] Instance merge_rel_preorder : PreOrder merge_rel.
Proof.
  split.
  - intros w. exists []. rewrite app_nil_r. eauto using kept_refl.
  - intros w0 w1 w2 (evs1 & Ht1 & Hh1 & Hs1) (evs2 & Ht2 & Hh2 & Hs2).
    exists (evs1 ++ evs2)%list. rewrite Ht2, Ht1, app_assoc.
    eauto using kept_trans.
Qed.

(** A step that leaves the record store alone and commits no import. *)
Lemma merge_rel_frame (w w' : World) (evs : list Event) :
  db w' = db w →
  trace w' = (trace w ++ evs)%list →
  Forall (λ e, is_imported e = false) evs →
  merge_rel w w'.
Proof.
  intros Hdb Htr Hev. exists evs. split; [done|].
  unfold hosts_of, snippets_of. rewrite Hdb.
  assert (∀ data, EImported data ∉ evs) as Hno.
  { intros data Hin. rewrite Forall_forall in Hev. by apply Hev in Hin. }
  split; (repeat split; [by left|done|]); intros data v Hin; by apply Hno in Hin.
Qed.

Lemma importData_merge (data : json) : steps merge_rel (importData data).
Proof.
  intros w. unfold exec, importData.
  destruct (db w) as [d|] eqn:Hdb; [|reflexivity].
  destruct (truthy data); [|reflexivity]. cbn [negb].
  destruct (importTx (now w) data d) as [d'|e] eqn:Htx; [|reflexivity].
  apply importTx_kept in Htx as [(Hk1 & Hp1 & Hi1) (Hk2 & Hp2 & Hi2)].
  exists [EImported data]. split; [reflexivity|].
  unfold hosts_of, snippets_of. cbn [snd emit set_db db]. rewrite Hdb.
  split; repeat split; try done.
  - intros row Hin. destruct (decide (pk row ∈ payload_ids data "hosts")) as [Hpk|Hpk].
    + right. exists data. split; [apply list_elem_of_singleton|]; done.
    + left. auto.
  - intros data' v Hin%list_elem_of_singleton Hv. injection Hin as ->. auto.
  - intros row Hin. destruct (decide (pk row ∈ payload_ids data "snippets")) as [Hpk|Hpk].
    + right. exists data. split; [apply list_elem_of_singleton|]; done.
    + left. auto.
  - intros data' v Hin%list_elem_of_singleton Hv. injection Hin as ->. auto.
Qed.

#[local] Hint Resolve importData_merge : steps_db.

Ltac merge_leaf :=
  repeat case_match;
  first
  [ reflexivity
  | eapply (merge_rel_frame _ _ []);
      [reflexivity | cbn; rewrite app_nil_r; reflexivity | constructor]
  | eapply (merge_rel_frame _ _ [_]);
      [reflexivity | reflexivity | repeat constructor] ].

Section MergeSync.
Context `{Sodium}.

Lemma runSyncBody_merge (env : GitEnv) (lg : Login) (safeUrl mode commitMessage : string) :
  steps merge_rel (runSyncBody env lg safeUrl mode commitMessage).
Proof. steps_go ltac:(idtac; merge_leaf). Qed.

Lemma runSync_merge (fuel : nat) (env : bool → GitEnv) (lg : Login)
    (safeUrl mode commitMessage : string) (retry : bool) :
  steps merge_rel (runSync fuel env lg safeUrl mode commitMessage retry).
Proof.
  revert retry. induction fuel as [|fuel IH]; intros retry; cbn [runSync].
  - steps_go ltac:(idtac; merge_leaf).
  - pose proof (runSyncBody_merge (env retry) lg safeUrl mode commitMessage).
    pose proof (IH false).
    steps_go ltac:(idtac; merge_leaf).
Qed.

Lemma git_sync_merge (fuel : nat) (env : bool → GitEnv)
    (token url username mode commitMessage : string) :
  steps merge_rel (git_sync fuel env token url username mode commitMessage).
Proof.
  unfold git_sync.
  assert (∀ lg u, steps merge_rel (runSync fuel env lg u mode commitMessage true))
    by (intros; apply runSync_merge).
  steps_go ltac:(idtac; merge_leaf).
Qed.

End MergeSync.

(** ** The import step of a sync *)

#[local] Instance db_key_frame_preorder :
  PreOrder (λ w w' : World, db w' = db w ∧ masterKey w' = masterKey w).
Proof.
  split; [done|]. intros a b c [? ?] [? ?]. split; congruence.
Qed.

Section DataImport.
Context `{Sodium}.

Lemma saveDirect_unwritable (w : World) (key : bytes) (v : json) :
  masterKey w = Some key →
  unwritable w VAULT_PATH = true →
  ∃ err w2, saveDirect v w = (Ret (Failure err), w2) ∧
    db w2 = db w ∧ trace w2 = trace w ∧
    (torn w VAULT_PATH = None → vault_file w2 = vault_file w) ∧
    (∀ n c, torn w VAULT_PATH = Some n →
       crypto_secretbox_easy (from_string (JSON_stringify v)) (next_nonce w) key = Ret c →
       vault_file w2 =
       Some (substring 0 n
               (JSON_stringify
                  (json_of_envelope (mkEnvelope (to_hex (next_nonce w)) (to_hex c)))))).
Proof.
  intros Hk Hu. unfold saveDirect, seal, randombytes_buf, writeFileSync. munfold.
  rewrite Hk. fold (next_nonce w).
  destruct (crypto_secretbox_easy _ _ _) as [c|e]; cbn [unwritable set_cursor];
    rewrite ?Hu; do 2 eexists; (split; [reflexivity|]).
  - unfold failed_write. cbn [torn set_cursor].
    split; [by destruct (torn w VAULT_PATH)|].
    split; [by destruct (torn w VAULT_PATH)|]. split.
    + intros Ht. by rewrite Ht.
    + intros n c' Ht [= <-]. by rewrite Ht.
  - split; [reflexivity|]. split; [reflexivity|]. split; [reflexivity|].
    intros n c' _ [=].
Qed.

Lemma saveDirect_writable (w : World) (key c : bytes) (v : json) :
  masterKey w = Some key →
  unwritable w VAULT_PATH = false →
  crypto_secretbox_easy (from_string (JSON_stringify v)) (next_nonce w) key = Ret c →
  saveDirect v w =
  (Ret (Success tt),
   set_vault_file
     (Some (JSON_stringify (json_of_envelope (mkEnvelope (to_hex (next_nonce w)) (to_hex c)))))
     (set_cursor (cursor w + NONCE_BYTES) w)).
Proof.
  intros Hk Hu Hc. unfold saveDirect, seal, randombytes_buf, writeFileSync. munfold.
  rewrite Hk. fold (next_nonce w). rewrite Hc. cbn [unwritable set_cursor].
  rewrite Hu. reflexivity.
Qed.

Lemma saveDirect_steps_db (v : json) :
  steps (λ w w', db w' = db w ∧ masterKey w' = masterKey w) (saveDirect v).
Proof. steps_go ltac:(idtac; split; reflexivity). Qed.

(** The import step, once the payload file has decrypted to an object with a
    truthy [db] and a truthy [vault]. *)
Lemma data_import_combined (w : World) (sd : SyncDir) (mode raw : string)
    (encData d v : json) (fields : list (string * json)) :
  String.eqb mode "push" = false →
  sync_dir w = Some sd →
  worktree sd !! "zenmius_db.enc" = Some raw →
  JSON_parse raw = Some encData →
  decryptData encData w = (Ret (Success (JObj fields)), w) →
  obj_get "db" fields = Some d → truthy d = true →
  obj_get "vault" fields = Some v → truthy v = true →
  data_import mode w =
  match importData d w with
  | (Throw e, w0) => log ("Import failed: " ++ message e) w0
  | (Ret _, w1) =>
      match saveDirect v w1 with
      | (Ret (Success _), w2) =>
          (log "Vault data merged from sync.";; log "Data imported from sync file.") w2
      | (Ret (Failure err), w2) =>
          (log ("Vault import warning: " ++ err);; log "Data imported from sync file.") w2
      | (Throw e, w2) => log ("Import failed: " ++ message e) w2
      end
  end.
Proof.
  intros Hmode Hsd Hraw Hparse Hdec Hd Htd Hv Htv.
  unfold data_import. rewrite bind_unfold. unfold existsSync, ENC_DB_FILE at 1.
  rewrite Hsd, Hraw, bool_decide_eq_true_2 by eauto. rewrite Hmode. cbn [negb andb].
  unfold try_catch. rewrite bind_unfold.
  unfold readFileSync, ENC_DB_FILE at 1. rewrite Hsd, Hraw. cbn [or_throw]. unfold ret at 1.
  rewrite bind_unfold. unfold JSON_parse_M. rewrite Hparse. cbn [or_throw]. unfold ret at 1.
  rewrite (bind_ret_l _ _ _ _ _ Hdec).
  rewrite bind_unfold. unfold js_get at 1. unfold ret at 1. rewrite Hd. cbn [truthy_opt].
  rewrite Htd. rewrite bind_unfold. unfold js_get at 1. unfold ret at 1. rewrite Hv.
  rewrite Htv. cbn [andb].
  rewrite !bind_unfold.
  destruct (importData d w) as [[[]|e] w1]; [|reflexivity].
  rewrite !bind_unfold.
  destruct (saveDirect v w1) as [[[[]|err]|e] w2]; reflexivity.
Qed.


Lemma new_events_app (w w' : World) (evs : list Event) :
  trace w' = (trace w ++ evs)%list → new_events w w' = evs.
Proof. intros Ht. unfold new_events. rewrite Ht. apply drop_app_length. Qed.

(** C3 (as the code has it).  In a mode other than push, once the payload
    file has decrypted to [{ db, vault }]: the record store import is applied
    in one transaction, and the vault document is saved after it.  When the
    transaction throws, neither the record store nor the vault file is
    modified.  When it commits, the record store holds the import; the vault
    file then receives the sealed document if it can be written.  If it
    cannot, the step logs a warning and leaves the record store as imported:
    the vault file keeps its content when the write is refused as the file
    is opened, and holds a prefix of the new envelope and nothing of its old
    content when the write fails after the open. *)
Theorem import_commits_records_then_saves_vault (w : World) (sd : SyncDir)
    (mode raw : string) (encData d v : json) (fields : list (string * json))
    (key : bytes) (dbase : Database) :
  String.eqb mode "push" = false →
  sync_dir w = Some sd →
  worktree sd !! "zenmius_db.enc" = Some raw →
  JSON_parse raw = Some encData →
  masterKey w = Some key →
  decryptData encData w = (Ret (Success (JObj fields)), w) →
  obj_get "db" fields = Some d → truthy d = true →
  obj_get "vault" fields = Some v → truthy v = true →
  db w = Some dbase →
  let w' := exec (data_import mode) w in
  (∀ e, importTx (now w) d dbase = Throw e →
        db w' = db w ∧ vault_file w' = vault_file w) ∧
  (∀ d', importTx (now w) d dbase = Ret d' →
     db w' = Some d' ∧
     (unwritable w VAULT_PATH = true →
        (∃ err, ELog ("Vault import warning: " ++ err) ∈ new_events w w') ∧
        (torn w VAULT_PATH = None → vault_file w' = vault_file w) ∧
        (∀ n c, torn w VAULT_PATH = Some n →
           crypto_secretbox_easy (from_string (JSON_stringify v)) (next_nonce w) key
             = Ret c →
           vault_file w' =
           Some (substring 0 n
                   (JSON_stringify
                      (json_of_envelope
                         (mkEnvelope (to_hex (next_nonce w)) (to_hex c))))))) ∧
     (unwritable w VAULT_PATH = false →
        ∀ c, crypto_secretbox_easy (from_string (JSON_stringify v)) (next_nonce w) key
             = Ret c →
        vault_file w' =
        Some (JSON_stringify
                (json_of_envelope (mkEnvelope (to_hex (next_nonce w)) (to_hex c)))))).
Proof.
  intros Hmode Hsd Hraw Hparse Hk Hdec Hd Htd Hv Htv Hdb w'.
  pose proof (data_import_combined w sd mode raw encData d v fields
                Hmode Hsd Hraw Hparse Hdec Hd Htd Hv Htv) as Hcomb.
  assert (importData d w =
          match importTx (now w) d dbase with
          | Ret d' => (Ret tt, emit (EImported d) (set_db (Some d') w))
          | Throw e => (Throw e, w)
          end) as Himp
    by (unfold importData; rewrite Hdb, Htd; reflexivity).
  rewrite Himp in Hcomb. unfold w', exec. clear w' Himp.
  split.
  - intros e He. rewrite He in Hcomb. rewrite Hcomb. split; reflexivity.
  - intros d' Hd'. rewrite Hd' in Hcomb.
    set (w1 := emit (EImported d) (set_db (Some d') w)) in *.
    assert (masterKey w1 = Some key) as Hk1 by exact Hk.
    split; [|split].
    + destruct (saveDirect_steps_db v w1) as [Hdb2 _].
      unfold exec in Hdb2. rewrite Hcomb.
      destruct (saveDirect v w1) as [[[[]|err]|e] w2]; exact Hdb2.
    + intros Hu. destruct (saveDirect_unwritable w1 key v Hk1 Hu)
        as (err & w2 & Hsave & _ & Htr & Hrefused & Htorn).
      rewrite Hsave in Hcomb. rewrite Hcomb.
      split; [|split; [exact Hrefused|exact Htorn]]. exists err.
      assert (trace ((log ("Vault import warning: " ++ err)
                      ≫= λ _, log "Data imported from sync file.") w2).2
              = (trace w ++ [EImported d; ELog ("Vault import warning: " ++ err);
                             ELog "Data imported from sync file."])%list) as Htrace.
      { change (trace (_ w2).2) with
          ((trace w2 ++ [ELog ("Vault import warning: " ++ err)])
             ++ [ELog "Data imported from sync file."])%list.
        rewrite Htr. change (trace w1) with (trace w ++ [EImported d])%list.
        rewrite <- !app_assoc. reflexivity. }
      rewrite (new_events_app _ _ _ Htrace). set_solver.
    + intros Hu c Hc.
      rewrite (saveDirect_writable w1 key c v Hk1 Hu Hc) in Hcomb. rewrite Hcomb.
      reflexivity.
Qed.

End DataImport.

(** ** Traces of a sync *)

#[local] Instance emits_preorder (P : Event → Prop) : PreOrder (emits P).
Proof.
  split.
  - intros w. exists []. rewrite app_nil_r. done.
  - intros a b c (e1 & H1 & F1) (e2 & H2 & F2). exists (e1 ++ e2)%list.
    rewrite H2, H1, app_assoc. split; [done|]. by apply Forall_app.
Qed.

Ltac emits_leaf solveP :=
  repeat case_match;
  first
  [ reflexivity
  | exists []; split; [cbn; rewrite app_nil_r; reflexivity | constructor]
  | eexists [_]; split; [reflexivity | constructor; [solveP | constructor]] ].

Lemma emits_weaken (P Q : Event → Prop) (w w' : World) :
  (∀ e, P e → Q e) → emits P w w' → emits Q w w'.
Proof.
  intros HPQ (evs & Ht & Hf). exists evs. split; [done|].
  eapply Forall_impl; eauto.
Qed.

Lemma emits_new_events (P : Event → Prop) (w w' : World) :
  emits P w w' → trace w' = (trace w ++ new_events w w')%list ∧ Forall P (new_events w w').
Proof. intros (evs & Ht & Hf). rewrite (new_events_app _ _ _ Ht). done. Qed.

Lemma quiet_filter (evs : list Event) :
  Forall quiet evs → filter (λ e, is_self_heal e = true) evs = [].
Proof.
  induction 1 as [|e evs He _ IH]; [done|].
  rewrite filter_cons. unfold quiet in He. rewrite He.
  destruct (decide (false = true)); [done|]. exact IH.
Qed.

Section SyncTraces.
Context `{Sodium}.
Context (lg : Login).

Lemma runSyncBody_quiet (env : GitEnv) (safeUrl mode commitMessage : string) :
  steps (emits quiet) (runSyncBody env lg safeUrl mode commitMessage).
Proof. steps_go ltac:(idtac; emits_leaf ltac:(reflexivity)). Qed.

Lemma runSync_unfold (fuel : nat) (env : bool → GitEnv)
    (safeUrl mode commitMessage : string) (retry : bool) (w : World) :
  runSync (S fuel) env lg safeUrl mode commitMessage retry w =
  match runSyncBody (env retry) lg safeUrl mode commitMessage w with
  | (Ret _, w1) => (Ret (Some (Success tt)), w1)
  | (Throw e, w1) =>
      if retry && corruption_signature e
      then runSync fuel env lg safeUrl mode commitMessage false (exec (self_heal e) w1)
      else (Ret (Some (Failure (message e))), emit (ELog ("CRITICAL: " ++ message e)) w1)
  end.
Proof.
  cbn [runSync]. unfold try_catch. rewrite bind_unfold.
  destruct (runSyncBody (env retry) lg safeUrl mode commitMessage w) as [[[]|e] w1];
    [reflexivity|].
  rewrite bind_unfold. unfold log at 1, modify at 1.
  destruct (retry && corruption_signature e); [|reflexivity].
  unfold exec, self_heal, log, sync_dir_exists, rmSync_SYNC_DIR. munfold.
  cbn [sync_dir emit]. destruct (bool_decide _); reflexivity.
Qed.


Lemma self_heal_trace (e : JsError) (w : World) :
  ∃ evs, trace (exec (self_heal e) w)
         = (trace w ++ ELog ("CRITICAL: " ++ message e) :: ELog self_heal_message :: evs)%list
         ∧ Forall quiet evs.
Proof.
  unfold exec, self_heal, log, sync_dir_exists, rmSync_SYNC_DIR. munfold.
  cbn [sync_dir emit]. destruct (bool_decide _); cbn [snd trace emit set_sync_dir].
  - exists [EWiped]. rewrite <- !app_assoc. split; [reflexivity|]. repeat constructor.
  - exists []. rewrite <- !app_assoc. split; [reflexivity|]. constructor.
Qed.

Lemma self_heals_quiet (w w' : World) : emits quiet w w' → self_heals w w' = 0.
Proof.
  intros [_ Hq]%emits_new_events. unfold self_heals. by rewrite quiet_filter.
Qed.

Lemma self_heals_once (w w' : World) (evs1 evs2 : list Event) (msg : string) :
  trace w' = (trace w ++ evs1 ++ ELog msg :: ELog self_heal_message :: evs2)%list →
  Forall quiet evs1 → Forall quiet (ELog msg :: evs2) →
  self_heals w w' = 1.
Proof.
  intros Ht H1 H2. unfold self_heals. rewrite (new_events_app _ _ _ Ht).
  rewrite filter_app, (quiet_filter _ H1). cbn [app].
  inversion H2 as [|? ? Hm H2']; subst.
  rewrite filter_cons. unfold quiet in Hm. rewrite Hm.
  destruct (decide (false = true)); [done|].
  rewrite filter_cons. cbn [is_self_heal]. rewrite String.eqb_refl.
  destruct (decide (true = true)); [|done].
  by rewrite (quiet_filter _ H2').
Qed.

(** C4.  [runSync(true)] needs two units of fuel and no more: it always
    returns, with the same result whatever the extra fuel, after at most one
    self-heal cycle; and when the retry fails too, that failure is what the
    caller receives. *)
Theorem self_heal_runs_at_most_once (fuel : nat) (env : bool → GitEnv)
    (safeUrl mode commitMessage : string) (w : World) :
  let r := runSync (S (S fuel)) env lg safeUrl mode commitMessage true w in
  (∃ res, r.1 = Ret (Some res)) ∧
  r = runSync 2 env lg safeUrl mode commitMessage true w ∧
  (self_heals w r.2 ≤ 1)%nat ∧
  (∀ e1 w1 e2 w2,
     runSyncBody (env true) lg safeUrl mode commitMessage w = (Throw e1, w1) →
     corruption_signature e1 = true →
     runSyncBody (env false) lg safeUrl mode commitMessage (exec (self_heal e1) w1)
       = (Throw e2, w2) →
     r = (Ret (Some (Failure (message e2))), emit (ELog ("CRITICAL: " ++ message e2)) w2)).
Proof.
  intros r. unfold r. clear r. rewrite !(runSync_unfold _ env _ _ _ true).
  pose proof (runSyncBody_quiet (env true) safeUrl mode commitMessage w) as Hq1.
  unfold exec in Hq1.
  destruct (runSyncBody (env true) lg safeUrl mode commitMessage w) as [[[]|e1] w1].
  - cbn [fst snd] in *. split; [eauto|]. split; [done|]. split.
    + rewrite self_heals_quiet by done. lia.
    + intros e1 w1' e2 w2 [=].
  - cbn [andb fst snd] in *. destruct (corruption_signature e1) eqn:Hsig.
    + rewrite !(runSync_unfold _ env _ _ _ false). cbn [andb].
      set (w2 := exec (self_heal e1) w1).
      pose proof (runSyncBody_quiet (env false) safeUrl mode commitMessage w2) as Hq2.
      unfold exec in Hq2.
      destruct Hq1 as (evs1 & Ht1 & Hf1).
      destruct (self_heal_trace e1 w1) as (evsh & Hth & Hfh). fold w2 in Hth.
      destruct (runSyncBody (env false) lg safeUrl mode commitMessage w2)
        as [[[]|e2] w3] eqn:Hb2;
        cbn [fst snd] in *; destruct Hq2 as (evs2 & Ht2 & Hf2).
      * split; [eauto|]. split; [done|]. split.
        -- erewrite (self_heals_once w w3 evs1 (evsh ++ evs2)); [lia| |done|].
           ++ rewrite Ht2, Hth, Ht1, <- !app_assoc. reflexivity.
           ++ constructor; [reflexivity|]. by apply Forall_app.
        -- intros e1' w1' e2' w2' [= <- <-] _ Hb. fold w2 in Hb. congruence.
      * split; [eauto|]. split; [done|]. split.
        -- erewrite (self_heals_once w _ evs1
                       (evsh ++ evs2 ++ [ELog ("CRITICAL: " ++ message e2)])); [lia| |done|].
           ++ cbn [trace emit]. rewrite Ht2, Hth, Ht1, <- !app_assoc. reflexivity.
           ++ constructor; [reflexivity|]. apply Forall_app. split; [done|].
              apply Forall_app. split; [done|]. repeat constructor.
        -- intros e1' w1' e2' w2' [= <- <-] _ Hb. fold w2 in Hb.
           rewrite Hb2 in Hb. injection Hb as <- <-. reflexivity.
    + split; [eauto|]. split; [done|]. split.
      * rewrite self_heals_quiet; [lia|].
        destruct Hq1 as (evs1 & Ht1 & Hf1).
        exists (evs1 ++ [ELog ("CRITICAL: " ++ message e1)])%list. split.
        -- cbn [snd trace emit]. rewrite Ht1, <- app_assoc. reflexivity.
        -- apply Forall_app. split; [done|]. repeat constructor.
      * intros e1' w1' e2 w2 [= <- <-] Hs. congruence.
Qed.

End SyncTraces.

(** ** The probe of the remote *)

Lemma steps_bind_const {A B} (R : relation World) `{!PreOrder R}
    (m : M A) (k : A → M B) (a0 : A) :
  (∀ w, run m w = Ret a0) → steps R m → steps R (k a0) → steps R (m ≫= k).
Proof.
  intros Hrun Hm Hk w. specialize (Hrun w). specialize (Hm w). unfold run, exec in *.
  rewrite bind_unfold. destruct (m w) as [o w1]. simpl in *. subst o.
  etrans; [exact Hm|apply Hk].
Qed.

Lemma pushed_extend_l (w w1 w' : World) :
  emits any_event w w1 → pushed w1 w' → pushed w w'.
Proof.
  intros (e1 & H1 & _) (e2 & H2 & Hin). exists (e1 ++ e2)%list.
  rewrite H2, H1, app_assoc. split; [done|]. apply elem_of_app. by right.
Qed.

Lemma pushed_extend_r (w w1 w' : World) :
  pushed w w1 → emits any_event w1 w' → pushed w w'.
Proof.
  intros (e1 & H1 & Hin) (e2 & H2 & _). exists (e1 ++ e2)%list.
  rewrite H2, H1, app_assoc. split; [done|]. apply elem_of_app. by left.
Qed.

Lemma ensures_throw {A} (Q : relation World) (e : JsError) : ensures Q (@throw A e).
Proof. intros w a w' [=]. Qed.

Lemma ensures_bind_r {A B} (m : M A) (k : A → M B) :
  steps (emits any_event) m → (∀ a, ensures pushed (k a)) → ensures pushed (m ≫= k).
Proof.
  intros Hm Hk w b w' Hrun. specialize (Hm w). unfold exec in Hm.
  rewrite bind_unfold in Hrun. destruct (m w) as [[a|e] w1]; [|discriminate].
  eapply pushed_extend_l; [exact Hm|]. eapply Hk. exact Hrun.
Qed.

Lemma ensures_bind_l {A B} (m : M A) (k : A → M B) :
  ensures pushed m → (∀ a, steps (emits any_event) (k a)) → ensures pushed (m ≫= k).
Proof.
  intros Hm Hk w b w' Hrun.
  rewrite bind_unfold in Hrun. destruct (m w) as [[a|e] w1] eqn:Hmw; [|discriminate].
  eapply pushed_extend_r; [eapply Hm; exact Hmw|].
  specialize (Hk a w1). unfold exec in Hk. rewrite Hrun in Hk. exact Hk.
Qed.

Lemma ensures_bind_const {A B} (m : M A) (k : A → M B) (a0 : A) :
  (∀ w, run m w = Ret a0) → steps (emits any_event) m →
  ensures pushed (k a0) → ensures pushed (m ≫= k).
Proof.
  intros Hret Hm Hk w b w' Hrun. specialize (Hm w). specialize (Hret w).
  unfold exec, run in *.
  rewrite bind_unfold in Hrun. destruct (m w) as [o w1]. simpl in *. subst o.
  eapply pushed_extend_l; [exact Hm|]. eapply Hk. exact Hrun.
Qed.

Lemma git_push_pushed (env : GitEnv) (lg : Login) :
  ensures pushed (git_push env lg true).
Proof.
  intros w [] w'. unfold git_push, onAuth, git_call. munfold. cbn [emit trace].
  destruct (getOnAuth_closure lg) as [[t u]|e]; [|discriminate].
  destruct (r_error (env OpPush)); [discriminate|]. intros [= <-].
  exists [EOnAuth t u; EPush true; EGit OpPush;
          EReceived match sync_dir w with
                    | Some (mkSyncDir _ (Some repo)) => tip repo
                    | _ => None
                    end].
  cbn [trace emit sync_dir]. rewrite <- !app_assoc. split; [reflexivity|]. set_solver.
Qed.

Ltac any_leaf := emits_leaf ltac:(exact I).

Section Probe.
Context `{Sodium}.
Context (lg : Login).

Lemma remote_check_fails (env : GitEnv) (e : JsError) (w : World) :
  r_error (env OpListServerRefs) = Some e →
  run (remote_check env lg) w = Ret false.
Proof.
  intros He. unfold remote_check, git_listServerRefs, onAuth, git_call, log, run. munfold.
  destruct (getOnAuth_closure lg) as [[t u]|e']; [|reflexivity].
  rewrite He. reflexivity.
Qed.

Lemma commit_and_push_pushed (env : GitEnv) (commitMessage : string) :
  ensures pushed (commit_and_push env lg "merge" commitMessage false).
Proof.
  unfold commit_and_push. cbn [String.eqb Ascii.eqb Bool.eqb orb negb andb].
  apply ensures_bind_r; [steps_go ltac:(idtac; any_leaf)|intros _].
  apply ensures_bind_r; [steps_go ltac:(idtac; any_leaf)|intros dbData].
  apply ensures_bind_r; [steps_go ltac:(idtac; any_leaf)|intros vaultRes].
  apply ensures_bind_r; [steps_go ltac:(idtac; any_leaf)|intros [payload|err]];
    [|apply ensures_throw].
  do 9 (apply ensures_bind_r; [steps_go ltac:(idtac; any_leaf)|intros ?]).
  apply ensures_bind_l; [apply git_push_pushed|intros _].
  steps_go ltac:(idtac; any_leaf).
Qed.


Ltac forced_leaf :=
  emits_leaf ltac:(unfold forced; cbn [String.eqb Ascii.eqb Bool.eqb orb negb];
                   split; discriminate).

Lemma remote_check_any (env : GitEnv) : steps (emits any_event) (remote_check env lg).
Proof. steps_go ltac:(idtac; any_leaf). Qed.

Lemma remote_check_forced (env : GitEnv) : steps (emits forced) (remote_check env lg).
Proof. steps_go ltac:(idtac; forced_leaf). Qed.

(** C9.  When listing the refs of the remote fails, the probe does not fail:
    it answers [remoteHasData = false].  The attempt, in merge mode, then
    pulls nothing and calls push with [force = true] only; and an attempt
    that completes has called push with [force = true]. *)
Theorem failed_probe_forces_push (env : GitEnv) (safeUrl commitMessage : string)
    (e : JsError) (w : World) :
  r_error (env OpListServerRefs) = Some e →
  let w' := exec (runSyncBody env lg safeUrl "merge" commitMessage) w in
  (∀ w0, run (remote_check env lg) w0 = Ret false) ∧
  Forall forced (new_events w w') ∧
  (run (runSyncBody env lg safeUrl "merge" commitMessage) w = Ret tt →
   EPush true ∈ new_events w w').
Proof.
  intros He w'.
  assert (∀ w0, run (remote_check env lg) w0 = Ret false) as Hprobe.
  { intros w0. by apply (remote_check_fails env e). }
  split; [exact Hprobe|]. split.
  - assert (steps (emits forced) (runSyncBody env lg safeUrl "merge" commitMessage)) as Hst.
    { unfold runSyncBody.
      refine (steps_bind _ _ _ _ _); [steps_go ltac:(idtac; forced_leaf)|intros _].
      refine (steps_bind _ _ _ _ _); [steps_go ltac:(idtac; forced_leaf)|intros _].
      refine (steps_bind_const _ _ _ false Hprobe _ _);
        [apply remote_check_forced|].
      unfold pull_step. cbn [andb].
      steps_go ltac:(idtac; forced_leaf). }
    apply emits_new_events. apply Hst.
  - assert (ensures pushed (runSyncBody env lg safeUrl "merge" commitMessage)) as Hen.
    { unfold runSyncBody.
      apply ensures_bind_r; [steps_go ltac:(idtac; any_leaf)|intros _].
      apply ensures_bind_r; [steps_go ltac:(idtac; any_leaf)|intros _].
      apply (ensures_bind_const _ _ false Hprobe); [apply remote_check_any|].
      apply ensures_bind_r; [steps_go ltac:(idtac; any_leaf)|intros _].
      apply ensures_bind_r; [steps_go ltac:(idtac; any_leaf)|intros _].
      apply commit_and_push_pushed. }
    intros Hret. unfold w', run, exec in *.
    destruct (runSyncBody env lg safeUrl "merge" commitMessage w) as [o w1] eqn:Hb.
    simpl in Hret. subst o. destruct (Hen _ _ _ Hb) as (evs & Ht & Hin).
    cbn [snd]. by rewrite (new_events_app _ _ _ Ht).
Qed.

End Probe.

(** ** A merge keeps the local records *)

Section Merge.
Context `{Sodium}.

(** C8.  After [git:sync] in merge mode every local host and every local
    snippet is still in the record store, unless an import committed during
    that sync carried a record with its id; and the ids of every committed
    import are in the record store: the local-only and the imported records
    are both present. *)
Theorem merge_keeps_local_only_records (fuel : nat) (env : bool → GitEnv)
    (token url username commitMessage : string) (w : World) :
  let w' := exec (git_sync fuel env token url username "merge" commitMessage) w in
  let evs := new_events w w' in
  (∀ row, row ∈ hosts_of w →
     row ∈ hosts_of w' ∨ ∃ data, EImported data ∈ evs ∧ pk row ∈ payload_ids data "hosts") ∧
  (∀ row, row ∈ snippets_of w →
     row ∈ snippets_of w' ∨
     ∃ data, EImported data ∈ evs ∧ pk row ∈ payload_ids data "snippets") ∧
  (∀ data, EImported data ∈ evs →
     (∀ v, v ∈ payload_ids data "hosts" → v ∈ pks (hosts_of w')) ∧
     (∀ v, v ∈ payload_ids data "snippets" → v ∈ pks (snippets_of w'))).
Proof.
  intros w' evs.
  destruct (git_sync_merge fuel env token url username "merge" commitMessage w)
    as (evs' & Ht & (Hh1 & _ & Hh3) & (Hs1 & _ & Hs3)).
  fold w' in Ht, Hh1, Hh3, Hs1, Hs3.
  unfold evs. rewrite (new_events_app _ _ _ Ht). eauto 10.
Qed.

End Merge.

(** Machine B merges what machine A pushed: it keeps its own host and
    receives the host of machine A. *)
Example merge_on_machine_b :
  let w' := exec (@git_sync ref_sodium 2 (λ _, env_remote_has_data) "tok123" sample_url
                    "alice" "merge" "") machine_b in
  pks (hosts_of machine_b) = [SText "local-1"] ∧
  payload_ids incoming_db "hosts" = [SText "remote-1"] ∧
  pks (hosts_of w') = [SText "local-1"; SText "remote-1"].
Proof. conjs; vm_compute; reflexivity. Qed.

(** ** Concrete runs *)

(** C1: the code departs from the claim.  After [git:clone], a [git:sync]
    in merge mode succeeds and the tree the remote receives holds the
    credentials cache, token included, as plain JSON. *)
Theorem credentials_cache_reaches_remote :
  let r := @git_sync ref_sodium 2 (λ _, env_remote_has_data) "tok123" sample_url "alice"
             "merge" "" machine_cloned in
  r.1 = Ret (Some (Success tt)) ∧
  (λ t : Files, t !! ".git-credentials-cache.json") <$> received r.2
    = [Some credentials_json] ∧
  JSON_parse credentials_json
    = Some (JObj [("url", JStr sample_url); ("token", JStr "tok123");
                  ("username", JStr "alice")]) ∧
  (λ t : Files, bool_decide (is_Some (t !! "zenmius_db.enc"))) <$> received r.2 = [true].
Proof. conjs; vm_compute; reflexivity. Qed.

(** C2, as stated, fails.  With the metadata file read-only the handler
    fails after the envelope is written: the old salt stays on disk beside
    the new envelope, and neither the old nor the new password opens the
    vault any more.  With the vault file read-only nothing is written, the
    salt included: the envelope is written first. *)
Lemma change_password_leaves_old_salt_with_new_envelope :
  let w := world_metadata_readonly in
  let w' := exec (@vault_change_password ref_sodium "new") w in
  masterKey w = Some right_key ∧
  run (@vault_change_password ref_sodium "new") w
    = Ret (Failure "EACCES: permission denied") ∧
  meta_file w' = meta_file w ∧
  vault_file w' ≠ vault_file w ∧
  run (@vault_init ref_sodium "new") (exec vault_lock w')
    = Ret (Failure "Invalid Master Password (or corrupted vault)") ∧
  run (@vault_init ref_sodium "right") (exec vault_lock w')
    = Ret (Failure "Invalid Master Password (or corrupted vault)") ∧
  meta_file (exec (@vault_change_password ref_sodium "new") world_vault_readonly)
    = meta_file world_vault_readonly.
Proof.
  conjs; try (vm_compute; reflexivity).
  vm_compute. intros [=].
Qed.

(** A write of the envelope that fails after the file is opened: the
    handler reports the failure, the salt and the key stay, and the vault
    file holds the first bytes of the new envelope: the vault no longer
    loads. *)
Example torn_envelope_loses_the_vault :
  let w := world_vault_torn in
  let w' := exec (@vault_change_password ref_sodium "new") w in
  run (@vault_change_password ref_sodium "new") w
    = Ret (Failure "ENOSPC: no space left on device, write") ∧
  meta_file w' = meta_file w ∧ masterKey w' = masterKey w ∧
  String.length <$> vault_file w' = Some 10 ∧
  run (@vault_load ref_sodium) w = Ret (Success sample_document) ∧
  run (@vault_load ref_sodium) w' = Ret (Failure "Vault JSON corrupted").
Proof. conjs; vm_compute; reflexivity. Qed.

(** C3, as stated, fails.  On machine B with a read-only vault file the
    payload decrypts, the record store receives the host of machine A, and
    the vault file receives nothing. *)
Lemma import_updates_records_without_vault :
  let w := machine_b_readonly in
  let w' := exec (@data_import ref_sodium "merge") w in
  run (@decryptData ref_sodium incoming_envelope) w
    = Ret (Success (JObj [("db", incoming_db); ("vault", incoming_vault)])) ∧
  incoming_vault = sample_document ∧
  pks (hosts_of w) = [SText "local-1"] ∧
  pks (hosts_of w') = [SText "local-1"; SText "remote-1"] ∧
  vault_file w = None ∧ vault_file w' = None.
Proof. conjs; vm_compute; reflexivity. Qed.


(** ** Witnesses on the sample machines *)

Lemma import_commits_records_then_saves_vault_witness :
  let w := machine_b in
  let w' := exec (@data_import ref_sodium "merge") w in
  (∀ e, importTx (now w) incoming_db machine_b_db = Throw e →
        db w' = db w ∧ vault_file w' = vault_file w) ∧
  (∀ d', importTx (now w) incoming_db machine_b_db = Ret d' →
     db w' = Some d' ∧
     (unwritable w VAULT_PATH = true →
        (∃ err, ELog ("Vault import warning: " ++ err) ∈ new_events w w') ∧
        (torn w VAULT_PATH = None → vault_file w' = vault_file w) ∧
        (∀ n c, torn w VAULT_PATH = Some n →
           ref_secretbox_easy (from_string (JSON_stringify incoming_vault))
             (next_nonce w) right_key = Ret c →
           vault_file w' =
           Some (substring 0 n
                   (JSON_stringify
                      (json_of_envelope
                         (mkEnvelope (to_hex (next_nonce w)) (to_hex c))))))) ∧
     (unwritable w VAULT_PATH = false →
        ∀ c, ref_secretbox_easy (from_string (JSON_stringify incoming_vault))
               (next_nonce w) right_key = Ret c →
        vault_file w' =
        Some (JSON_stringify
                (json_of_envelope (mkEnvelope (to_hex (next_nonce w)) (to_hex c)))))).
Proof.
  apply (@import_commits_records_then_saves_vault ref_sodium machine_b incoming_dir
           "merge" incoming_raw incoming_envelope incoming_db incoming_vault
           incoming_fields right_key machine_b_db); vm_compute; reflexivity.
Defined.

Lemma failed_probe_forces_push_witness :
  let w := machine_a in
  let w' := exec (@runSyncBody ref_sodium env_probe_fails sample_login sample_url "merge" "") w in
  (r_error (env_probe_fails OpListServerRefs) = Some probe_error ∧
   run (@runSyncBody ref_sodium env_probe_fails sample_login sample_url "merge" "") w = Ret tt) ∧
  (∀ w0, run (remote_check env_probe_fails sample_login) w0 = Ret false) ∧
  Forall forced (new_events w w') ∧
  (run (@runSyncBody ref_sodium env_probe_fails sample_login sample_url "merge" "") w = Ret tt →
   EPush true ∈ new_events w w').
Proof.
  split; [conjs; vm_compute; reflexivity|].
  apply (@failed_probe_forces_push ref_sodium sample_login env_probe_fails sample_url ""
           probe_error
           machine_a).
  reflexivity.
Defined.

(** Two consecutive corruption failures: one self-heal, then the failure of
    the retry is returned. *)
Lemma self_heal_runs_at_most_once_witness :
  (@runSyncBody ref_sodium env_corrupt sample_login sample_url "merge" "" machine_a
     = (Throw head_error, corrupt_attempt1) ∧
   corruption_signature head_error = true ∧
   @runSyncBody ref_sodium env_corrupt sample_login sample_url "merge" ""
     (exec (self_heal head_error) corrupt_attempt1) = (Throw head_error, corrupt_attempt2)) ∧
  @runSync ref_sodium 2 (λ _, env_corrupt) sample_login sample_url "merge" "" true machine_a
    = (Ret (Some (Failure (message head_error))),
       emit (ELog ("CRITICAL: " ++ message head_error)) corrupt_attempt2).
Proof.
  split; [conjs; vm_compute; reflexivity|].
  apply (proj2 (proj2 (proj2
           (@self_heal_runs_at_most_once ref_sodium sample_login 0 (λ _, env_corrupt)
              sample_url
              "merge" "" machine_a)))
           head_error corrupt_attempt1 head_error corrupt_attempt2);
    vm_compute; reflexivity.
Defined.

Example self_heal_counted_once :
  let r := @runSync ref_sodium 2 (λ _, env_corrupt) sample_login sample_url "merge" "" true machine_a in
  r.1 = Ret (Some (Failure "Could not find HEAD.")) ∧ self_heals machine_a r.2 = 1.
Proof. conjs; vm_compute; reflexivity. Qed.

(** * Further properties of the handlers *)

(** ** Documents read by [JSON.parse] *)

Lemma NoDup_distinct (keys : list string) : NoDup keys → distinct keys = true.
Proof.
  induction 1 as [|k keys Hk _ IH]; [reflexivity|].
  cbn [distinct]. rewrite IH, andb_true_r. apply negb_true_iff.
  destruct (existsb (String.eqb k) keys) eqn:Hex; [|reflexivity].
  apply existsb_exists in Hex as (k' & Hin & ->%String.eqb_eq).
  by apply list_elem_of_In in Hin.
Qed.

Lemma obj_set_keys (k : string) (v : json) (fields : list (string * json)) :
  k ∈ map fst fields → map fst (obj_set k v fields) = map fst fields.
Proof.
  induction fields as [|[k' v'] fields IH]; [by intros ?%elem_of_nil|].
  cbn [map fst obj_set]. intros Hin.
  destruct (String.eqb_spec k k') as [->|Hne]; [reflexivity|].
  cbn [map fst]. f_equal. apply IH.
  apply elem_of_cons in Hin as [?|?]; done.
Qed.

Lemma obj_set_distinct (k : string) (v : json) (fields : list (string * json)) :
  distinct (map fst fields) = true → distinct (map fst (obj_set k v fields)) = true.
Proof.
  intros Hd%distinct_NoDup. apply NoDup_distinct.
  destruct (decide (k ∈ map fst fields)) as [Hin|Hout].
  - by rewrite obj_set_keys.
  - rewrite obj_set_fresh, map_app by done. apply NoDup_app.
    split; [done|]. split; [|apply NoDup_singleton].
    intros x Hx ->%list_elem_of_singleton. done.
Qed.

Lemma obj_set_forallb (P : string * json → bool) (k : string) (v : json)
    (fields : list (string * json)) :
  P (k, v) = true → forallb P fields = true → forallb P (obj_set k v fields) = true.
Proof.
  intros Hkv. induction fields as [|[k' v'] fields IH]; cbn [obj_set forallb].
  - by rewrite Hkv.
  - intros [Hp Hf]%andb_prop. destruct (String.eqb k k'); cbn [forallb].
    + by rewrite Hkv, Hf.
    + by rewrite Hp, IH.
Qed.

(** Assigning a property keeps a document well formed. *)
Lemma obj_set_wf (k : string) (v : json) (fields : list (string * json)) :
  json_wf v = true → json_wf (JObj fields) = true →
  json_wf (JObj (obj_set k v fields)) = true.
Proof.
  cbn [json_wf]. intros Hv [Hd Hf]%andb_prop.
  by rewrite obj_set_distinct, obj_set_forallb.
Qed.

Lemma fold_obj_set_wf (l acc : list (string * json)) :
  forallb (λ '(_, v), json_wf v) l = true → json_wf (JObj acc) = true →
  json_wf (JObj (fold_left (λ acc kv, obj_set kv.1 kv.2 acc) l acc)) = true.
Proof.
  revert acc. induction l as [|[k v] l IH]; intros acc; [done|].
  cbn [forallb fold_left fst snd]. intros [Hv Hl]%andb_prop Hacc.
  apply IH; [exact Hl|]. by apply obj_set_wf.
Qed.

Lemma parse_number_wf (s : string) (j : json) (r : string) :
  parse_number s = Some (j, r) → json_wf j = true.
Proof.
  unfold parse_number. intros Hp. repeat case_match; simplify_eq; reflexivity.
Qed.

Lemma parse_value_step (fuel : nat) (s : string) :
  parse_value (S fuel) s =
  match skip_ws s with
  | "" => None
  | String c rest =>
      if is_char c 110 then r ← strip_prefix "ull" rest; Some (JNull, r)
      else if is_char c 116 then r ← strip_prefix "rue" rest; Some (JBool true, r)
      else if is_char c 102 then r ← strip_prefix "alse" rest; Some (JBool false, r)
      else if is_char c 34 then '(str, r) ← parse_chars rest; Some (JStr str, r)
      else if is_char c 91 then
        match skip_ws rest with
        | "" => None
        | String c' r =>
            if is_char c' 93 then Some (JArr [], r)
            else '(l, r') ← parse_elements fuel rest; Some (JArr l, r')
        end
      else if is_char c 123 then
        match skip_ws rest with
        | "" => None
        | String c' r =>
            if is_char c' 125 then Some (JObj [], r)
            else
              '(l, r') ← parse_members fuel rest;
              Some (JObj (fold_left (λ acc kv, obj_set kv.1 kv.2 acc) l []), r')
        end
      else parse_number (String c rest)
  end.
Proof. reflexivity. Qed.

Lemma parse_members_step_any (fuel : nat) (s : string) :
  parse_members (S fuel) s =
  match skip_ws s with
  | "" => None
  | String q r0 =>
      if is_char q 34 then
        '(k, r1) ← parse_chars r0;
        match skip_ws r1 with
        | "" => None
        | String c r2 =>
            if is_char c 58 then
              '(v, r) ← parse_value fuel r2;
              match skip_ws r with
              | "" => None
              | String c' r' =>
                  if is_char c' 44 then
                    '(l, r'') ← parse_members fuel r'; Some ((k, v) :: l, r'')
                  else if is_char c' 125 then Some ([(k, v)], r')
                  else None
              end
            else None
        end
      else None
  end.
Proof. reflexivity. Qed.

Ltac parse_cases :=
  repeat first
    [ progress simplify_option_eq
    | case_match
    | match goal with p : (_ * _)%type |- _ => destruct p end ].

(** Whatever the parser reads is a document whose objects have each key
    once. *)
Lemma parse_wf (fuel : nat) :
  (∀ s j r, parse_value fuel s = Some (j, r) → json_wf j = true) ∧
  (∀ s l r, parse_elements fuel s = Some (l, r) → forallb json_wf l = true) ∧
  (∀ s l r, parse_members fuel s = Some (l, r) →
     forallb (λ '(_, v), json_wf v) l = true).
Proof.
  induction fuel as [|fuel (IHv & IHe & IHm)]; [repeat split; discriminate|].
  split; [|split].
  - intros s j r. rewrite parse_value_step. intros Hp.
    parse_cases;
      first
        [ reflexivity
        | by eauto using parse_number_wf
        | by (eapply IHe; eassumption)
        | lazymatch goal with
          | |- context [fold_left _ ?l []] =>
              change (json_wf (JObj (fold_left (λ acc kv, obj_set kv.1 kv.2 acc) l []))
                      = true)
          end;
          apply fold_obj_set_wf; [eapply IHm; eassumption|reflexivity] ].
  - intros s l r. rewrite parse_elements_step. intros Hp.
    parse_cases; cbn [forallb];
      repeat match goal with
      | Hv : parse_value fuel _ = Some (?v, _) |- _ => rewrite (IHv _ _ _ Hv); clear Hv
      | He : parse_elements fuel _ = Some (?l, _) |- _ => rewrite (IHe _ _ _ He); clear He
      end; reflexivity.
  - intros s l r. rewrite parse_members_step_any. intros Hp.
    parse_cases; cbn [forallb];
      repeat match goal with
      | Hv : parse_value fuel _ = Some (?v, _) |- _ => rewrite (IHv _ _ _ Hv); clear Hv
      | Hm : parse_members fuel _ = Some (?l, _) |- _ => rewrite (IHm _ _ _ Hm); clear Hm
      end; reflexivity.
Qed.

Lemma JSON_parse_wf (s : string) (j : json) : JSON_parse s = Some j → json_wf j = true.
Proof.
  unfold JSON_parse. intros Hp.
  destruct (parse_value _ s) as [[j' r]|] eqn:Hv; [|discriminate].
  destruct (String.eqb (skip_ws r) ""); simplify_eq.
  eapply (proj1 (parse_wf _)). eassumption.
Qed.

(** ** The vault: what is saved is what is loaded *)

Lemma obj_get_obj_set_eq (k : string) (v : json) (fields : list (string * json)) :
  obj_get k (obj_set k v fields) = Some v.
Proof.
  induction fields as [|[k' v'] fields IH]; cbn [obj_set obj_get].
  - by rewrite String.eqb_refl.
  - destruct (String.eqb k k') eqn:Hk; cbn [obj_get]; rewrite ?String.eqb_refl, ?Hk; done.
Qed.

Lemma obj_get_wf (k : string) (fields : list (string * json)) (v : json) :
  json_wf (JObj fields) = true → obj_get k fields = Some v → json_wf v = true.
Proof.
  cbn [json_wf]. intros [_ Hf]%andb_prop.
  induction fields as [|[k' v'] fields IH]; [done|].
  cbn [forallb obj_get] in *. apply andb_prop in Hf as [Hv Hf].
  destruct (String.eqb k k'); [by intros [= <-]|by apply IH].
Qed.

Lemma next_nonce_nonempty (w : World) : next_nonce w ≠ [].
Proof. unfold next_nonce. change NONCE_BYTES with 24%nat. cbn [seq map]. discriminate. Qed.

Lemma bind_inv {A B} (m : M A) (k : A → M B) (w w' : World) (b : B) :
  (m ≫= k) w = (Ret b, w') → ∃ a w1, m w = (Ret a, w1) ∧ k a w1 = (Ret b, w').
Proof.
  rewrite bind_unfold. destruct (m w) as [[a|e] w1]; [eauto|discriminate].
Qed.

(** Follows a handler that returned down to its last step. *)
Ltac ret_inv H :=
  repeat first
    [ let a := fresh "a" in let w := fresh "w" in let Ha := fresh "Ha" in
      apply bind_inv in H as (a & w & Ha & H)
    | lazymatch type of H with
      | (match ?x with _ => _ end) _ = _ => destruct x
      | (if ?b then _ else _) _ = _ => destruct b
      end
    | discriminate H ].

Section VaultRoundTrips.
Context `{Sodium}.

(** Opening a box with the key and nonce it was sealed with gives the
    message back. *)
Hypothesis secretbox_correct : ∀ m n k c,
  crypto_secretbox_easy m n k = Ret c →
  crypto_secretbox_open_easy c n k = Ret (Some m).

(** Every document [decryptVault] hands out has each key of an object once. *)
Lemma decryptVault_wf (w w' : World) (d : json) :
  decryptVault w = (Ret (Success d), w') → json_wf d = true.
Proof.
  unfold decryptVault. intros Hd.
  apply bind_inv in Hd as (k & w1 & _ & Hd). destruct k as [key|]; [|discriminate].
  apply bind_inv in Hd as (present & w2 & _ & Hd).
  destruct present; cbn [negb] in Hd; [|by injection Hd as <- _].
  unfold try_catch in Hd.
  lazymatch type of Hd with
  | match ?body w2 with _ => _ end = _ => destruct (body w2) as [[r|e] w3] eqn:Hb
  end; [|discriminate].
  injection Hd as -> ->. ret_inv Hb; try (by injection Hb as <-).
  unfold JSON_parse_M, or_throw in *.
  lazymatch goal with
  | Hp : match JSON_parse ?s with _ => _ end _ = (Ret ?a, _) |- _ =>
      destruct (JSON_parse s) as [parsed|] eqn:Hj; [|discriminate];
      injection Hp as -> _
  end.
  injection Hb as <-. by eapply JSON_parse_wf.
Qed.

(** The vault file holds the envelope of [D] sealed under the key in memory:
    the vault loads as [D]. *)
Lemma decryptVault_sealed (w : World) (key n c : bytes) (D : json) :
  masterKey w = Some key →
  vault_file w = Some (JSON_stringify (json_of_envelope (mkEnvelope (to_hex n) (to_hex c)))) →
  n ≠ [] → c ≠ [] →
  crypto_secretbox_easy (from_string (JSON_stringify D)) n key = Ret c →
  json_wf D = true →
  decryptVault w = (Ret (Success D), w).
Proof.
  intros Hk Hv Hn Hc Hbox Hwf.
  rewrite (decryptVault_envelope w key n c _ Hk Hv); [|reflexivity| |done|done].
  - rewrite (secretbox_correct _ _ _ _ Hbox). unfold opened.
    by rewrite to_string_from_string, JSON_parse_stringify.
  - by apply JSON_parse_stringify.
Qed.

Lemma vault_save_run (w : World) (key c : bytes) (D : json) :
  masterKey w = Some key →
  unwritable w VAULT_PATH = false →
  crypto_secretbox_easy (from_string (JSON_stringify D)) (next_nonce w) key = Ret c →
  vault_save D w =
  (Ret (Success tt),
   set_vault_file
     (Some (JSON_stringify (json_of_envelope (mkEnvelope (to_hex (next_nonce w)) (to_hex c)))))
     (set_cursor (cursor w + NONCE_BYTES) w)).
Proof.
  intros Hk Hu Hc. unfold vault_save, seal, randombytes_buf, writeFileSync. munfold.
  rewrite Hk. fold (next_nonce w). rewrite Hc. cbn [unwritable set_cursor].
  rewrite Hu. reflexivity.
Qed.

(** [vault:save] followed by [vault:load] gives the document back:
    with the vault unlocked and its file writable, saving a document [D]
    succeeds and loading then succeeds with exactly [D].  [saveDirect], the
    entry the sync uses, has the same effect. *)
Theorem saved_document_loads (w : World) (D : json) (key c : bytes) :
  masterKey w = Some key →
  unwritable w VAULT_PATH = false →
  json_wf D = true →
  crypto_secretbox_easy (from_string (JSON_stringify D)) (next_nonce w) key = Ret c →
  c ≠ [] →
  let w' := exec (vault_save D) w in
  run (vault_save D) w = Ret (Success tt) ∧
  vault_load w' = (Ret (Success D), w') ∧
  saveDirect D w = (Ret (Success tt), w').
Proof.
  intros Hk Hu Hwf Hbox Hc w'. unfold w', run, exec.
  rewrite (vault_save_run w key c D Hk Hu Hbox). cbn [fst snd].
  split; [reflexivity|]. split.
  - eapply decryptVault_sealed; eauto using next_nonce_nonempty.
  - unfold saveDirect, seal, randombytes_buf, writeFileSync. munfold.
    rewrite Hk. fold (next_nonce w). rewrite Hbox. cbn [unwritable set_cursor].
    rewrite Hu. reflexivity.
Qed.

End VaultRoundTrips.

Lemma saved_document_loads_witness :
  let w' := exec (@vault_save ref_sodium sample_document) world_unlocked in
  run (@vault_save ref_sodium sample_document) world_unlocked = Ret (Success tt) ∧
  @vault_load ref_sodium w' = (Ret (Success sample_document), w') ∧
  @saveDirect ref_sodium sample_document world_unlocked = (Ret (Success tt), w').
Proof.
  apply (@saved_document_loads ref_sodium ref_secretbox_correct world_unlocked
           sample_document right_key sample_box); try (vm_compute; reflexivity).
  vm_compute. discriminate.
Defined.

(** ** Credentials *)

Section Credentials.
Context `{Sodium} `{Runtime}.

Hypothesis secretbox_correct : ∀ m n k c,
  crypto_secretbox_easy m n k = Ret c →
  crypto_secretbox_open_easy c n k = Ret (Some m).

Lemma obj_assign_wf (k : string) (v : json) (fields : list (string * json)) :
  json_wf (JObj fields) = true → json_wf v = true →
  json_wf (JObj (obj_assign k v fields)) = true.
Proof.
  intros Hf Hv. unfold obj_assign. destruct (_ && _); [done|]. by apply obj_set_wf.
Qed.

Lemma obj_get_obj_assign_ne (k k' : string) (v : json) (fields : list (string * json)) :
  k' ≠ k → obj_get k' (obj_assign k v fields) = obj_get k' fields.
Proof.
  intros Hne. unfold obj_assign. destruct (_ && _); [done|].
  by apply obj_get_obj_set_ne.
Qed.

Lemma obj_get_obj_assign_eq (k : string) (v : json) (fields : list (string * json)) :
  k ≠ "__proto__" ∨ is_Some (obj_get k fields) →
  obj_get k (obj_assign k v fields) = Some v.
Proof.
  intros Hk. unfold obj_assign.
  destruct (String.eqb_spec k "__proto__") as [->|Hne]; cbn [andb].
  - destruct Hk as [Hk|Hk]; [done|]. rewrite bool_decide_eq_true_2 by done.
    apply obj_get_obj_set_eq.
  - apply obj_get_obj_set_eq.
Qed.

Lemma obj_get_obj_assign_proto (v : json) (fields : list (string * json)) :
  obj_get "__proto__" fields = None →
  obj_assign "__proto__" v fields = fields.
Proof.
  intros Hnone. unfold obj_assign. cbn [String.eqb Ascii.eqb Bool.eqb andb].
  rewrite Hnone. rewrite bool_decide_eq_false_2; [done|]. by intros [? ?].
Qed.

(** What [vault:save-credential] writes, once the credentials of the loaded
    document are an object [hs]. *)
Lemma save_credential_run (w : World) (hostId password username : string)
    (key c : bytes) (current : Result json) (hs : list (string * json)) :
  let fields0 :=
    match current with
    | Success (JObj fields) => fields
    | _ => [("hosts", JObj [])]
    end in
  let fields1 :=
    if truthy_opt (obj_get "hosts" fields0) then fields0
    else obj_set "hosts" (JObj []) fields0 in
  let entry := JObj [("password", JStr password); ("username", JStr username);
                     ("updatedAt", JStr (now w))] in
  let data := obj_set "hosts" (JObj (obj_assign hostId entry hs)) fields1 in
  masterKey w = Some key →
  decryptVault w = (Ret current, w) →
  obj_get "hosts" fields1 = Some (JObj hs) →
  unwritable w VAULT_PATH = false →
  crypto_secretbox_easy (from_string (JSON_stringify (JObj data))) (next_nonce w) key = Ret c →
  vault_save_credential hostId password username w =
  (Ret (Success tt),
   set_vault_file
     (Some (JSON_stringify (json_of_envelope (mkEnvelope (to_hex (next_nonce w)) (to_hex c)))))
     (set_cursor (cursor w + NONCE_BYTES) w)).
Proof.
  intros fields0 fields1 entry data Hk Hdec Hhosts Hu Hbox.
  unfold vault_save_credential. rewrite bind_unfold. unfold get at 1. rewrite Hk.
  unfold try_catch. rewrite (bind_ret_l _ _ _ _ _ Hdec).
  cbv zeta. fold fields0. fold fields1.
  rewrite bind_unfold. unfold get at 1. fold entry.
  rewrite Hhosts. cbn [from_option id js_assign]. rewrite bind_unfold. unfold lift at 1.
  fold data.
  unfold seal, randombytes_buf, writeFileSync. munfold.
  fold (next_nonce w). rewrite Hbox. cbn [unwritable set_cursor]. rewrite Hu.
  reflexivity.
Qed.

(** What [vault:get-credential] answers when the credentials of the stored
    document are an object [hs]: the own property when it is truthy, the
    inherited member when there is no own property of the name. *)
Lemma get_credential_run (w : World) (key : bytes) (hostId : string)
    (fields hs : list (string * json)) :
  masterKey w = Some key →
  decryptVault w = (Ret (Success (JObj fields)), w) →
  obj_get "hosts" fields = Some (JObj hs) →
  vault_get_credential hostId w =
  (Ret (Success match obj_get hostId hs with
                | Some v => if truthy v then JsonVal v else JsonVal JNull
                | None => if bool_decide (hostId ∈ Object_prototype)
                          then Builtin PObject hostId else JsonVal JNull
                end), w).
Proof.
  intros Hk Hdec Hhosts. unfold vault_get_credential.
  rewrite bind_unfold. unfold get at 1. rewrite Hk.
  rewrite (bind_ret_l _ _ _ _ _ Hdec).
  cbn [truthy typeof_object Array_isArray negb andb]. rewrite Hhosts.
  unfold js_read, inherits. cbn [js_index proto_of orb].
  destruct (obj_get hostId hs) as [v|]; [reflexivity|].
  by case_bool_decide.
Qed.

(** [vault:get-credential] when the stored document has no object of
    credentials: no credential, for a host id that no prototype has a member
    for. *)
Lemma get_credential_none (w : World) (key : bytes) (other : string) (d : json) :
  masterKey w = Some key →
  decryptVault w = (Ret (Success d), w) →
  match d with
  | JObj fields => truthy_opt (obj_get "hosts" fields) = false
  | _ => True
  end →
  (∀ p, inherits p other = false) →
  vault_get_credential other w = (Ret (Success (JsonVal JNull)), w).
Proof.
  intros Hk Hdec Hd Hinh. unfold vault_get_credential.
  rewrite bind_unfold. unfold get at 1. rewrite Hk.
  rewrite (bind_ret_l _ _ _ _ _ Hdec).
  assert (∀ h, truthy h = false →
            match js_read h other with
            | Some x => if truthy_val x then x else JsonVal JNull
            | None => JsonVal JNull
            end = JsonVal JNull) as Hfalsy.
  { intros h Hh. unfold js_read.
    destruct h as [|b|n|s|items|hs]; cbn [truthy] in Hh; try discriminate;
      cbn [js_index proto_of]; rewrite ?Hinh; try reflexivity.
    apply negb_false_iff, String.eqb_eq in Hh as ->.
    destruct (String.eqb other "length"); [reflexivity|].
    destruct (array_index other) as [i|]; cbn [String.length Nat.ltb Nat.leb];
      by rewrite ?Hinh. }
  pose proof (Hinh PObject) as Hobj. unfold inherits in Hobj. cbn [orb] in Hobj.
  destruct d as [|b|n|s|items|fields];
    cbn [truthy typeof_object Array_isArray negb andb];
    rewrite ?andb_false_r; cbn [obj_get String.eqb Ascii.eqb Bool.eqb].
  1-5: unfold js_read, inherits; cbn [js_index obj_get proto_of orb];
       rewrite ?Hobj; reflexivity.
  destruct (obj_get "hosts" fields) as [h|]; [|reflexivity].
  cbn [truthy_opt] in Hd. specialize (Hfalsy h Hd).
  destruct h; cbn [truthy] in Hd; try discriminate; try reflexivity;
    by rewrite Hfalsy.
Qed.

(** [vault:save-credential] followed by [vault:get-credential].  With the
    vault unlocked, its file writable and the credentials of the stored
    document (its [hosts]) an object, absent or falsy, saving a credential
    for [hostId] succeeds.  Reading [hostId] then returns the password, the
    user name and the time of the save, unless [hostId] is [__proto__] and
    the stored credentials have no own property of that name: the assignment
    then sets the prototype, nothing is stored and the read returns the
    prototype of objects, not the credential.  Another host id reads as it
    did before when no prototype has a member for it, and also when the
    stored document already had an object of credentials. *)
Theorem saved_credential_is_returned (w : World) (hostId password username : string)
    (key : bytes) :
  masterKey w = Some key →
  unwritable w VAULT_PATH = false →
  (∀ m n, ∃ c, crypto_secretbox_easy m n key = Ret c ∧ c ≠ []) →
  (∀ fields hosts, run decryptVault w = Ret (Success (JObj fields)) →
     obj_get "hosts" fields = Some hosts → truthy hosts = true →
     ∃ hs, hosts = JObj hs) →
  let w' := exec (vault_save_credential hostId password username) w in
  let entry := JObj [("password", JStr password); ("username", JStr username);
                     ("updatedAt", JStr (now w))] in
  let stored :=
    match run decryptVault w with
    | Ret (Success (JObj fields)) =>
        match obj_get "hosts" fields with Some (JObj hs) => hs | _ => [] end
    | _ => []
    end in
  run (vault_save_credential hostId password username) w = Ret (Success tt) ∧
  (hostId ≠ "__proto__" ∨ is_Some (obj_get hostId stored) →
     vault_get_credential hostId w' = (Ret (Success (JsonVal entry)), w')) ∧
  (hostId = "__proto__" → obj_get hostId stored = None →
     vault_get_credential hostId w' = (Ret (Success (Builtin PObject hostId)), w')) ∧
  (∀ other d, other ≠ hostId → run decryptVault w = Ret (Success d) →
     (∀ p, inherits p other = false) →
     run (vault_get_credential other) w' = run (vault_get_credential other) w) ∧
  (∀ other fields hs, other ≠ hostId →
     run decryptVault w = Ret (Success (JObj fields)) →
     obj_get "hosts" fields = Some (JObj hs) →
     run (vault_get_credential other) w' = run (vault_get_credential other) w).
Proof.
  intros Hk Hu Hseal Hobj w' entry stored.
  destruct (decryptVault_pure w) as [current Hdec].
  set (fields0 := match current with
                  | Success (JObj fields) => fields
                  | _ => [("hosts", JObj [])]
                  end).
  set (fields1 := if truthy_opt (obj_get "hosts" fields0) then fields0
                  else obj_set "hosts" (JObj []) fields0).
  assert (json_wf (JObj fields0) = true) as Hwf0.
  { unfold fields0. destruct current as [[]|]; try reflexivity.
    by eapply decryptVault_wf. }
  assert (json_wf (JObj fields1) = true) as Hwf1.
  { unfold fields1. destruct (truthy_opt _); [done|]. by apply obj_set_wf. }
  assert (obj_get "hosts" fields1 = Some (JObj stored)) as Hhosts.
  { unfold fields1, stored, run. rewrite Hdec. cbn [fst].
    destruct (truthy_opt (obj_get "hosts" fields0)) eqn:Ht.
    - destruct (obj_get "hosts" fields0) as [hosts|] eqn:Hg; [|discriminate].
      unfold fields0 in Hg, Ht.
      destruct current as [[| | | | |fields]|];
        try (injection Hg as <-; reflexivity).
      rewrite Hg in *. destruct (Hobj fields hosts) as [hs' ->]; eauto.
      unfold run. by rewrite Hdec.
    - rewrite obj_get_obj_set_eq. unfold fields0 in Ht.
      destruct current as [[| | | | |fields]|]; try discriminate.
      by destruct (obj_get "hosts" fields) as [[]|]. }
  set (hs := stored) in *.
  set (data := obj_set "hosts" (JObj (obj_assign hostId entry hs)) fields1).
  destruct (Hseal (from_string (JSON_stringify (JObj data))) (next_nonce w))
    as (c & Hbox & Hc).
  pose proof (save_credential_run w hostId password username key c current hs
                Hk Hdec Hhosts Hu Hbox) as Hrun.
  assert (json_wf (JObj hs) = true) as Hwfh by (by eapply obj_get_wf).
  assert (json_wf (JObj data) = true) as Hwfd.
  { unfold data. apply obj_set_wf; [|done]. by apply obj_assign_wf. }
  unfold w', run, exec. rewrite Hrun. cbn [fst snd].
  match goal with |- context [vault_get_credential _ ?x] => set (w1 := x) end.
  assert (decryptVault w1 = (Ret (Success (JObj data)), w1)) as Hload.
  { eapply (decryptVault_sealed secretbox_correct); eauto using next_nonce_nonempty. }
  assert (∀ k, vault_get_credential k w1 =
               (Ret (Success match obj_get k (obj_assign hostId entry hs) with
                             | Some v => if truthy v then JsonVal v else JsonVal JNull
                             | None => if bool_decide (k ∈ Object_prototype)
                                       then Builtin PObject k else JsonVal JNull
                             end), w1)) as Hget.
  { intros k. eapply get_credential_run; [exact Hk|exact Hload|].
    unfold data. apply obj_get_obj_set_eq. }
  assert (∀ other d, other ≠ hostId → decryptVault w = (Ret (Success d), w) →
            (match d with
             | JObj fields => obj_get "hosts" fields = Some (JObj hs)
             | _ => False
             end ∨ ∀ p, inherits p other = false) →
            fst (vault_get_credential other w1) = fst (vault_get_credential other w))
    as Hsame.
  { intros other d Hne Hd Hcase.
    rewrite Hget, obj_get_obj_assign_ne by done. cbn [fst].
    destruct Hcase as [Hcase|Hinh].
    - destruct d as [| | | | |fields]; try done.
      by rewrite (get_credential_run w key other fields hs Hk Hd Hcase).
    - assert ((match d with
               | JObj fields => truthy_opt (obj_get "hosts" fields) = false
               | _ => True
               end) ∨
              ∃ fields hs', d = JObj fields ∧ obj_get "hosts" fields = Some (JObj hs'))
        as [Hnone|(fields & hs' & -> & Hg)].
      { destruct d as [| | | | |fields]; try (by left).
        destruct (truthy_opt (obj_get "hosts" fields)) eqn:Ht; [right|by left].
        destruct (obj_get "hosts" fields) as [hosts|] eqn:Hg; [|discriminate].
        destruct (Hobj fields hosts) as [hs' ->]; eauto.
        unfold run. by rewrite Hd. }
      + rewrite (get_credential_none w key other d Hk Hd Hnone Hinh). cbn [fst].
        assert (hs = []) as ->.
        { unfold hs, stored, run. rewrite Hd. cbn [fst].
          destruct d as [| | | | |fields]; try reflexivity.
          by destruct (obj_get "hosts" fields) as [[]|]. }
        cbn [obj_get]. pose proof (Hinh PObject) as Hp. unfold inherits in Hp.
        cbn [orb] in Hp. by rewrite Hp.
      + assert (hs = hs') as ->.
        { unfold hs, stored, run. rewrite Hd. cbn [fst]. by rewrite Hg. }
        by rewrite (get_credential_run w key other fields hs' Hk Hd Hg). }
  split; [reflexivity|]. split; [|split; [|split]].
  - intros Hown. by rewrite Hget, obj_get_obj_assign_eq.
  - intros -> Hnone. rewrite Hget, obj_get_obj_assign_proto, Hnone by done.
    reflexivity.
  - intros other d Hne Hd Hinh. unfold run in Hd |- *.
    rewrite Hdec in Hd. injection Hd as ->. eapply Hsame; eauto.
  - intros other fields hs' Hne Hd Hg. unfold run in Hd |- *.
    rewrite Hdec in Hd. injection Hd as ->. eapply Hsame; eauto.
    left. rewrite Hg. do 2 f_equal. unfold hs, stored, run. rewrite Hdec. cbn [fst].
    by rewrite Hg.
Qed.

(** A vault that does not load as an object is overwritten by
    [vault:save-credential]: when the vault file does not decrypt or parse
    (or holds something that is not an object), saving a credential still
    succeeds and the vault then holds that credential and nothing else.
    For the host id [__proto__] it then holds no credential at all: the
    assignment sets the prototype of the empty object of credentials. *)
Theorem unreadable_vault_is_replaced (w : World) (hostId password username : string)
    (key : bytes) :
  masterKey w = Some key →
  unwritable w VAULT_PATH = false →
  (∀ m n, ∃ c, crypto_secretbox_easy m n key = Ret c ∧ c ≠ []) →
  (∀ fields, run decryptVault w ≠ Ret (Success (JObj fields))) →
  let w' := exec (vault_save_credential hostId password username) w in
  let entry := JObj [("password", JStr password); ("username", JStr username);
                     ("updatedAt", JStr (now w))] in
  run (vault_save_credential hostId password username) w = Ret (Success tt) ∧
  vault_load w' =
  (Ret (Success (JObj [("hosts", JObj (if String.eqb hostId "__proto__" then []
                                       else [(hostId, entry)]))])), w').
Proof.
  intros Hk Hu Hseal Hnot w' entry.
  destruct (decryptVault_pure w) as [current Hdec].
  assert (obj_assign hostId entry [] =
          if String.eqb hostId "__proto__" then [] else [(hostId, entry)]) as Hassign.
  { unfold obj_assign. cbn [obj_get]. rewrite bool_decide_eq_false_2 by (by intros [? ?]).
    cbn [negb]. rewrite andb_true_r. by destruct (String.eqb hostId "__proto__"). }
  rewrite <- Hassign.
  set (data := [("hosts", JObj (obj_assign hostId entry []))]).
  destruct (Hseal (from_string (JSON_stringify (JObj data))) (next_nonce w))
    as (c & Hbox & Hc).
  assert (match current with
          | Success (JObj fields) => fields
          | _ => [("hosts", JObj [])]
          end = [("hosts", JObj [])]) as Hf0.
  { destruct current as [[| | | | |fields]|]; try reflexivity.
    destruct (Hnot fields). unfold run. by rewrite Hdec. }
  pose proof (save_credential_run w hostId password username key c current []
                Hk Hdec) as Hrun.
  cbv zeta in Hrun. rewrite Hf0 in Hrun.
  specialize (Hrun eq_refl Hu Hbox).
  unfold w', run, exec. rewrite Hrun. cbn [fst snd].
  split; [reflexivity|].
  eapply (decryptVault_sealed secretbox_correct); eauto using next_nonce_nonempty.
  unfold data. rewrite Hassign. by destruct (String.eqb hostId "__proto__").
Qed.

End Credentials.

Lemma ref_secretbox_total (key m n : bytes) :
  ∃ c, ref_secretbox_easy m n key = Ret c ∧ c ≠ [].
Proof.
  eexists. split; [reflexivity|]. unfold box_header.
  rewrite <- app_assoc. intros Hnil. apply app_eq_nil in Hnil as [_ Hnil].
  discriminate.
Qed.

Lemma saved_credential_is_returned_witness :
  let w' := exec (@vault_save_credential ref_sodium "hostB" "secret" "admin") world_saved in
  let entry := JObj [("password", JStr "secret"); ("username", JStr "admin");
                     ("updatedAt", JStr (now world_saved))] in
  run (@vault_save_credential ref_sodium "hostB" "secret" "admin") world_saved
    = Ret (Success tt) ∧
  @vault_get_credential ref_sodium ref_runtime "hostB" w' = (Ret (Success (JsonVal entry)), w') ∧
  (∀ other d, other ≠ "hostB" →
     run (@decryptVault ref_sodium) world_saved = Ret (Success d) →
     (∀ p, @inherits ref_runtime p other = false) →
     run (@vault_get_credential ref_sodium ref_runtime other) w'
     = run (@vault_get_credential ref_sodium ref_runtime other) world_saved) ∧
  (∀ other fields hs, other ≠ "hostB" →
     run (@decryptVault ref_sodium) world_saved = Ret (Success (JObj fields)) →
     obj_get "hosts" fields = Some (JObj hs) →
     run (@vault_get_credential ref_sodium ref_runtime other) w'
     = run (@vault_get_credential ref_sodium ref_runtime other) world_saved).
Proof.
  destruct (@saved_credential_is_returned ref_sodium ref_runtime ref_secretbox_correct
              world_saved "hostB" "secret" "admin" right_key)
    as (Hrun & Hget & _ & Hother & Hobject).
  - vm_compute. reflexivity.
  - reflexivity.
  - intros m n. apply ref_secretbox_total.
  - intros fields hosts Hrun Hg Ht. vm_compute in Hrun. injection Hrun as <-.
    vm_compute in Hg. injection Hg as <-. eauto.
  - split; [exact Hrun|]. split; [|split; [exact Hother|exact Hobject]].
    apply Hget. left. discriminate.
Defined.

(** A credential saved under the host id [__proto__] is lost: the save
    reports success, the stored credentials are what they were, and reading
    the host id gives the prototype of objects. *)
Example proto_credential_is_lost :
  let w' := exec (@vault_save_credential ref_sodium "__proto__" "secret" "admin")
              world_saved in
  run (@vault_save_credential ref_sodium "__proto__" "secret" "admin") world_saved
    = Ret (Success tt) ∧
  run (@vault_load ref_sodium) w' = run (@vault_load ref_sodium) world_saved ∧
  run (@vault_get_credential ref_sodium ref_runtime "__proto__") w'
    = Ret (Success (Builtin PObject "__proto__")).
Proof. vm_compute. done. Qed.

Lemma unreadable_vault_is_replaced_witness :
  let w' := exec (@vault_save_credential ref_sodium "hostB" "secret" "admin")
              world_wrong_key in
  let entry := JObj [("password", JStr "secret"); ("username", JStr "admin");
                     ("updatedAt", JStr (now world_wrong_key))] in
  run (@decryptVault ref_sodium) world_wrong_key
    = Ret (Failure "Master Password verification failed or vault corrupted.") ∧
  run (@vault_save_credential ref_sodium "hostB" "secret" "admin") world_wrong_key
    = Ret (Success tt) ∧
  @vault_load ref_sodium w'
    = (Ret (Success (JObj [("hosts", JObj [("hostB", entry)])])), w').
Proof.
  split; [vm_compute; reflexivity|].
  apply (@unreadable_vault_is_replaced ref_sodium ref_secretbox_correct world_wrong_key
           "hostB" "secret" "admin" wrong_key).
  - vm_compute. reflexivity.
  - reflexivity.
  - intros m n. apply ref_secretbox_total.
  - intros fields Hrun. vm_compute in Hrun. discriminate.
Defined.

(** ** The salt and the unlock *)

Lemma fresh_salt_nonempty (w : World) : map (entropy w) (seq (cursor w) SALT_BYTES) ≠ [].
Proof. change SALT_BYTES with 16%nat. cbn [seq map]. discriminate. Qed.

Lemma to_hex_nonempty (b : bytes) : b ≠ [] → String.eqb (to_hex b) "" = false.
Proof. by destruct b. Qed.

Section Unlock.
Context `{Sodium}.

Hypothesis secretbox_correct : ∀ m n k c,
  crypto_secretbox_easy m n k = Ret c →
  crypto_secretbox_open_easy c n k = Ret (Some m).

(** The metadata file as [getSalt] and [vault:change-password] write it. *)
Lemma getSalt_stored (w : World) (salt : bytes) :
  meta_file w = Some (JSON_stringify (JObj [("salt", JStr (to_hex salt))])) →
  salt ≠ [] →
  getSalt w = (Ret salt, w).
Proof.
  intros Hm Hs. unfold getSalt. munfold. rewrite Hm.
  rewrite bool_decide_eq_true_2 by eauto. rewrite Hm. cbn beta iota.
  assert (is_blank (JSON_stringify (JObj [("salt", JStr (to_hex salt))])) = false)
    as -> by reflexivity.
  cbn [negb]. rewrite JSON_parse_stringify by reflexivity.
  cbn [truthy obj_get String.eqb Ascii.eqb Bool.eqb truthy_opt andb
       from_option typeof_string].
  rewrite to_hex_nonempty by done. cbn [negb]. rewrite from_hex_to_hex. reflexivity.
Qed.

(** The two ways [getSalt] ends. *)
Lemma getSalt_cases (w : World) :
  let fresh := map (entropy w) (seq (cursor w) SALT_BYTES) in
  let w1 := set_cursor (cursor w + SALT_BYTES) w in
  (∃ salt raw fields hex,
     getSalt w = (Ret salt, w) ∧ meta_file w = Some raw ∧
     JSON_parse raw = Some (JObj fields) ∧
     obj_get "salt" fields = Some (JStr hex) ∧ from_hex hex = Some salt) ∨
  getSalt w =
  (Ret fresh,
   if unwritable w METADATA_PATH
   then failed_write METADATA_PATH
          (JSON_stringify (JObj [("salt", JStr (to_hex fresh))])) w1
   else set_meta_file (Some (JSON_stringify (JObj [("salt", JStr (to_hex fresh))]))) w1).
Proof.
  intros fresh w1. unfold getSalt. rewrite bind_unfold.
  lazymatch goal with
  | |- context [try_catch ?body ?h w] =>
      assert (steps eq body) as Hsteps by steps_go ltac:(idtac; reflexivity);
      specialize (Hsteps w); unfold exec in Hsteps;
      destruct (body w) as [[stored|e] w2] eqn:Hb;
      cbn [snd] in Hsteps; subst w2;
      [ rewrite (try_catch_ret body h _ _ _ Hb)
      | rewrite (try_catch_throw body h _ _ _ Hb) ]
  end.
  - destruct stored as [salt|].
    + left. ret_inv Hb; try discriminate.
      unfold existsSync in Ha. injection Ha as _ <-.
      unfold readFileSync, or_throw in Ha0.
      destruct (meta_file w) as [raw|] eqn:Hm; [|discriminate].
      injection Ha0 as <- <-.
      unfold JSON_parse_M, or_throw in Ha1.
      destruct (JSON_parse raw) as [meta|] eqn:Hp; [|discriminate].
      injection Ha1 as <- <-.
      cbv [sodium_from_hex throw] in Ha3.
      destruct a1 as [[| | |hex| |]|]; try discriminate Ha3.
      destruct (truthy meta); [|discriminate].
      cbv [js_get throw ret] in Ha2.
      destruct meta as [| | | | |fields]; try discriminate Ha2.
      injection Ha2 as Hg <-.
      unfold or_throw in Ha3.
      destruct (from_hex hex) as [salt'|] eqn:Hh; [|discriminate].
      injection Ha3 as <- <-. injection Hb as <-.
      exists salt', raw, fields, hex. done.
    + right. unfold randombytes_buf, writeFileSync. munfold. fold fresh. fold w1.
      change (unwritable w1 METADATA_PATH) with (unwritable w METADATA_PATH).
      destruct (unwritable w METADATA_PATH); reflexivity.
  - right. unfold ret at 1. unfold randombytes_buf, writeFileSync. munfold.
    fold fresh. fold w1.
    change (unwritable w1 METADATA_PATH) with (unwritable w METADATA_PATH).
    destruct (unwritable w METADATA_PATH); reflexivity.
Qed.

(** [getSalt] never throws.  It returns the salt the metadata file holds
    and changes nothing, or, when the file is missing, blank, unreadable,
    not JSON or without a usable [salt], it draws a fresh salt and replaces
    the metadata file with it (a failed write is ignored, whatever it left
    of the file). *)
Theorem getSalt_stored_or_fresh (w : World) :
  let fresh := map (entropy w) (seq (cursor w) SALT_BYTES) in
  let w1 := set_cursor (cursor w + SALT_BYTES) w in
  (∃ salt raw fields hex,
     getSalt w = (Ret salt, w) ∧ meta_file w = Some raw ∧
     JSON_parse raw = Some (JObj fields) ∧
     obj_get "salt" fields = Some (JStr hex) ∧ from_hex hex = Some salt) ∨
  getSalt w =
  (Ret fresh,
   if unwritable w METADATA_PATH
   then failed_write METADATA_PATH
          (JSON_stringify (JObj [("salt", JStr (to_hex fresh))])) w1
   else set_meta_file (Some (JSON_stringify (JObj [("salt", JStr (to_hex fresh))]))) w1).
Proof. exact (getSalt_cases w). Qed.

(** Once [getSalt] has run with a writable metadata file, every later call
    returns the same salt and changes nothing. *)
Theorem salt_is_persisted (w w1 : World) (salt : bytes) :
  unwritable w METADATA_PATH = false →
  getSalt w = (Ret salt, w1) →
  getSalt w1 = (Ret salt, w1).
Proof.
  intros Hu Hs.
  destruct (getSalt_cases w) as [(salt' & raw & fields & hex & Hs' & _)|Hf].
  - rewrite Hs' in Hs. by injection Hs as <- <-.
  - rewrite Hf, Hu in Hs. injection Hs as <- <-.
    apply getSalt_stored; [reflexivity|apply fresh_salt_nonempty].
Qed.

(** [vault:init] once the salt is known and the vault file exists. *)
Lemma vault_init_run (w w1 : World) (password : string) (salt key : bytes)
    (raw : string) (r : Result json) :
  getSalt w = (Ret salt, w1) →
  crypto_pwhash password salt = Ret key →
  vault_file w1 = Some raw →
  decryptVault (set_masterKey (Some key) w1) = (Ret r, set_masterKey (Some key) w1) →
  vault_init password w =
  if success r then (Ret (Success tt), set_masterKey (Some key) w1)
  else (Ret (Failure "Invalid Master Password (or corrupted vault)"),
        set_masterKey None (set_masterKey (Some key) w1)).
Proof.
  intros Hsalt Hkey Hv Hr. unfold vault_init.
  set (w2 := set_masterKey (Some key) w1) in *.
  assert (vault_file w2 = Some raw) as Hv2 by exact Hv.
  destruct r as [d|err]; cbn [success]; apply try_catch_ret;
    rewrite (bind_ret_l _ _ _ _ _ Hsalt);
    rewrite bind_unfold; unfold lift at 1; rewrite Hkey;
    rewrite bind_unfold; unfold modify at 1; fold w2;
    rewrite bind_unfold; unfold existsSync at 1;
    rewrite Hv2, bool_decide_eq_true_2 by eauto;
    rewrite bind_unfold; unfold get at 1;
    change (masterKey w2) with (Some key); cbn beta iota;
    rewrite (bind_ret_l _ _ _ _ _ Hr); reflexivity.
Qed.

(** The right password unlocks.  With the salt in the metadata file and the
    vault file an envelope of [D] sealed under the key derived from
    [password] and that salt, [vault:init] succeeds, the derived key is in
    memory, nothing on disk changes, and the vault loads as [D]. *)
Theorem right_password_unlocks (w : World) (password : string)
    (salt key n c : bytes) (D : json) :
  meta_file w = Some (JSON_stringify (JObj [("salt", JStr (to_hex salt))])) →
  salt ≠ [] →
  crypto_pwhash password salt = Ret key →
  vault_file w =
    Some (JSON_stringify (json_of_envelope (mkEnvelope (to_hex n) (to_hex c)))) →
  n ≠ [] → c ≠ [] →
  crypto_secretbox_easy (from_string (JSON_stringify D)) n key = Ret c →
  json_wf D = true →
  let w' := set_masterKey (Some key) w in
  vault_init password w = (Ret (Success tt), w') ∧
  vault_load w' = (Ret (Success D), w').
Proof.
  intros Hm Hs Hkey Hv Hn Hc Hbox Hwf w'.
  assert (decryptVault w' = (Ret (Success D), w')) as Hload
    by (eapply (decryptVault_sealed secretbox_correct); eauto).
  split; [|exact Hload].
  by rewrite (vault_init_run w w password salt key _ (Success D)
                (getSalt_stored w salt Hm Hs) Hkey Hv Hload).
Qed.

Lemma vault_init_run_absent (w w1 : World) (password : string) (salt key : bytes) :
  getSalt w = (Ret salt, w1) →
  crypto_pwhash password salt = Ret key →
  vault_file w1 = None →
  vault_init password w = (Ret (Success tt), set_masterKey (Some key) w1).
Proof.
  intros Hsalt Hkey Hv. unfold vault_init. apply try_catch_ret.
  rewrite (bind_ret_l _ _ _ _ _ Hsalt).
  rewrite bind_unfold. unfold lift at 1. rewrite Hkey.
  rewrite bind_unfold. unfold modify at 1.
  rewrite bind_unfold. unfold existsSync at 1.
  change (vault_file (set_masterKey (Some key) w1)) with (vault_file w1).
  rewrite Hv. reflexivity.
Qed.

(** The first unlock.  With no metadata file and no vault file,
    [vault:init] draws a fresh salt, derives the key and unlocks.  The salt
    is written to the metadata file when that file can be written; when it
    cannot, the unlock succeeds all the same: there is no metadata file
    when the write was refused, and one that holds a prefix of the salt's
    text when the write failed after the file was opened. *)
Theorem first_unlock_creates_salt (w : World) (password : string) (key : bytes) :
  let fresh := map (entropy w) (seq (cursor w) SALT_BYTES) in
  let w' := exec (vault_init password) w in
  meta_file w = None →
  vault_file w = None →
  crypto_pwhash password fresh = Ret key →
  run (vault_init password) w = Ret (Success tt) ∧
  masterKey w' = Some key ∧
  vault_file w' = None ∧
  meta_file w' =
    if unwritable w METADATA_PATH then
      match torn w METADATA_PATH with
      | None => None
      | Some n =>
          Some (substring 0 n (JSON_stringify (JObj [("salt", JStr (to_hex fresh))])))
      end
    else Some (JSON_stringify (JObj [("salt", JStr (to_hex fresh))])).
Proof.
  intros fresh w' Hm Hv Hkey.
  destruct (getSalt_cases w) as [(salt & raw & ? & ? & _ & Hraw & _)|Hf];
    [congruence|].
  fold fresh in Hf. unfold w', run, exec.
  rewrite (vault_init_run_absent _ _ password fresh key Hf Hkey);
    unfold failed_write; cbn [torn set_cursor];
    destruct (unwritable w METADATA_PATH), (torn w METADATA_PATH); done.
Qed.

Lemma change_password_run (w : World) (newPassword : string) (key newKey c : bytes)
    (data : json) :
  let newSalt := map (entropy w) (seq (cursor w) SALT_BYTES) in
  let nonce := map (entropy w) (seq (cursor w + SALT_BYTES) NONCE_BYTES) in
  masterKey w = Some key →
  decryptVault w = (Ret (Success data), w) →
  crypto_pwhash newPassword newSalt = Ret newKey →
  crypto_secretbox_easy (from_string (JSON_stringify data)) nonce newKey = Ret c →
  unwritable w VAULT_PATH = false →
  unwritable w METADATA_PATH = false →
  vault_change_password newPassword w =
  (Ret (Success tt),
   set_masterKey (Some newKey)
     (set_meta_file (Some (JSON_stringify (JObj [("salt", JStr (to_hex newSalt))])))
        (set_vault_file
           (Some (JSON_stringify (json_of_envelope (mkEnvelope (to_hex nonce) (to_hex c)))))
           (set_cursor (cursor w + SALT_BYTES + NONCE_BYTES)
              (set_cursor (cursor w + SALT_BYTES) w))))).
Proof.
  intros newSalt nonce Hk Hdec Hpw Hbox Hu1 Hu2.
  unfold vault_change_password.
  rewrite bind_unfold. unfold get at 1. rewrite Hk.
  unfold try_catch. rewrite (bind_ret_l _ _ _ _ _ Hdec).
  unfold seal, randombytes_buf, writeFileSync. munfold.
  fold newSalt. rewrite Hpw. cbn [cursor set_cursor entropy]. fold nonce.
  rewrite Hbox. cbn [unwritable set_cursor set_vault_file].
  rewrite Hu1.
  lazymatch goal with
  | |- context [unwritable (set_vault_file ?f ?x) ?p] =>
      change (unwritable (set_vault_file f x) p) with (unwritable w p)
  end.
  rewrite Hu2. reflexivity.
Qed.

(** After a password change that wrote both files, the vault opens under the
    new password.  Locking and unlocking with the new password succeeds and
    the vault loads as the document it held before the change; a password
    whose key does not open the new envelope is refused and leaves the vault
    locked. *)
Theorem changed_password_unlocks (w : World) (newPassword : string)
    (key newKey c : bytes) (data : json) :
  let newSalt := map (entropy w) (seq (cursor w) SALT_BYTES) in
  let nonce := map (entropy w) (seq (cursor w + SALT_BYTES) NONCE_BYTES) in
  let w1 := exec vault_lock (exec (vault_change_password newPassword) w) in
  let w2 := set_masterKey (Some newKey) w1 in
  masterKey w = Some key →
  decryptVault w = (Ret (Success data), w) →
  crypto_pwhash newPassword newSalt = Ret newKey →
  crypto_secretbox_easy (from_string (JSON_stringify data)) nonce newKey = Ret c →
  c ≠ [] →
  unwritable w VAULT_PATH = false →
  unwritable w METADATA_PATH = false →
  run (vault_change_password newPassword) w = Ret (Success tt) ∧
  vault_init newPassword w1 = (Ret (Success tt), w2) ∧
  vault_load w2 = (Ret (Success data), w2) ∧
  (∀ P k, crypto_pwhash P newSalt = Ret k →
     (∀ m, crypto_secretbox_open_easy c nonce k ≠ Ret (Some m)) →
     run (vault_init P) w1 = Ret (Failure "Invalid Master Password (or corrupted vault)") ∧
     masterKey (exec (vault_init P) w1) = None).
Proof.
  intros newSalt nonce w1 w2 Hk Hdec Hpw Hbox Hc Hu1 Hu2.
  pose proof (change_password_run w newPassword key newKey c data
                Hk Hdec Hpw Hbox Hu1 Hu2) as Hrun.
  fold newSalt nonce in Hrun.
  assert (newSalt ≠ []) as Hs by apply fresh_salt_nonempty.
  assert (nonce ≠ []) as Hn.
  { unfold nonce. change NONCE_BYTES with 24%nat. cbn [seq map]. discriminate. }
  assert (json_wf data = true) as Hwf by (by eapply decryptVault_wf).
  assert (meta_file w1 = Some (JSON_stringify (JObj [("salt", JStr (to_hex newSalt))])))
    as Hm by (unfold w1, exec; by rewrite Hrun).
  assert (vault_file w1 =
          Some (JSON_stringify (json_of_envelope (mkEnvelope (to_hex nonce) (to_hex c)))))
    as Hv by (unfold w1, exec; by rewrite Hrun).
  split; [unfold run; by rewrite Hrun|].
  assert (decryptVault w2 = (Ret (Success data), w2)) as Hload
    by (eapply (decryptVault_sealed secretbox_correct); eauto).
  split; [|split; [exact Hload|]].
  - by rewrite (vault_init_run w1 w1 newPassword newSalt newKey _ (Success data)
                  (getSalt_stored w1 newSalt Hm Hs) Hpw Hv Hload).
  - intros P k Hkp Hopen.
    set (w3 := set_masterKey (Some k) w1).
    assert (∃ err, decryptVault w3 = (Ret (Failure err), w3)) as [err Hfail].
    { rewrite (decryptVault_envelope w3 k nonce c _ eq_refl Hv); [|reflexivity| |done|done].
      - unfold opened.
        destruct (crypto_secretbox_open_easy c nonce k) as [[d|]|e] eqn:Ho; eauto.
        by destruct (Hopen d).
      - by apply JSON_parse_stringify. }
    unfold run, exec.
    by rewrite (vault_init_run w1 w1 P newSalt k _ (Failure err)
                  (getSalt_stored w1 newSalt Hm Hs) Hkp Hv Hfail).
Qed.

End Unlock.

Lemma salt_is_persisted_witness :
  let w1 := exec getSalt world0 in
  getSalt world0 = (Ret sample_salt, w1) ∧ getSalt w1 = (Ret sample_salt, w1).
Proof.
  split; [vm_compute; reflexivity|].
  apply (salt_is_persisted world0); [reflexivity|vm_compute; reflexivity].
Defined.

Lemma right_password_unlocks_witness :
  let w' := set_masterKey (Some right_key) world_locked in
  @vault_init ref_sodium "right" world_locked = (Ret (Success tt), w') ∧
  @vault_load ref_sodium w' = (Ret (Success sample_document), w').
Proof.
  apply (@right_password_unlocks ref_sodium ref_secretbox_correct world_locked "right"
           sample_salt right_key sample_nonce sample_box sample_document);
    try (vm_compute; reflexivity); vm_compute; discriminate.
Defined.

Lemma first_unlock_creates_salt_witness :
  let w' := exec (@vault_init ref_sodium "right") world0 in
  run (@vault_init ref_sodium "right") world0 = Ret (Success tt) ∧
  masterKey w' = Some right_key ∧
  vault_file w' = None ∧
  meta_file w' =
    if unwritable world0 METADATA_PATH then
      match torn world0 METADATA_PATH with
      | None => None
      | Some n =>
          Some (substring 0 n
                  (JSON_stringify (JObj [("salt", JStr (to_hex sample_salt))])))
      end
    else Some (JSON_stringify (JObj [("salt", JStr (to_hex sample_salt))])).
Proof.
  apply (@first_unlock_creates_salt ref_sodium world0 "right" right_key);
    vm_compute; reflexivity.
Defined.

Lemma changed_password_unlocks_witness :
  let w := world_saved in
  let newSalt := map (entropy w) (seq (cursor w) SALT_BYTES) in
  let newKey := ref_key "new" newSalt in
  let w1 := exec vault_lock (exec (@vault_change_password ref_sodium "new") w) in
  let w2 := set_masterKey (Some newKey) w1 in
  run (@vault_change_password ref_sodium "new") w = Ret (Success tt) ∧
  @vault_init ref_sodium "new" w1 = (Ret (Success tt), w2) ∧
  @vault_load ref_sodium w2 = (Ret (Success sample_document), w2) ∧
  run (@vault_init ref_sodium "right") w1
    = Ret (Failure "Invalid Master Password (or corrupted vault)") ∧
  masterKey (exec (@vault_init ref_sodium "right") w1) = None.
Proof.
  intros w newSalt newKey w1 w2.
  destruct (@changed_password_unlocks ref_sodium ref_secretbox_correct
              world_saved "new" right_key newKey
              (box_header newKey ++ from_string (JSON_stringify sample_document))%list
              sample_document)
    as (Hrun & Hinit & Hload & Hrefused);
    try (vm_compute; reflexivity); [vm_compute; discriminate|].
  split; [exact Hrun|]. split; [exact Hinit|]. split; [exact Hload|].
  apply (Hrefused "right" (ref_key "right" newSalt)); [reflexivity|].
  intros m. vm_compute. discriminate.
Defined.

(** ** The record store: one statement at a time *)

Lemma Outcome_bind_inv {A B} (o : Outcome A) (k : A → Outcome B) (b : B) :
  o ≫= k = Ret b → ∃ a, o = Ret a ∧ k a = Ret b.
Proof. destruct o as [a|e]; [eauto|discriminate]. Qed.

Lemma bind_column_name (table : string) (params : list (string * json)) (c : column)
    (cell : string * sqlval) :
  bind_column table params c = Ret cell → cell.1 = col_name c.
Proof.
  unfold bind_column. intros Hb. apply Outcome_bind_inv in Hb as (v & _ & Hb).
  destruct (_ && _); [discriminate|]. by injection Hb as <-.
Qed.

(** A bound row has the columns of the statement, in order. *)
Lemma bind_row_names (table : string) (params : list (string * json))
    (cols : list column) (cells : Row) :
  bind_row table params cols = Ret cells → map fst cells = map col_name cols.
Proof.
  revert cells. induction cols as [|c cols IH]; intros cells Hb.
  - by injection Hb as <-.
  - cbn [bind_row] in Hb. apply Outcome_bind_inv in Hb as (cell & Hcell & Hb).
    apply Outcome_bind_inv in Hb as (cells0 & Hcells & Hb). injection Hb as <-.
    cbn [map]. f_equal; [by eapply bind_column_name|by apply IH].
Qed.

Lemma row_get_app_l (c : string) (l l' : Row) :
  c ∈ map fst l → row_get c (l ++ l')%list = row_get c l.
Proof.
  induction l as [|[c' v] l IH]; [by intros ?%elem_of_nil|].
  cbn [map fst app row_get]. intros Hin.
  destruct (String.eqb_spec c c') as [->|Hne]; [reflexivity|].
  apply IH. apply elem_of_cons in Hin as [?|?]; done.
Qed.

Lemma row_get_app_r (c : string) (l l' : Row) :
  c ∉ map fst l → row_get c (l ++ l')%list = row_get c l'.
Proof.
  induction l as [|[c' v] l IH]; [done|].
  cbn [map fst app row_get]. intros [Hne Hin]%not_elem_of_cons.
  destruct (String.eqb_spec c c') as [->|_]; [done|]. by apply IH.
Qed.

(** The value a bound row holds in one of its columns. *)
Lemma bind_row_get (table : string) (params : list (string * json))
    (cols : list column) (cells : Row) (c : column) :
  bind_row table params cols = Ret cells →
  NoDup (map col_name cols) →
  c ∈ cols →
  ∃ v, bind_value (col_name c) (obj_get (col_name c) params) = Ret v ∧
       row_get (col_name c) cells = apply_affinity (col_affinity c) v.
Proof.
  revert cells. induction cols as [|c0 cols IH]; intros cells Hb Hnd Hin;
    [by apply elem_of_nil in Hin|].
  cbn [bind_row] in Hb. apply Outcome_bind_inv in Hb as ([n v0] & Hcell & Hb).
  apply Outcome_bind_inv in Hb as (cells0 & Hcells & Hb). injection Hb as <-.
  cbn [map] in Hnd. apply NoDup_cons in Hnd as [Hc0 Hnd].
  pose proof (bind_column_name _ _ _ _ Hcell) as Hname.
  cbn [fst] in Hname. subst n. cbn [row_get].
  apply elem_of_cons in Hin as [->|Hin].
  - rewrite String.eqb_refl. unfold bind_column in Hcell.
    apply Outcome_bind_inv in Hcell as (v & Hv & Hcell).
    destruct (_ && _); [discriminate|]. injection Hcell as <-. eauto.
  - destruct (String.eqb_spec (col_name c) (col_name c0)) as [Heq|_]; [|by apply IH].
    destruct Hc0. rewrite <- Heq. apply list_elem_of_fmap. eauto.
Qed.

(** A statement that names [id] first stores the row under the bound id. *)
Lemma bind_row_pk (table : string) (params : list (string * json))
    (rest : list column) (cells extra : Row) (id : string) :
  bind_row table params (mkColumn "id" TEXT false :: rest) = Ret cells →
  obj_get "id" params = Some (JStr id) →
  pk (cells ++ extra)%list = SText id.
Proof.
  intros Hb Hid. cbn [bind_row] in Hb.
  apply Outcome_bind_inv in Hb as (cell & Hcell & Hb).
  apply Outcome_bind_inv in Hb as (cells0 & Hcells & Hb). injection Hb as <-.
  unfold bind_column in Hcell. cbn [col_name col_affinity col_notnull andb] in Hcell.
  rewrite Hid in Hcell. cbn in Hcell. injection Hcell as <-. reflexivity.
Qed.

Lemma with_tags_id (fields : list (string * json)) (params : list (string * json)) :
  with_tags (JObj fields) = Ret params → obj_get "id" params = obj_get "id" fields.
Proof.
  unfold with_tags. intros Hp. apply Outcome_bind_inv in Hp as (tags & _ & Hp).
  injection Hp as <-. by rewrite obj_get_obj_set_ne.
Qed.

Lemma delete_by_id_absent (id : string) (rows : list Row) :
  existsb (λ old, sqlval_eqb (pk old) (SText id)) rows = false →
  delete_by_id id rows = rows.
Proof.
  unfold delete_by_id. induction rows as [|r rows IH]; [done|].
  cbn [existsb]. intros [Hr Hrows]%orb_false_elim.
  rewrite filter_cons. rewrite Hr. cbn [negb]. rewrite decide_True by done.
  by rewrite IH.
Qed.

Lemma delete_by_id_app (id : string) (rows rows' : list Row) :
  delete_by_id id (rows ++ rows')%list = (delete_by_id id rows ++ delete_by_id id rows')%list.
Proof. apply filter_app. Qed.

(** [db:add-host] never replaces a host.  When a host with the id of the
    new one is in the table, the handler answers with a failure and the
    record store is as it was: unlike the import of a sync, which replaces
    the row. *)
Theorem add_host_refuses_taken_id (w : World) (d : Database)
    (fields : list (string * json)) (id : string) (old : Row) :
  db w = Some d →
  obj_get "id" fields = Some (JStr id) →
  old ∈ hosts d →
  pk old = SText id →
  ∃ err, db_add_host (JObj fields) w = (Ret (Failure err), w).
Proof.
  intros Hdb Hid Hin Hpk. unfold db_add_host, db_handler. rewrite Hdb.
  destruct (add_host_stmt (now w) (JObj fields) d) as [d'|e] eqn:Hst; [|eauto].
  exfalso. unfold add_host_stmt in Hst.
  apply Outcome_bind_inv in Hst as (params & Hparams & Hst).
  apply Outcome_bind_inv in Hst as (cells & Hcells & Hst).
  apply Outcome_bind_inv in Hst as (rows & Hrows & Hst).
  pose proof (with_tags_id _ _ Hparams) as Hid'. rewrite Hid in Hid'.
  unfold insert_row in Hrows.
  destruct (existsb _ (hosts d)) eqn:Hex; [discriminate|].
  assert (existsb
            (pk_conflict (cells ++ [("created_at", SText (CURRENT_TIMESTAMP (now w)))])%list)
            (hosts d) = true) as Hex'; [|congruence].
  apply existsb_exists. exists old. split; [by apply list_elem_of_In|].
  unfold pk_conflict. rewrite (bind_row_pk _ _ _ _ _ id Hcells Hid'), Hpk.
  cbn [sqlval_eqb negb andb]. apply String.eqb_refl.
Qed.

Lemma pk_conflict_id (row : Row) (id : string) (rows : list Row) :
  pk row = SText id →
  existsb (pk_conflict row) rows = existsb (λ old, sqlval_eqb (pk old) (SText id)) rows.
Proof.
  intros Hpk. induction rows as [|r rows IH]; [done|].
  cbn [existsb]. rewrite IH. unfold pk_conflict. by rewrite Hpk.
Qed.

Lemma not_in_names (c : string) (names : list string) :
  forallb (λ n, negb (String.eqb c n)) names = true → c ∉ names.
Proof.
  induction names as [|n names IH]; [intros _ ?%elem_of_nil; done|].
  cbn [forallb]. intros [Hn Hrest]%andb_prop [->|Hin]%elem_of_cons.
  - by rewrite String.eqb_refl in Hn.
  - by apply IH.
Qed.

(** What [db:add-host] adds, [db:remove-host] removes.  When adding a host
    succeeds, the host is the last row of the table, stored under its id
    with the time of the insert as its creation time; removing that id then
    succeeds and the table is as it was before the host was added. *)
Theorem added_host_can_be_removed (w : World) (fields : list (string * json))
    (id : string) :
  obj_get "id" fields = Some (JStr id) →
  run (db_add_host (JObj fields)) w = Ret (Success tt) →
  let w1 := exec (db_add_host (JObj fields)) w in
  let w2 := exec (db_remove_host id) w1 in
  (∃ row, hosts_of w1 = (hosts_of w ++ [row])%list ∧ pk row = SText id ∧
          row_get "created_at" row = SText (CURRENT_TIMESTAMP (now w))) ∧
  run (db_remove_host id) w1 = Ret (Success tt) ∧
  hosts_of w2 = hosts_of w.
Proof.
  intros Hid Hrun w1 w2. subst w1 w2.
  unfold run, exec, db_add_host, db_handler in *.
  destruct (db w) as [d|] eqn:Hdb; [|discriminate].
  destruct (add_host_stmt (now w) (JObj fields) d) as [d'|e] eqn:Hst; [|discriminate].
  clear Hrun. unfold add_host_stmt in Hst.
  apply Outcome_bind_inv in Hst as (params & Hparams & Hst).
  apply Outcome_bind_inv in Hst as (cells & Hcells & Hst).
  apply Outcome_bind_inv in Hst as (rows & Hrows & Hst).
  injection Hst as <-.
  pose proof (with_tags_id _ _ Hparams) as Hid'. rewrite Hid in Hid'.
  set (row := (cells ++ [("created_at", SText (CURRENT_TIMESTAMP (now w)))])%list) in *.
  assert (pk row = SText id) as Hpk by (by eapply bind_row_pk).
  unfold insert_row in Hrows.
  destruct (existsb (pk_conflict row) (hosts d)) eqn:Hex; [discriminate|].
  injection Hrows as <-. rewrite (pk_conflict_id row id _ Hpk) in Hex.
  cbn [fst snd db set_db]. unfold hosts_of. cbn [db set_db hosts set_hosts].
  rewrite Hdb. split; [|split; [reflexivity|]].
  - exists row. split; [reflexivity|]. split; [exact Hpk|].
    unfold row. rewrite row_get_app_r; [reflexivity|].
    rewrite (bind_row_names _ _ _ _ Hcells). by apply not_in_names.
  - unfold db_remove_host, db_handler. cbn [db set_db snd hosts set_hosts].
    rewrite delete_by_id_app, delete_by_id_absent by exact Hex.
    unfold delete_by_id. rewrite filter_cons, Hpk.
    cbn [sqlval_eqb]. rewrite String.eqb_refl. cbn [negb].
    rewrite decide_False by (by intros []). by rewrite filter_nil, app_nil_r.
Qed.

(** [db:update-settings] followed by [db:get-settings] gives the settings
    back. *)
Theorem saved_settings_are_read (w : World) (d : Database) (s : json) :
  db w = Some d →
  json_wf s = true →
  let w' := exec (db_update_settings s) w in
  run (db_update_settings s) w = Ret (Success tt) ∧
  db_get_settings w' = (Ret s, w') ∧
  hosts_of w' = hosts_of w ∧ snippets_of w' = snippets_of w.
Proof.
  intros Hdb Hwf w'. subst w'.
  unfold run, exec, db_update_settings, db_get_settings, db_handler, hosts_of, snippets_of.
  rewrite Hdb. cbn [fst snd db set_db settings set_settings hosts snippets].
  rewrite lookup_insert_eq. unfold parse_or_throw.
  by rewrite JSON_parse_stringify.
Qed.

Lemma created_at_of_found (id : string) (rows : list Row) (v : sqlval) :
  (∃ old, old ∈ rows ∧ pk old = SText id) →
  (∀ old, old ∈ rows → pk old = SText id → row_get "created_at" old = v) →
  created_at_of (SText id) rows = v.
Proof.
  intros (old & Hin & Hpk) Hall. unfold created_at_of.
  destruct (find _ rows) as [r|] eqn:Hf.
  - apply find_some in Hf as [Hr Hm]. cbn [sqlval_eqb negb andb] in Hm.
    apply sqlval_eqb_eq in Hm. apply Hall; [by apply list_elem_of_In|done].
  - apply find_none with (x := old) in Hf; [|by apply list_elem_of_In].
    cbn [sqlval_eqb negb andb] in Hf. rewrite Hpk in Hf.
    cbn [sqlval_eqb] in Hf. by rewrite String.eqb_refl in Hf.
Qed.

(** What [INSERT OR REPLACE] leaves of a table, for a row stored under the
    text [id]. *)
Lemma insert_or_replace_by_id (row : Row) (id : string) (rows : list Row) :
  pk row = SText id →
  (∀ r, r ∈ insert_or_replace row rows → pk r = SText id → r = row) ∧
  (∀ r, pk r ≠ SText id → (r ∈ insert_or_replace row rows ↔ r ∈ rows)).
Proof.
  intros Hpk. unfold insert_or_replace. split.
  - intros r [Hr|Hr%list_elem_of_singleton]%elem_of_app Hid; [|done].
    apply list_elem_of_filter in Hr as [Hr _].
    unfold pk_conflict in Hr. rewrite Hpk, Hid in Hr.
    cbn [sqlval_eqb negb andb] in Hr. by rewrite String.eqb_refl in Hr.
  - intros r Hne. split.
    + intros [Hr|Hr%list_elem_of_singleton]%elem_of_app; [|congruence].
      by apply list_elem_of_filter in Hr as [_ Hr].
    + intros Hr. apply elem_of_app. left. apply list_elem_of_filter. split; [|done].
      unfold pk_conflict. rewrite Hpk.
      destruct (sqlval_eqb (pk r) (SText id)) eqn:Heq; [|by rewrite andb_false_r].
      by apply sqlval_eqb_eq in Heq.
Qed.

(** [db:save-snippet] on a snippet that exists keeps its creation time.
    When saving succeeds and the table held a snippet with this id, whose
    creation time is [v], the table then holds exactly one row with this id,
    created at [v], and every row with another id is as it was. *)
Theorem saved_snippet_keeps_creation_time (w : World) (fields : list (string * json))
    (id : string) (v : sqlval) :
  obj_get "id" fields = Some (JStr id) →
  run (db_save_snippet (JObj fields)) w = Ret (Success tt) →
  (∃ old, old ∈ snippets_of w ∧ pk old = SText id) →
  (∀ old, old ∈ snippets_of w → pk old = SText id → row_get "created_at" old = v) →
  v ≠ SNull →
  let w' := exec (db_save_snippet (JObj fields)) w in
  ∃ row, row ∈ snippets_of w' ∧ pk row = SText id ∧ row_get "created_at" row = v ∧
    (∀ r, r ∈ snippets_of w' → pk r = SText id → r = row) ∧
    (∀ r, pk r ≠ SText id → (r ∈ snippets_of w' ↔ r ∈ snippets_of w)).
Proof.
  intros Hid Hrun Hold Hall Hv w'. subst w'.
  unfold run, exec, db_save_snippet, db_handler, snippets_of in *.
  destruct (db w) as [d|] eqn:Hdb; [|discriminate].
  destruct (save_snippet_stmt (now w) (JObj fields) d) as [d'|e] eqn:Hst; [|discriminate].
  clear Hrun. unfold save_snippet_stmt in Hst.
  apply Outcome_bind_inv in Hst as (params & Hparams & Hst).
  apply Outcome_bind_inv in Hst as (rows & Hrows & Hst).
  injection Hst as <-. unfold save_row in Hrows.
  apply Outcome_bind_inv in Hrows as (cells & Hcells & Hrows).
  injection Hrows as <-.
  pose proof (with_tags_id _ _ Hparams) as Hid'. rewrite Hid in Hid'.
  assert (obj_get "id" (obj_set "created_at" (JStr (now w)) params) = Some (JStr id))
    as Hid'' by (by rewrite obj_get_obj_set_ne).
  assert (pk cells = SText id) as Hpk0.
  { rewrite <- (app_nil_r cells). by eapply bind_row_pk. }
  rewrite Hpk0, (created_at_of_found id _ v Hold Hall).
  assert (∀ fresh, match v with SNull => fresh | SInt n => SInt n | SText s => SText s end
                   = v) as -> by (by destruct v).
  set (row := (cells ++ [("created_at", v)])%list).
  assert (pk row = SText id) as Hpk by (by eapply bind_row_pk).
  cbn [snd db set_db snippets set_snippets].
  exists row. split; [apply insert_or_replace_new|]. split; [exact Hpk|]. split.
  - unfold row. rewrite row_get_app_r; [reflexivity|].
    rewrite (bind_row_names _ _ _ _ Hcells). by apply not_in_names.
  - by apply insert_or_replace_by_id.
Qed.

(** *** Updating a host *)

Lemma row_get_row_set_ne (c c' : string) (v : sqlval) (r : Row) :
  c ≠ c' → row_get c (row_set c' v r) = row_get c r.
Proof.
  intros Hne. induction r as [|[c0 v0] r IH]; [done|].
  cbn [row_set]. destruct (String.eqb_spec c' c0) as [->|Hc0]; cbn [row_get].
  - by destruct (String.eqb_spec c c0).
  - by rewrite IH.
Qed.

Lemma set_columns_keeps (table : string) (bound : Row) (cols : list column)
    (r r' : Row) (c : string) :
  set_columns table bound cols r = Ret r' →
  c ∉ map col_name cols →
  row_get c r' = row_get c r.
Proof.
  revert r. induction cols as [|c0 cols IH]; intros r Hs Hc.
  - by injection Hs as <-.
  - cbn [set_columns] in Hs. apply Outcome_bind_inv in Hs as (r1 & Hr1 & Hs).
    cbn [map] in Hc. apply not_elem_of_cons in Hc as [Hne Hc].
    rewrite (IH _ Hs Hc). unfold set_column in Hr1.
    destruct (_ && _); [discriminate|]. injection Hr1 as <-.
    by apply row_get_row_set_ne.
Qed.

Lemma bind_all_get (params : list (string * json)) (names : list string) (bound : Row)
    (n : string) :
  bind_all params names = Ret bound →
  n ∈ names →
  ∃ v, bind_value n (obj_get n params) = Ret v ∧ row_get n bound = v.
Proof.
  revert bound. induction names as [|n0 names IH]; intros bound Hb Hin;
    [by apply elem_of_nil in Hin|].
  cbn [bind_all] in Hb. apply Outcome_bind_inv in Hb as (v0 & Hv0 & Hb).
  apply Outcome_bind_inv in Hb as (vs & Hvs & Hb). injection Hb as <-.
  cbn [row_get]. destruct (String.eqb_spec n n0) as [->|Hne]; [eauto|].
  apply IH; [done|]. apply elem_of_cons in Hin as [?|?]; done.
Qed.

(** What [UPDATE ... WHERE id = @id] does to a table, row by row. *)
Lemma update_where_rows (idv : sqlval) (upd : Row → Outcome Row) (rows rows' : list Row) :
  update_where idv upd rows = Ret rows' →
  Forall2 (λ r r', r' = r ∨ (idv ≠ SNull ∧ pk r = idv ∧ upd r = Ret r')) rows rows'.
Proof.
  revert rows'. induction rows as [|r rows IH]; intros rows' Hu.
  - injection Hu as <-. constructor.
  - cbn [update_where] in Hu. apply Outcome_bind_inv in Hu as (r1 & Hr1 & Hu).
    apply Outcome_bind_inv in Hu as (rest & Hrest & Hu). injection Hu as <-.
    constructor; [|by apply IH].
    destruct (negb (sqlval_eqb idv SNull) && sqlval_eqb (pk r) idv) eqn:Hm.
    + right. apply andb_prop in Hm as [Hn Hp]. apply sqlval_eqb_eq in Hp.
      split; [|done]. intros ->. by destruct (pk r).
    + left. by injection Hr1.
Qed.

(** [UPDATE ... WHERE id = @id] when no row has the id: no row is touched
    and no constraint is checked. *)
Lemma update_where_absent (idv : sqlval) (upd : Row → Outcome Row) (rows : list Row) :
  (∀ r, r ∈ rows → pk r ≠ idv) → update_where idv upd rows = Ret rows.
Proof.
  induction rows as [|r rows IH]; intros Hnone; [reflexivity|].
  cbn [update_where].
  assert (sqlval_eqb (pk r) idv = false) as ->.
  { apply not_true_is_false. intros Heq%sqlval_eqb_eq.
    by apply (Hnone r); [left|]. }
  rewrite andb_false_r. cbn [mbind Outcome_bind].
  rewrite IH; [reflexivity|]. intros r0 Hin. apply Hnone. by right.
Qed.

(** [db:update-host] rewrites the host with the id it is given and nothing
    else.  When the update succeeds, the table has the same ids and the same
    creation times, in the same order, every row with another id is as it
    was, and the snippets are untouched.  When no row has the id, the
    handler reports success and the table is unchanged, as long as the
    database is open and the host carries a name, a host, a port, a user
    name and a folder that bind (a number, a string or [null]). *)
Theorem update_host_keeps_ids_and_dates (w : World) (fields : list (string * json))
    (id : string) :
  obj_get "id" fields = Some (JStr id) →
  let w' := exec (db_update_host (JObj fields)) w in
  (run (db_update_host (JObj fields)) w = Ret (Success tt) →
   pks (hosts_of w') = pks (hosts_of w) ∧
   map (row_get "created_at") (hosts_of w') = map (row_get "created_at") (hosts_of w) ∧
   Forall2 (λ r r', pk r ≠ SText id → r' = r) (hosts_of w) (hosts_of w') ∧
   snippets_of w' = snippets_of w) ∧
  ((∀ r, r ∈ hosts_of w → pk r ≠ SText id) →
   is_Some (db w) →
   (∀ n, n ∈ ["name"; "host"; "port"; "username"; "folder"] →
         ∃ v, bind_value n (obj_get n fields) = Ret v) →
   run (db_update_host (JObj fields)) w = Ret (Success tt) ∧
   hosts_of w' = hosts_of w ∧ snippets_of w' = snippets_of w).
Proof.
  intros Hid w'. subst w'. split.
  - intros Hrun.
    unfold run, exec, db_update_host, db_handler, hosts_of, snippets_of in *.
    destruct (db w) as [d|] eqn:Hdb; [|discriminate].
    destruct (update_host_stmt (JObj fields) d) as [d'|e] eqn:Hst; [|discriminate].
    clear Hrun. unfold update_host_stmt in Hst.
    apply Outcome_bind_inv in Hst as (params & Hparams & Hst).
    apply Outcome_bind_inv in Hst as (bound & Hbound & Hst).
    apply Outcome_bind_inv in Hst as (rows & Hrows & Hst).
    injection Hst as <-. cbn [snd db set_db hosts snippets set_hosts].
    pose proof (with_tags_id _ _ Hparams) as Hid'. rewrite Hid in Hid'.
    assert (apply_affinity TEXT (row_get "id" bound) = SText id) as Hidv.
    { destruct (bind_all_get _ _ _ "id" Hbound) as (v & Hv & ->);
        [apply list_elem_of_In; simpl; tauto|].
      rewrite Hid' in Hv. by injection Hv as <-. }
    rewrite Hidv in Hrows. apply update_where_rows in Hrows.
    assert (Forall2 (λ r r', pk r' = pk r ∧
                            row_get "created_at" r' = row_get "created_at" r ∧
                            (pk r ≠ SText id → r' = r)) (hosts d) rows) as Hall.
    { eapply Forall2_impl; [exact Hrows|]. intros r r' [->|(_ & Hp & Hu)]; [done|].
      split; [|split; [|done]].
      - unfold pk. eapply set_columns_keeps; [exact Hu|]. by apply not_in_names.
      - eapply set_columns_keeps; [exact Hu|]. by apply not_in_names. }
    clear Hrows. repeat split.
    + unfold pks. induction Hall as [|r r' l l' (Hp & _) _ IH]; [done|].
      cbn [map]. by rewrite Hp, IH.
    + induction Hall as [|r r' l l' (_ & Hc & _) _ IH]; [done|].
      cbn [map]. by rewrite Hc, IH.
    + eapply Forall2_impl; [exact Hall|]. by intros r r' (_ & _ & ?).
  - intros Hnone [d Hdb] Hbind.
    unfold run, exec, db_update_host, db_handler, hosts_of, snippets_of in *.
    rewrite Hdb in *.
    assert (update_host_stmt (JObj fields) d = Ret (set_hosts (hosts d) d)) as ->.
    { unfold update_host_stmt, with_tags. cbn [tags_or_empty mbind Outcome_bind js_spread].
      set (params := obj_set "tags" _ fields).
      assert (∀ n, n ≠ "tags" → obj_get n params = obj_get n fields) as Hget
        by (intros n Hn; by apply obj_get_obj_set_ne).
      cbn [bind_all].
      rewrite (Hget "name"), (Hget "host"), (Hget "port"), (Hget "username"),
        (Hget "folder"), (Hget "id") by done.
      unfold params. rewrite obj_get_obj_set_eq. rewrite Hid.
      destruct (Hbind "name") as [v1 ->]; [set_solver|].
      destruct (Hbind "host") as [v2 ->]; [set_solver|].
      destruct (Hbind "port") as [v3 ->]; [set_solver|].
      destruct (Hbind "username") as [v4 ->]; [set_solver|].
      destruct (Hbind "folder") as [v5 ->]; [set_solver|].
      cbn [bind_value mbind Outcome_bind row_get String.eqb Ascii.eqb Bool.eqb
           apply_affinity].
      by rewrite update_where_absent. }
    cbn [fst snd db set_db]. by destruct d.
Qed.

(** *** Tags, settings and the seed *)

Lemma JSON_stringify_nonempty (j : json) : String.eqb (JSON_stringify j) "" = false.
Proof. destruct (JSON_stringify_head j) as (c & tail & -> & _). reflexivity. Qed.

Lemma schema_names_NoDup (names : list string) :
  (fix go l :=
     match l with
     | [] => true
     | n :: rest => forallb (λ m, negb (String.eqb n m)) rest && go rest
     end) names = true →
  NoDup names.
Proof.
  induction names as [|n names IH]; [constructor|].
  intros [Hn Hrest]%andb_prop. constructor; [by apply not_in_names|by apply IH].
Qed.

(** The tags of an imported host or snippet come back from an export.  The
    import stores [JSON.stringify(tags)] in the row; the export parses the
    column and hands the same value back. *)
Theorem imported_tags_are_exported (t table : string) (fields p : list (string * json))
    (T : json) (schema : list column) (row : Row) :
  schema = hosts_schema ∨ schema = snippets_schema →
  tagged_params t (JObj fields) = Ret p →
  obj_get "tags" fields = Some T →
  json_wf T = true →
  bind_row table p schema = Ret row →
  ∃ out, export_tagged row = Ret (JObj out) ∧ obj_get "tags" out = Some T.
Proof.
  intros Hschema Hp Htags Hwf Hrow.
  cbn [tagged_params] in Hp. rewrite Htags in Hp. injection Hp as <-.
  destruct (bind_row_get _ _ _ _ (mkColumn "tags" TEXT false) Hrow) as (v & Hv & Hget).
  { destruct Hschema as [-> | ->]; by apply schema_names_NoDup. }
  { destruct Hschema as [-> | ->]; apply list_elem_of_In; simpl; tauto. }
  cbn [col_name col_affinity] in *.
  rewrite obj_get_obj_set_ne, obj_get_obj_set_eq in Hv by done.
  injection Hv as <-. cbn [apply_affinity] in Hget.
  unfold export_tagged. rewrite Hget. cbv beta iota zeta.
  rewrite JSON_stringify_nonempty. unfold parse_or_throw. rewrite JSON_parse_stringify by done.
  eexists. split; [reflexivity|]. apply obj_get_obj_set_eq.
Qed.

(** An import never replaces the git credentials of this machine.  When the
    stored settings hold a [gitConfig] with a token, a committed import of a
    settings object stores the incoming settings with the local [gitConfig]
    in place of the incoming one. *)
Theorem import_keeps_git_token (t value : string) (data g : json) (d d' : Database)
    (incoming cur : list (string * json)) :
  importTx t data d = Ret d' →
  prop data "settings" = Some (JObj incoming) →
  json_wf (JObj incoming) = true →
  settings d !! "app_settings" = Some value →
  JSON_parse value = Some (JObj cur) →
  obj_get "gitConfig" cur = Some g →
  truthy g = true →
  truthy_opt (prop g "token") = true →
  ∃ s, (settings d' !! "app_settings") ≫= JSON_parse = Some (JObj s) ∧
       obj_get "gitConfig" s = Some g ∧
       ∀ k, k ≠ "gitConfig" → obj_get k s = obj_get k incoming.
Proof.
  intros Htx Hs Hwf Hv Hcur Hg Htg Htok. unfold importTx in Htx.
  apply Outcome_bind_inv in Htx as (hs & _ & Htx).
  apply Outcome_bind_inv in Htx as (ss & _ & Htx).
  cbv zeta in Htx. rewrite Hs in Htx. cbn [truthy] in Htx.
  apply Outcome_bind_inv in Htx as (d2 & Hd2 & Htx).
  apply Outcome_bind_inv in Htx as (rcs & _ & Htx). injection Htx as <-.
  cbn [settings]. unfold import_settings in Hd2. cbn [settings] in Hd2.
  rewrite Hv in Hd2. unfold parse_or_throw in Hd2. rewrite Hcur in Hd2.
  cbn [mbind Outcome_bind prop js_spread] in Hd2. rewrite Hg, Htg, Htok in Hd2.
  cbn [andb] in Hd2. injection Hd2 as <-. cbn [settings].
  rewrite lookup_insert_eq. cbn [mbind option_bind].
  assert (json_wf g = true) as Hwg.
  { eapply obj_get_wf; [|exact Hg]. by eapply JSON_parse_wf. }
  exists (obj_set "gitConfig" g incoming).
  split; [apply (JSON_parse_stringify (JObj _)); by apply obj_set_wf|].
  split; [apply obj_get_obj_set_eq|].
  intros k Hk. by apply obj_get_obj_set_ne.
Qed.

(** [seedDefaultSnippets] fills an empty table and nothing else.  It never
    throws; a table that holds a snippet is left as it is; an empty table
    receives the five default snippets, under the ids 1 to 5; the hosts are
    not touched; and seeding twice is seeding once. *)
Theorem seeding_fills_only_an_empty_table (w : World) :
  let w' := exec seedDefaultSnippets w in
  run seedDefaultSnippets w = Ret tt ∧
  (snippets_of w ≠ [] → w' = w) ∧
  (∀ d, db w = Some d → snippets d = [] →
     pks (snippets_of w') = [SText "1"; SText "2"; SText "3"; SText "4"; SText "5"]) ∧
  hosts_of w' = hosts_of w ∧
  exec seedDefaultSnippets w' = w'.
Proof.
  destruct w as [k vf mf [[hs [|s ss] st rc]|] sd uw tn en cu nw tr];
    cbv zeta; conjs;
    first
      [ by (vm_compute; reflexivity)
      | by (intros Hne; destruct Hne)
      | by (intros d Hd Hs; cbn [db] in Hd; simplify_eq; try (vm_compute; reflexivity)) ].
Qed.

(** *** Witnesses on sample records *)

Lemma add_host_refuses_taken_id_witness :
  host_row "remote-1" "build server" ∈ hosts_of machine_a ∧
  ∃ err, db_add_host (JObj (sample_host "remote-1")) machine_a
         = (Ret (Failure err), machine_a).
Proof.
  split; [vm_compute; left|].
  apply (add_host_refuses_taken_id machine_a
           (mkDatabase [host_row "remote-1" "build server"] [] ∅ [])
           (sample_host "remote-1") "remote-1" (host_row "remote-1" "build server"));
    try reflexivity.
  by left.
Defined.

Lemma added_host_can_be_removed_witness :
  let w1 := exec (db_add_host (JObj (sample_host "h1"))) world0 in
  let w2 := exec (db_remove_host "h1") w1 in
  (∃ row, hosts_of w1 = (hosts_of world0 ++ [row])%list ∧ pk row = SText "h1" ∧
          row_get "created_at" row = SText "2024-01-01 00:00:00") ∧
  run (db_remove_host "h1") w1 = Ret (Success tt) ∧
  hosts_of w2 = hosts_of world0.
Proof.
  apply (added_host_can_be_removed world0 (sample_host "h1") "h1");
    vm_compute; reflexivity.
Defined.

Lemma saved_settings_are_read_witness :
  let s := JObj [("terminalFontSize", JNum 13); ("timeFormat", JStr "24h")] in
  let w' := exec (db_update_settings s) world0 in
  run (db_update_settings s) world0 = Ret (Success tt) ∧
  db_get_settings w' = (Ret s, w') ∧
  hosts_of w' = hosts_of world0 ∧ snippets_of w' = snippets_of world0.
Proof.
  apply (saved_settings_are_read world0 empty_db); reflexivity.
Defined.

Lemma saved_snippet_keeps_creation_time_witness :
  let w' := exec (db_save_snippet (JObj (sample_snippet "s1"))) world_snippet in
  ∃ row, row ∈ snippets_of w' ∧ pk row = SText "s1" ∧
    row_get "created_at" row = SText "2023-05-05T00:00:00.000Z" ∧
    (∀ r, r ∈ snippets_of w' → pk r = SText "s1" → r = row) ∧
    (∀ r, pk r ≠ SText "s1" → (r ∈ snippets_of w' ↔ r ∈ snippets_of world_snippet)).
Proof.
  apply (saved_snippet_keeps_creation_time world_snippet (sample_snippet "s1") "s1"
           (SText "2023-05-05T00:00:00.000Z")).
  - reflexivity.
  - vm_compute. reflexivity.
  - eexists. split; [by left|reflexivity].
  - intros old Hin Hpk. vm_compute in Hin. apply list_elem_of_singleton in Hin.
    by subst old.
  - discriminate.
Defined.

Lemma update_host_keeps_ids_and_dates_witness :
  let w' := exec (db_update_host (JObj (sample_host "remote-1"))) machine_a in
  let w'' := exec (db_update_host (JObj (sample_host "absent-1"))) machine_a in
  (run (db_update_host (JObj (sample_host "remote-1"))) machine_a = Ret (Success tt) ∧
   pks (hosts_of machine_a) = [SText "remote-1"]) ∧
  (pks (hosts_of w') = pks (hosts_of machine_a) ∧
   map (row_get "created_at") (hosts_of w') = map (row_get "created_at") (hosts_of machine_a) ∧
   Forall2 (λ r r', pk r ≠ SText "remote-1" → r' = r) (hosts_of machine_a) (hosts_of w') ∧
   snippets_of w' = snippets_of machine_a) ∧
  (run (db_update_host (JObj (sample_host "absent-1"))) machine_a = Ret (Success tt) ∧
   hosts_of w'' = hosts_of machine_a ∧ snippets_of w'' = snippets_of machine_a).
Proof.
  intros w' w''. split; [split; vm_compute; reflexivity|]. split.
  - apply (update_host_keeps_ids_and_dates machine_a (sample_host "remote-1") "remote-1");
      vm_compute; reflexivity.
  - apply (update_host_keeps_ids_and_dates machine_a (sample_host "absent-1") "absent-1").
    + reflexivity.
    + intros r Hin. vm_compute in Hin. apply list_elem_of_singleton in Hin as ->.
      vm_compute. discriminate.
    + vm_compute. eauto.
    + intros n Hn. repeat (apply elem_of_cons in Hn as [->|Hn]; [vm_compute; eauto|]).
      by apply elem_of_nil in Hn.
Defined.

(** An imported host without tags is stored with NULL tags, and its number
    id is stored as the text of a real. *)
Example untagged_host_is_imported :
  (p ← tagged_params "2024-01-01T00:00:00.000Z" (JObj untagged_host);
   run_insert "hosts" hosts_schema p []) =
  Ret [[("id", SText "7.0"); ("name", SText "web"); ("host", SText "10.0.0.2");
        ("port", SInt 22); ("username", SText "root"); ("folder", SNull);
        ("tags", SNull); ("created_at", SText "2024-01-01T00:00:00.000Z")]].
Proof. vm_compute. reflexivity. Qed.

Lemma imported_tags_are_exported_witness :
  let p := match tagged_params "2024-01-01T00:00:00.000Z" (JObj (sample_host "h1")) with
           | Ret p => p
           | Throw _ => []
           end in
  let row := match bind_row "hosts" p hosts_schema with Ret r => r | Throw _ => [] end in
  ∃ out, export_tagged row = Ret (JObj out) ∧
         obj_get "tags" out = Some (JArr [JStr "prod"]).
Proof.
  intros p row.
  apply (imported_tags_are_exported "2024-01-01T00:00:00.000Z" "hosts"
           (sample_host "h1") p (JArr [JStr "prod"]) hosts_schema row);
    [by left|vm_compute; reflexivity..].
Defined.

Lemma import_keeps_git_token_witness :
  let data := JObj [("settings", JObj incoming_settings)] in
  let d' := match importTx "2024-01-01T00:00:00.000Z" data db_with_token with
            | Ret d' => d'
            | Throw _ => db_with_token
            end in
  ∃ s, (settings d' !! "app_settings") ≫= JSON_parse = Some (JObj s) ∧
       obj_get "gitConfig" s = Some local_git_config ∧
       ∀ k, k ≠ "gitConfig" → obj_get k s = obj_get k incoming_settings.
Proof.
  intros data d'.
  apply (import_keeps_git_token "2024-01-01T00:00:00.000Z"
           (JSON_stringify (JObj [("gitConfig", local_git_config)])) data local_git_config
           db_with_token d' incoming_settings [("gitConfig", local_git_config)]);
    vm_compute; reflexivity.
Defined.
(** *** Remote connections *)

Lemma prop_or_falsy (fields : list (string * json)) (k : string) (fallback v : json) :
  truthy_opt (obj_get k fields) = false →
  prop_or (JObj fields) k fallback = Ret v → v = fallback.
Proof.
  unfold prop_or, prop, truthy_opt. intros Hf Hv. injection Hv as <-.
  destruct (obj_get k fields); [by rewrite Hf|done].
Qed.

(** [db:save-remote-connection] never stores an empty password or
    resolution as NULL.  When the connection has no password and no
    resolution (missing, null or empty) and saving succeeds, the table holds
    exactly one row with its id, whose password is the empty text and whose
    resolution is [smart]; every row with another id is as it was. *)
Theorem saved_connection_gets_defaults (w : World) (fields : list (string * json))
    (id : string) :
  obj_get "id" fields = Some (JStr id) →
  truthy_opt (obj_get "password" fields) = false →
  truthy_opt (obj_get "resolution" fields) = false →
  run (db_save_remote_connection (JObj fields)) w = Ret (Success tt) →
  let w' := exec (db_save_remote_connection (JObj fields)) w in
  ∃ row, row ∈ remote_connections_of w' ∧ pk row = SText id ∧
    row_get "password" row = SText "" ∧ row_get "resolution" row = SText "smart" ∧
    (∀ r, r ∈ remote_connections_of w' → pk r = SText id → r = row) ∧
    (∀ r, pk r ≠ SText id → (r ∈ remote_connections_of w' ↔ r ∈ remote_connections_of w)).
Proof.
  intros Hid Hpw Hres Hrun w'. subst w'.
  unfold run, exec, db_save_remote_connection, db_handler, remote_connections_of in *.
  destruct (db w) as [d|] eqn:Hdb; [|discriminate].
  destruct (save_remote_connection_stmt (now w) (JObj fields) d) as [d'|e] eqn:Hst;
    [|discriminate].
  clear Hrun. unfold save_remote_connection_stmt in Hst.
  apply Outcome_bind_inv in Hst as (password & Hpassword & Hst).
  apply Outcome_bind_inv in Hst as (resolution & Hresolution & Hst).
  apply Outcome_bind_inv in Hst as (rows & Hrows & Hst).
  injection Hst as <-. unfold save_row in Hrows.
  apply Outcome_bind_inv in Hrows as (cells & Hcells & Hrows).
  injection Hrows as <-.
  apply (prop_or_falsy _ _ _ _ Hpw) in Hpassword as ->.
  apply (prop_or_falsy _ _ _ _ Hres) in Hresolution as ->.
  cbn [js_spread] in Hcells.
  set (params := obj_set "created_at" _ _) in Hcells.
  assert (obj_get "id" params = Some (JStr id)) as Hid'.
  { unfold params. by rewrite !obj_get_obj_set_ne. }
  assert (obj_get "password" params = Some (JStr "")) as Hp.
  { unfold params. rewrite !obj_get_obj_set_ne by done. apply obj_get_obj_set_eq. }
  assert (obj_get "resolution" params = Some (JStr "smart")) as Hr.
  { unfold params. rewrite obj_get_obj_set_ne by done. apply obj_get_obj_set_eq. }
  set (row := (cells ++ [("created_at", _)])%list).
  assert (pk row = SText id) as Hpk by (by eapply bind_row_pk).
  assert (NoDup (map col_name remote_connections_insert_columns)) as Hnd
    by (vm_compute; repeat constructor; by apply not_in_names).
  cbn [snd db set_db remote_connections set_remote_connections].
  exists row. split; [apply insert_or_replace_new|]. split; [exact Hpk|].
  split; [|split; [|by apply insert_or_replace_by_id]].
  - unfold row. rewrite row_get_app_l
      by (rewrite (bind_row_names _ _ _ _ Hcells); apply list_elem_of_In; simpl; tauto).
    destruct (bind_row_get _ _ _ _ (mkColumn "password" TEXT false) Hcells Hnd)
      as (v & Hv & Hg); [apply list_elem_of_In; simpl; tauto|].
    cbn [col_name col_affinity] in Hv, Hg. rewrite Hp in Hv. injection Hv as <-.
    exact Hg.
  - unfold row. rewrite row_get_app_l
      by (rewrite (bind_row_names _ _ _ _ Hcells); apply list_elem_of_In; simpl; tauto).
    destruct (bind_row_get _ _ _ _ (mkColumn "resolution" TEXT false) Hcells Hnd)
      as (v & Hv & Hg); [apply list_elem_of_In; simpl; tauto|].
    cbn [col_name col_affinity] in Hv, Hg. rewrite Hr in Hv. injection Hv as <-.
    exact Hg.
Qed.

Lemma saved_connection_gets_defaults_witness :
  let w' := exec (db_save_remote_connection (JObj (sample_connection "c1"))) world_snippet in
  ∃ row, row ∈ remote_connections_of w' ∧ pk row = SText "c1" ∧
    row_get "password" row = SText "" ∧ row_get "resolution" row = SText "smart" ∧
    (∀ r, r ∈ remote_connections_of w' → pk r = SText "c1" → r = row) ∧
    (∀ r, pk r ≠ SText "c1" →
          (r ∈ remote_connections_of w' ↔ r ∈ remote_connections_of world_snippet)).
Proof.
  apply (saved_connection_gets_defaults world_snippet (sample_connection "c1") "c1").
  - reflexivity.
  - reflexivity.
  - reflexivity.
  - vm_compute. reflexivity.
Defined.

(** *** Deleting *)

Lemma delete_by_id_spec (id : string) (rows : list Row) (r : Row) :
  r ∈ delete_by_id id rows ↔ r ∈ rows ∧ pk r ≠ SText id.
Proof.
  unfold delete_by_id. rewrite list_elem_of_filter.
  destruct (sqlval_eqb (pk r) (SText id)) eqn:Heq; cbn [negb].
  - apply sqlval_eqb_eq in Heq. split; [by intros [[] _]|by intros [_ []]].
  - split; [intros [_ Hr]; split; [done|]|by intros [? _]].
    intros Hp. apply sqlval_eqb_eq in Hp. congruence.
Qed.

Lemma delete_by_id_none (id : string) (rows : list Row) :
  (∀ r, r ∈ rows → pk r ≠ SText id) → delete_by_id id rows = rows.
Proof.
  intros Hnone. apply delete_by_id_absent.
  destruct (existsb _ rows) eqn:Hex; [|done].
  apply existsb_exists in Hex as (r & Hin%list_elem_of_In & Heq%sqlval_eqb_eq).
  by destruct (Hnone r Hin).
Qed.

(** [db:delete-snippet] and [db:delete-remote-connection] report success
    whether or not the id exists.  With the database open, each one removes
    the rows stored under the id from its own table, keeps every other row
    and every other table, and leaves the database as it was when no row
    has the id. *)
Theorem delete_succeeds_with_or_without_the_row (w : World) (d : Database) (id : string) :
  db w = Some d →
  (∃ d', db_delete_snippet id w = (Ret (Success tt), set_db (Some d') w) ∧
     (∀ r, r ∈ snippets d' ↔ r ∈ snippets d ∧ pk r ≠ SText id) ∧
     hosts d' = hosts d ∧ settings d' = settings d ∧
     remote_connections d' = remote_connections d ∧
     ((∀ r, r ∈ snippets d → pk r ≠ SText id) → d' = d)) ∧
  (∃ d', db_delete_remote_connection id w = (Ret (Success tt), set_db (Some d') w) ∧
     (∀ r, r ∈ remote_connections d' ↔ r ∈ remote_connections d ∧ pk r ≠ SText id) ∧
     hosts d' = hosts d ∧ settings d' = settings d ∧ snippets d' = snippets d ∧
     ((∀ r, r ∈ remote_connections d → pk r ≠ SText id) → d' = d)).
Proof.
  intros Hdb. unfold db_delete_snippet, db_delete_remote_connection, db_handler.
  rewrite Hdb. split; eexists; (split; [reflexivity|]);
    cbn [hosts snippets settings remote_connections set_snippets set_remote_connections].
  - split; [apply delete_by_id_spec|]. do 3 (split; [reflexivity|]).
    intros Hnone. rewrite delete_by_id_none by exact Hnone. by destruct d.
  - split; [apply delete_by_id_spec|]. do 3 (split; [reflexivity|]).
    intros Hnone. rewrite delete_by_id_none by exact Hnone. by destruct d.
Qed.

Lemma delete_succeeds_with_or_without_the_row_witness :
  ∃ d, db world_snippet = Some d ∧
    (∃ d', db_delete_snippet "absent" world_snippet
             = (Ret (Success tt), set_db (Some d') world_snippet) ∧ d' = d) ∧
    (∃ d', db_delete_remote_connection "absent" world_snippet
             = (Ret (Success tt), set_db (Some d') world_snippet) ∧ d' = d).
Proof.
  eexists. split; [reflexivity|].
  destruct (delete_succeeds_with_or_without_the_row world_snippet _ "absent" eq_refl)
    as [(d1 & H1 & _ & _ & _ & _ & Hsame1) (d2 & H2 & _ & _ & _ & _ & Hsame2)].
  split.
  - exists d1. split; [exact H1|]. apply Hsame1. intros r Hin.
    apply list_elem_of_singleton in Hin. by subst r.
  - exists d2. split; [exact H2|]. apply Hsame2. by intros r Hin%elem_of_nil.
Defined.

(** ** The credentials callback *)

(** Whatever the attempt and the url, the callback answers with the trimmed
    token: as the password, or, for the first try against a host that is not
    GitLab, as the user name with an empty password.  Each call advances the
    counter by one. *)
Theorem token_is_always_offered (token : string) (explicitUsername : option string)
    (attempts : nat) (url : string) :
  let r := getOnAuth token explicitUsername attempts url in
  (auth_password r.1 = trim token ∨
   auth_username r.1 = trim token ∧ auth_password r.1 = "" ∧
   includes (toLowerCase url) "gitlab" = false) ∧
  r.2 = S attempts.
Proof.
  unfold getOnAuth. cbv zeta. cbn [fst snd]. split; [|reflexivity].
  repeat case_match; cbn [auth_password auth_username]; auto.
Qed.

(** The callback runs out of strategies.  A usable explicit user name is
    offered first, with the token as password; a blank one counts as none;
    and from the fourth call on the answer no longer changes: [git] for a
    GitLab url, [token] for any other, with the token as password. *)
Theorem offers_settle (token : string) (explicitUsername : option string) (url : string) :
  let last :=
    mkCredentials (if includes (toLowerCase url) "gitlab" then "git" else "token")
                  (trim token) in
  (∀ u, explicitUsername = Some u → trim u ≠ "" →
     (getOnAuth token explicitUsername 0 url).1 = mkCredentials (trim u) (trim token)) ∧
  (∀ u attempts, explicitUsername = Some u → trim u = "" →
     getOnAuth token explicitUsername attempts url = getOnAuth token None attempts url) ∧
  (∀ attempts, (3 ≤ attempts)%nat → (getOnAuth token explicitUsername attempts url).1 = last) ∧
  (∀ n, skipn 3 (offers token explicitUsername url 0 (3 + n)) = repeat last n).
Proof.
  intros last.
  assert (∀ attempts, (3 ≤ attempts)%nat →
            (getOnAuth token explicitUsername attempts url).1 = last) as Hlast.
  { intros attempts Hle. destruct attempts as [|[|[|m]]]; try lia.
    unfold getOnAuth, last. cbv zeta. cbn [fst Nat.eqb andb orb].
    rewrite !andb_false_r. by destruct (includes _ _). }
  split; [|split; [|split; [exact Hlast|]]].
  - intros u -> Hu. unfold getOnAuth. cbv zeta. cbn [fst Nat.eqb fmap option_fmap option_map default].
    destruct (String.eqb_spec (trim u) ""); done.
  - intros u attempts -> Hu. unfold getOnAuth. cbv zeta.
    cbn [fmap option_fmap option_map]. rewrite Hu. reflexivity.
  - intros n. cbn [offers Nat.add].
    assert (∀ k m, (3 ≤ k)%nat → offers token explicitUsername url k m = repeat last m)
      as Hrest.
    { intros k m. revert k. induction m as [|m IH]; intros k Hk; [reflexivity|].
      cbn [offers repeat]. specialize (Hlast k Hk).
      destruct (getOnAuth token explicitUsername k url) as [c k'] eqn:Hg.
      cbn [fst] in Hlast. subst c. f_equal.
      assert (k' = S k) as ->.
      { unfold getOnAuth in Hg. by injection Hg as _ <-. }
      apply IH. lia. }
    repeat (lazymatch goal with
            | |- context [getOnAuth ?t ?e ?k ?u] =>
                let c := fresh "c" in let k' := fresh "k" in let Hg := fresh "Hg" in
                destruct (getOnAuth t e k u) as [c k'] eqn:Hg;
                unfold getOnAuth in Hg; injection Hg as _ <-
            end).
    cbn [skipn]. apply Hrest. lia.
Qed.

(** ** [git:check-status] and the probe of a sync *)

(** The probe of a sync reads the remote as [git:check-status] does, except
    that it cannot fail.  When the callback of credentials of the sync can
    be built, as it can from the token and the user name [git:check-status]
    is given, a remote holds data for the sync exactly when
    [git:check-status] succeeds with [isEmpty = false].  Where
    [git:check-status] reports a failure, or the callback cannot be built,
    the sync goes on as if the remote were empty. *)
Theorem probe_matches_check_status (env : GitEnv) (lg : Login)
    (url token username : string) (w w0 : World) :
  run (remote_check env lg) w0 =
  Ret match getOnAuth_closure lg, run (git_check_status env url token username) w with
      | Ret _, Ret (Success isEmpty) => negb isEmpty
      | _, _ => false
      end ∧
  getOnAuth_closure (sync_login (given_args token url username)) =
  Ret (trim token, if String.eqb (trim username) "" then None else Some (trim username)) ∧
  (∀ e, r_error (env OpListServerRefs) = Some e →
        run (git_check_status env url token username) w = Ret (Failure (message e))).
Proof.
  split; [|split].
  - unfold remote_check, git_check_status, git_listServerRefs, onAuth, git_call, log, run.
    munfold.
    assert (∃ c, getOnAuth_closure
                   (mkLogin (Some (JStr token))
                      (if String.eqb username "" then None else Some (JStr username)))
                 = Ret c) as [c ->] by (destruct (String.eqb username ""); by eexists).
    destruct (getOnAuth_closure lg) as [c'|e'];
      destruct (r_error (env OpListServerRefs)) as [e|]; cbn [fst]; try reflexivity.
    by destruct (r_refs (env OpListServerRefs)).
  - cbn [given_args sync_login getOnAuth_closure login_token login_username].
    destruct (String.eqb_spec username "") as [->|Hne]; reflexivity.
  - intros e He.
    unfold git_check_status, git_listServerRefs, onAuth, git_call, run. munfold.
    assert (∃ c, getOnAuth_closure
                   (mkLogin (Some (JStr token))
                      (if String.eqb username "" then None else Some (JStr username)))
                 = Ret c) as [c ->] by (destruct (String.eqb username ""); by eexists).
    by rewrite He.
Qed.

(** ** What each mode of a sync leaves alone *)

#[local] Instance local_frame_preorder : PreOrder local_frame.
Proof.
  split.
  - intros w. repeat split.
  - intros a b c (?&?&?&?) (?&?&?&?). repeat split; congruence.
Qed.

Ltac frame_leaf := repeat case_match; first [reflexivity | by repeat split].

Ltac one_way_leaf :=
  emits_leaf ltac:(cbn [String.eqb Ascii.eqb Bool.eqb orb negb one_way]; exact I).

Ltac unpublished_leaf := emits_leaf ltac:(cbn [unpublished]; exact I).

Ltac unforced_leaf :=
  emits_leaf ltac:(unfold unforced; cbn [String.eqb Ascii.eqb Bool.eqb orb negb];
                   discriminate).

Section SyncModes.
Context `{Sodium}.

(** In push mode the import step does nothing. *)
Lemma data_import_push (R : relation World) `{!PreOrder R} :
  steps R (data_import "push").
Proof.
  intros w. unfold exec, data_import. rewrite bind_unfold. unfold existsSync.
  cbn [String.eqb Ascii.eqb Bool.eqb negb]. rewrite andb_false_r. reflexivity.
Qed.

(** In push mode nothing is pulled. *)
Lemma pull_step_push (R : relation World) `{!PreOrder R} (env : GitEnv) (lg : Login)
    (b : bool) :
  steps R (pull_step env lg "push" b).
Proof. intros w. unfold exec, pull_step. destruct b; reflexivity. Qed.

(** In a mode that is neither push nor merge the last step does nothing. *)
Lemma commit_and_push_skipped (R : relation World) `{!PreOrder R} (env : GitEnv)
    (lg : Login) (mode commitMessage : string) (b : bool) :
  String.eqb mode "push" = false → String.eqb mode "merge" = false →
  steps R (commit_and_push env lg mode commitMessage b).
Proof. intros Hp Hm w. unfold exec, commit_and_push. rewrite Hp, Hm. reflexivity. Qed.

Lemma runSync_steps (R : relation World) `{!PreOrder R} (fuel : nat) (env : bool → GitEnv)
    (lg : Login) (safeUrl mode commitMessage : string) (retry : bool) :
  (∀ retry, steps R (runSyncBody (env retry) lg safeUrl mode commitMessage)) →
  (∀ msg, steps R (log msg)) →
  steps R rmSync_SYNC_DIR →
  steps R (runSync fuel env lg safeUrl mode commitMessage retry).
Proof.
  intros Hbody Hlog Hrm. revert retry.
  induction fuel as [|fuel IH]; intros retry; cbn [runSync].
  - apply steps_ret; done.
  - pose proof (Hbody retry). pose proof (IH false).
    steps_go ltac:(idtac; reflexivity).
Qed.

Lemma git_sync_steps (R : relation World) `{!PreOrder R} (fuel : nat) (env : bool → GitEnv)
    (token url username mode commitMessage : string) :
  (∀ retry lg u, steps R (runSyncBody (env retry) lg u mode commitMessage)) →
  (∀ msg, steps R (log msg)) →
  steps R rmSync_SYNC_DIR →
  steps R (git_sync fuel env token url username mode commitMessage).
Proof.
  intros Hbody Hlog Hrm. unfold git_sync.
  assert (∀ lg u, steps R (runSync fuel env lg u mode commitMessage true))
    by (intros; apply runSync_steps; auto).
  steps_go ltac:(idtac; reflexivity).
Qed.

(** Push mode is one way.  A sync in push mode never pulls, never imports
    and never pushes without [force]; the key in memory, the vault file, the
    metadata file and the record store are after the sync what they were
    before. *)
Theorem push_mode_is_one_way (fuel : nat) (env : bool → GitEnv)
    (token url username commitMessage : string) (w : World) :
  let w' := exec (git_sync fuel env token url username "push" commitMessage) w in
  local_frame w w' ∧ Forall one_way (new_events w w').
Proof.
  intros w'. split.
  - apply git_sync_steps; try typeclasses eauto.
    + intros retry lg u. unfold runSyncBody.
      pose proof (data_import_push local_frame).
      steps_go ltac:(idtac; frame_leaf).
    + intros msg. steps_go ltac:(idtac; frame_leaf).
    + steps_go ltac:(idtac; frame_leaf).
  - apply emits_new_events. apply git_sync_steps; try typeclasses eauto.
    + intros retry lg u. unfold runSyncBody.
      pose proof (data_import_push (emits one_way)).
      assert (∀ b, steps (emits one_way) (pull_step (env retry) lg "push" b))
        by (intros; apply pull_step_push; typeclasses eauto).
      steps_go ltac:(idtac; one_way_leaf).
    + intros msg. steps_go ltac:(idtac; one_way_leaf).
    + steps_go ltac:(idtac; one_way_leaf).
Qed.

(** A sync in a mode that is neither push nor merge publishes nothing: it
    stages no file, makes no commit and sends nothing to the remote. *)
Theorem other_modes_publish_nothing (fuel : nat) (env : bool → GitEnv)
    (token url username mode commitMessage : string) (w : World) :
  String.eqb mode "push" = false →
  String.eqb mode "merge" = false →
  let w' := exec (git_sync fuel env token url username mode commitMessage) w in
  Forall unpublished (new_events w w').
Proof.
  intros Hp Hm w'. apply emits_new_events. apply git_sync_steps; try typeclasses eauto.
  - intros retry lg u. unfold runSyncBody.
    assert (∀ b, steps (emits unpublished)
              (commit_and_push (env retry) lg mode commitMessage b))
      by (intros; apply commit_and_push_skipped; done || typeclasses eauto).
    steps_go ltac:(idtac; unpublished_leaf).
  - intros msg. steps_go ltac:(idtac; unpublished_leaf).
  - steps_go ltac:(idtac; unpublished_leaf).
Qed.

Lemma remote_check_has_data (env : GitEnv) (lg : Login) (c : string * option string)
    (w : World) :
  getOnAuth_closure lg = Ret c →
  r_error (env OpListServerRefs) = None →
  r_refs (env OpListServerRefs) ≠ [] →
  run (remote_check env lg) w = Ret true.
Proof.
  intros Hc He Hr.
  unfold remote_check, git_listServerRefs, onAuth, git_call, log, run. munfold.
  rewrite Hc, He. cbn [fst]. by destruct (r_refs (env OpListServerRefs)).
Qed.

(** When [getOnAuth] throws, [git.push] is not called. *)
Lemma git_push_without_callback (R : relation World) `{!PreOrder R} (env : GitEnv)
    (lg : Login) (e : JsError) (force : bool) :
  getOnAuth_closure lg = Throw e → steps R (git_push env lg force).
Proof.
  intros Hc w. unfold exec, git_push, onAuth. munfold. rewrite Hc. reflexivity.
Qed.

(** A merge against a remote that lists a ref never forces its push: what
    the remote holds is overwritten by a merge only after the probe found no
    ref, or failed. *)
Theorem merge_with_remote_data_never_forces (fuel : nat) (env : bool → GitEnv)
    (token url username commitMessage : string) (w : World) :
  (∀ retry, r_error (env retry OpListServerRefs) = None ∧
            r_refs (env retry OpListServerRefs) ≠ []) →
  let w' := exec (git_sync fuel env token url username "merge" commitMessage) w in
  Forall unforced (new_events w w').
Proof.
  intros Hrefs w'. apply emits_new_events. apply git_sync_steps; try typeclasses eauto.
  - intros retry lg u. destruct (Hrefs retry) as [He Hr]. unfold runSyncBody.
    destruct (getOnAuth_closure lg) as [c|e] eqn:Hc.
    + refine (steps_bind _ _ _ _ _); [steps_go ltac:(idtac; unforced_leaf)|intros _].
      refine (steps_bind _ _ _ _ _); [steps_go ltac:(idtac; unforced_leaf)|intros _].
      refine (steps_bind_const _ _ _ true _ _ _);
        [intros; by eapply remote_check_has_data
        |steps_go ltac:(idtac; unforced_leaf)|].
      steps_go ltac:(idtac; unforced_leaf).
    + assert (∀ force, steps (emits unforced) (git_push (env retry) lg force))
        by (intros; eapply git_push_without_callback; [typeclasses eauto|done]).
      steps_go ltac:(idtac; unforced_leaf).
  - intros msg. steps_go ltac:(idtac; unforced_leaf).
  - steps_go ltac:(idtac; unforced_leaf).
Qed.

End SyncModes.

(** ** Sync, the lock and the clone *)

Section SyncGuards.
Context `{Sodium}.

(** A locked vault is never synced.  Whatever the arguments and whatever the
    credentials cache holds, [git:sync] on a locked vault calls nothing,
    writes nothing and logs nothing, and it does not report a success. *)
Theorem locked_vault_is_never_synced (fuel : nat) (env : bool → GitEnv)
    (token url username mode commitMessage : string) (w : World) :
  masterKey w = None →
  exec (git_sync fuel env token url username mode commitMessage) w = w ∧
  ∀ r, run (git_sync fuel env token url username mode commitMessage) w = Ret r →
       ∃ err, r = Some (Failure err).
Proof.
  intros Hk. unfold git_sync, run, exec. rewrite bind_unfold.
  assert (status w = (Ret true, w)) as Hst.
  { unfold status, get. by rewrite Hk. }
  assert (∀ lg s, (ret (trim s) ≫= λ safeUrl, status ≫= λ locked : bool,
                     if locked then ret (Some (Failure "Vault is LOCKED"))
                     else runSync fuel env lg safeUrl mode commitMessage true) w
                  = (Ret (Some (Failure "Vault is LOCKED")), w)) as Hlocked.
  { intros lg s. rewrite bind_unfold. unfold ret at 1. by rewrite bind_unfold, Hst. }
  lazymatch goal with
  | |- context [match ?m w with _ => _ end] =>
      assert (steps eq m) as Hsteps by steps_go ltac:(idtac; reflexivity);
      specialize (Hsteps w); unfold exec in Hsteps;
      destruct (m w) as [[[[lg [[| | |s| |]|]]|]|e] w1]
  end; cbn [snd] in Hsteps; subst w1; cbv beta iota; cbn [sync_url sync_login];
    rewrite ?Hlocked;
    (split; [reflexivity|]); intros r Hr;
    first [discriminate Hr | injection Hr as <-; eauto].
Qed.

End SyncGuards.

(** A clone that fails has still erased the sync directory.  [git:clone]
    removes the directory before it calls git: when the call fails, the
    handler reports the failure, and what the directory held before (the
    repository, the payload file, the credentials cache) is gone. *)
Theorem failed_clone_wipes_the_directory (env : GitEnv) (url token : string)
    (username : option string) (e : JsError) (w : World) :
  r_error (env OpClone) = Some e →
  let w' := exec (git_clone env url token username) w in
  run (git_clone env url token username) w = Ret (Failure (message e)) ∧
  sync_dir w' = Some (mkSyncDir ∅ None) ∧
  local_frame w w'.
Proof.
  intros He w'. subst w'.
  unfold git_clone, onAuth, git_call, sync_dir_exists, rmSync_SYNC_DIR,
    mkdirSync_SYNC_DIR, run, exec.
  destruct username as [user|];
    cbn [getOnAuth_closure login_token login_username fmap option_fmap option_map];
    munfold; cbn [sync_dir set_sync_dir emit];
    (destruct (sync_dir w) as [sd|] eqn:Hsd;
     [rewrite bool_decide_eq_true_2 by eauto
     |rewrite bool_decide_eq_false_2 by (by intros [])]);
    cbn [sync_dir set_sync_dir emit]; rewrite ?Hsd; rewrite He; by repeat split.
Qed.

Lemma other_modes_publish_nothing_witness :
  let w' := exec (@git_sync ref_sodium 2 (λ _, env_remote_has_data) "tok123" sample_url
                    "alice" "pull" "") machine_b in
  Forall unpublished (new_events machine_b w').
Proof.
  apply (@other_modes_publish_nothing ref_sodium 2 (λ _, env_remote_has_data) "tok123"
           sample_url "alice" "pull" "" machine_b); reflexivity.
Defined.

Lemma merge_with_remote_data_never_forces_witness :
  let w' := exec (@git_sync ref_sodium 2 (λ _, env_remote_has_data) "tok123" sample_url
                    "alice" "merge" "") machine_b in
  Forall unforced (new_events machine_b w') ∧ EPush false ∈ new_events machine_b w'.
Proof.
  split.
  - apply (@merge_with_remote_data_never_forces ref_sodium 2 (λ _, env_remote_has_data)
             "tok123" sample_url "alice" "" machine_b).
    intros retry. split; [reflexivity|discriminate].
  - vm_compute. repeat constructor.
Defined.

Lemma locked_vault_is_never_synced_witness :
  let m := @git_sync ref_sodium 2 (λ _, env_remote_has_data) "tok123" sample_url "alice"
             "merge" "" in
  run m world_locked = Ret (Some (Failure "Vault is LOCKED")) ∧
  exec m world_locked = world_locked ∧
  ∀ r, run m world_locked = Ret r → ∃ err, r = Some (Failure err).
Proof.
  split; [vm_compute; reflexivity|].
  apply (@locked_vault_is_never_synced ref_sodium 2 (λ _, env_remote_has_data) "tok123"
           sample_url "alice" "merge" "" world_locked).
  reflexivity.
Defined.

Lemma failed_clone_wipes_the_directory_witness :
  let w' := exec (git_clone env_clone_fails sample_url "tok123" (Some "alice"))
              machine_cloned in
  (∃ sd, sync_dir machine_cloned = Some sd ∧
         is_Some (worktree sd !! ".git-credentials-cache.json")) ∧
  run (git_clone env_clone_fails sample_url "tok123" (Some "alice")) machine_cloned
    = Ret (Failure "HTTP Error: 401 Unauthorized") ∧
  sync_dir w' = Some (mkSyncDir ∅ None) ∧
  local_frame machine_cloned w'.
Proof.
  split.
  - eexists. split; [vm_compute; reflexivity|]. vm_compute. eauto.
  - apply (failed_clone_wipes_the_directory env_clone_fails sample_url "tok123"
             (Some "alice") probe_error machine_cloned).
    reflexivity.
Defined.

(** ** The credentials cache *)

Lemma trim_start_ind (P : string → Prop) :
  (∀ s, trim_start s = s → P s) →
  (∀ p s, (∀ u, trim_start (p ++ u) = trim_start u) → P s → P (p ++ s)) →
  ∀ s, P s.
Proof.
  intros Hstop Hstep s.
  remember (String.length s) as n eqn:Hn.
  revert s Hn. induction n as [n IH] using lt_wf_ind. intros s ->.
  destruct s as [|c1 r1]; [by apply Hstop|].
  destruct (is_space1 c1) eqn:H1.
  { apply (Hstep (String c1 "") r1).
    - intros u. change (trim_start (String c1 u) = trim_start u).
      cbn [trim_start]. by rewrite H1.
    - eapply IH; [|reflexivity]. simpl. lia. }
  destruct (N_of_ascii c1 <? 194)%N eqn:Hlead.
  { apply Hstop. cbn [trim_start]. by rewrite H1, Hlead. }
  destruct r1 as [|c2 r2].
  { apply Hstop. cbn [trim_start]. by rewrite H1, Hlead. }
  destruct (is_space2 c1 c2) eqn:H2.
  { apply (Hstep (String c1 (String c2 "")) r2).
    - intros u. change (trim_start (String c1 (String c2 u)) = trim_start u).
      cbn [trim_start]. by rewrite H1, Hlead, H2.
    - eapply IH; [|reflexivity]. simpl. lia. }
  destruct r2 as [|c3 r3].
  { apply Hstop. cbn [trim_start]. by rewrite H1, Hlead, H2. }
  destruct (is_space3 c1 c2 c3) eqn:H3.
  { apply (Hstep (String c1 (String c2 (String c3 ""))) r3).
    - intros u. change (trim_start (String c1 (String c2 (String c3 u))) = trim_start u).
      cbn [trim_start]. by rewrite H1, Hlead, H2, H3.
    - eapply IH; [|reflexivity]. simpl. lia. }
  apply Hstop. cbn [trim_start]. by rewrite H1, Hlead, H2, H3.
Qed.

Lemma trim_start_app_blank (a w : string) :
  trim_start a = "" → trim_start (a ++ w) = trim_start w.
Proof.
  induction a as [a Ha|p a Hp IH] using trim_start_ind; intros Hblank.
  - rewrite Ha in Hblank. by subst.
  - rewrite Hp in Hblank. rewrite append_assoc, Hp. by apply IH.
Qed.

Lemma trim_start_idempotent (s : string) : trim_start (trim_start s) = trim_start s.
Proof.
  induction s as [s Hs|p s Hp IH] using trim_start_ind.
  - by rewrite !Hs.
  - by rewrite Hp.
Qed.

Lemma trim_start_suffix (s : string) : ∃ p, s = p ++ trim_start s.
Proof.
  induction s as [s Hs|p s Hp [q IH]] using trim_start_ind.
  - exists "". by rewrite Hs.
  - exists (p ++ q). by rewrite Hp, append_assoc, <- IH.
Qed.

Lemma trim_end_split (s : string) : ∃ w, s = trim_end s ++ w ∧ trim_start w = "".
Proof.
  induction s as [|c rest (w & Hw & Hblank)]; [by exists ""|].
  cbn [trim_end]. destruct (String.eqb_spec (trim_start (String c rest)) "") as [He|Hne].
  - by exists (String c rest).
  - exists w. split; [|done]. rewrite append_cons. by f_equal.
Qed.

(** No suffix of [s] but the empty one is white space. *)
Definition ends_clean (s : string) : Prop :=
  ∀ p u, s = p ++ u → u ≠ "" → trim_start u ≠ "".

Lemma ends_clean_suffix (p s : string) : ends_clean (p ++ s) → ends_clean s.
Proof.
  intros Hc q u -> Hu. apply (Hc (p ++ q) u); [|done]. by rewrite append_assoc.
Qed.

Lemma trim_end_fixed (s : string) : ends_clean s → trim_end s = s.
Proof.
  induction s as [|c rest IH]; intros Hc; [done|]. cbn [trim_end].
  destruct (String.eqb_spec (trim_start (String c rest)) "") as [He|Hne].
  - by destruct (Hc "" (String c rest)).
  - f_equal. apply IH. by apply (ends_clean_suffix (String c "")).
Qed.

Lemma trim_end_clean (s : string) : ends_clean (trim_end s).
Proof.
  induction s as [|c rest IH]; intros p u Hs Hu.
  - cbn [trim_end] in Hs. destruct p, u; done.
  - cbn [trim_end] in Hs.
    destruct (String.eqb_spec (trim_start (String c rest)) "") as [He|Hne].
    { destruct p, u; done. }
    destruct p as [|c' p]; [rewrite append_nil_l in Hs|rewrite append_cons in Hs].
    + subst u. intros Hblank. apply Hne.
      destruct (trim_end_split rest) as (w & Hw & Hwb).
      rewrite Hw, <- append_cons. by rewrite trim_start_app_blank.
    + injection Hs as -> Hs. by apply (IH p u).
Qed.

(** Trimming twice is trimming once. *)
Lemma trim_idempotent (s : string) : trim (trim s) = trim s.
Proof.
  unfold trim. rewrite (trim_end_fixed (trim_start (trim_end s))).
  - apply trim_start_idempotent.
  - destruct (trim_start_suffix (trim_end s)) as [p Hp].
    apply (ends_clean_suffix p). rewrite <- Hp. apply trim_end_clean.
Qed.

(** A text is blank when all of it is white space. *)
Lemma is_blank_trim_start (s : string) : is_blank s = String.eqb (trim_start s) "".
Proof.
  unfold is_blank, trim.
  destruct (trim_end_split s) as (w & Hw & Hwb).
  destruct (String.eqb_spec (trim_start s) "") as [He|Hne].
  - destruct s as [|c rest]; [done|]. cbn [trim_end]. by rewrite He.
  - apply String.eqb_neq. intros Hblank. apply Hne.
    rewrite Hw. by rewrite trim_start_app_blank.
Qed.

Section Cache.
Context `{Sodium}.

(** A sync uses the token and the user name through [getOnAuth] only. *)
Lemma runSync_closure (fuel : nat) (env : bool → GitEnv) (lg1 lg2 : Login)
    (safeUrl mode commitMessage : string) (retry : bool) :
  getOnAuth_closure lg1 = getOnAuth_closure lg2 →
  runSync fuel env lg1 safeUrl mode commitMessage retry
  = runSync fuel env lg2 safeUrl mode commitMessage retry.
Proof.
  intros Hc.
  assert (onAuth lg1 = onAuth lg2) as Ho by (unfold onAuth; by rewrite Hc).
  assert (∀ e, runSyncBody e lg1 safeUrl mode commitMessage
               = runSyncBody e lg2 safeUrl mode commitMessage) as Hbody.
  { intros e. unfold runSyncBody, remote_check, pull_step, commit_and_push,
      git_listServerRefs, git_pull, git_push. by rewrite Ho. }
  revert retry. induction fuel as [|fuel IH]; intros retry; [reflexivity|].
  cbn [runSync]. by rewrite Hbody, (IH false).
Qed.

(** After a clone, a sync needs no credentials.  When [git:clone] succeeds
    it leaves the trimmed url, the token and the user name in the
    credentials cache of the sync directory; a [git:sync] called without url
    and token then reads them back and runs exactly as the sync called with
    the url and the token of the clone, and with its user name when the
    call passes none: the same callback of credentials reaches every call to
    the remote, the same events are recorded and the same result is
    returned. *)
Theorem sync_after_clone_uses_the_cache (env0 : GitEnv) (url token : string)
    (username : option string) (w : World) :
  r_error (env0 OpClone) = None →
  unwritable w CREDENTIALS_CACHE = false →
  url ≠ "" → token ≠ "" →
  let w' := exec (git_clone env0 url token username) w in
  run (git_clone env0 url token username) w = Ret (Success tt) ∧
  readFileSync CREDENTIALS_CACHE w' =
    (Ret (JSON_stringify
            (JObj ([("url", JStr (trim url)); ("token", JStr token)]
                   ++ match username with Some u => [("username", JStr u)] | None => [] end))),
     w') ∧
  ∀ fuel env user mode commitMessage,
    git_sync fuel env "" "" user mode commitMessage w' =
    git_sync fuel env token url
      (if String.eqb user "" then default "" username else user) mode commitMessage w'.
Proof.
  intros He Hu Hurl Htoken w'.
  set (text := JSON_stringify
         (JObj ([("url", JStr (trim url)); ("token", JStr token)]
                ++ match username with Some u => [("username", JStr u)] | None => [] end))).
  assert (run (git_clone env0 url token username) w = Ret (Success tt) ∧
          ∃ sd, sync_dir w' = Some sd ∧
                worktree sd !! ".git-credentials-cache.json" = Some text) as [Hrun Hsd].
  { subst w'. unfold git_clone, onAuth, git_call, sync_dir_exists, rmSync_SYNC_DIR,
      mkdirSync_SYNC_DIR, writeFileSync, run, exec.
    assert (∃ c, getOnAuth_closure (mkLogin (Some (JStr token)) (JStr <$> username))
                 = Ret c) as [c ->] by (destruct username; by eexists).
    munfold. cbn [sync_dir set_sync_dir emit unwritable].
    destruct (sync_dir w) as [sd|] eqn:Hsd;
      [rewrite bool_decide_eq_true_2 by eauto
      |rewrite bool_decide_eq_false_2 by (by intros [])];
      cbn [sync_dir set_sync_dir emit unwritable]; rewrite ?Hsd; rewrite He;
      cbn [sync_dir set_sync_dir emit unwritable];
      rewrite Hu;
      cbn [fst snd sync_dir set_sync_dir worktree];
      (split; [reflexivity|]); eexists; (split; [reflexivity|]);
      apply lookup_insert_eq. }
  destruct Hsd as (sd & Hsd & Hfile).
  assert (readFileSync CREDENTIALS_CACHE w' = (Ret text, w')) as Hread.
  { unfold readFileSync, CREDENTIALS_CACHE. by rewrite Hsd, Hfile. }
  split; [exact Hrun|]. split; [exact Hread|].
  intros fuel env user mode commitMessage. unfold git_sync.
  assert (String.eqb url "" || String.eqb token "" = false) as ->.
  { apply orb_false_intro; by apply String.eqb_neq. }
  cbn [String.eqb orb].
  assert (JSON_parse text =
          Some (JObj ([("url", JStr (trim url)); ("token", JStr token)]
                ++ match username with Some u => [("username", JStr u)] | None => [] end)))
    as Hparse by (apply JSON_parse_stringify; by destruct username).
  set (cached := mkLogin (Some (JStr token))
                   (or_cached user (JStr <$> username))).
  erewrite (bind_ret_l (try_catch _ _) _ w' w'
              (Some (mkSyncArgs cached (Some (JStr (trim url)))))); cycle 1.
  { apply try_catch_ret. rewrite (bind_ret_l _ _ _ _ _ Hread).
    unfold JSON_parse_M. rewrite Hparse. unfold cached. by destruct username. }
  erewrite (bind_ret_l (ret _) _ w' w' (Some (given_args token url _))) by reflexivity.
  cbn [sync_url sync_login given_args].
  rewrite !bind_unfold. unfold ret at 1. unfold ret at 2.
  rewrite trim_idempotent.
  rewrite (runSync_closure fuel env cached
             (mkLogin (Some (JStr token))
                (if String.eqb (if String.eqb user "" then default "" username else user) ""
                 then None
                 else Some (JStr (if String.eqb user "" then default "" username
                                  else user))))); [reflexivity|].
  unfold cached, or_cached. cbn [getOnAuth_closure login_token login_username].
  destruct (String.eqb_spec user "") as [->|Huser].
  - destruct username as [[|c u]|]; reflexivity.
  - by destruct user.
Qed.

End Cache.

Lemma sync_after_clone_uses_the_cache_witness :
  let w' := machine_cloned in
  run (git_clone env_remote_has_data sample_url "tok123" (Some "alice")) world_saved
    = Ret (Success tt) ∧
  readFileSync CREDENTIALS_CACHE w' = (Ret credentials_json, w') ∧
  ∀ fuel env user mode commitMessage,
    @git_sync ref_sodium fuel env "" "" user mode commitMessage w' =
    @git_sync ref_sodium fuel env "tok123" sample_url
      (if String.eqb user "" then "alice" else user) mode commitMessage w'.
Proof.
  intros w'.
  destruct (@sync_after_clone_uses_the_cache ref_sodium env_remote_has_data sample_url
              "tok123" (Some "alice") world_saved) as (Hrun & Hread & Hsync);
    try reflexivity; try discriminate.
  split; [exact Hrun|]. split; [|exact Hsync].
  etrans; [exact Hread|]. vm_compute. reflexivity.
Defined.

(** The sync that follows the clone hands the token and the user name of
    the cache to each of its three network calls. *)
Example cached_credentials_reach_the_remote :
  let w' := exec (@git_sync ref_sodium 2 (λ _, env_remote_has_data) "" "" "" "merge" "")
              machine_cloned in
  callbacks (new_events machine_cloned w') =
  [("tok123", Some "alice"); ("tok123", Some "alice"); ("tok123", Some "alice")].
Proof. vm_compute. reflexivity. Qed.
